(** * Junctions.c: wall junctions and white (shading) pieces

    A shallow embedding of [src/arch/Junctions_annotated.c]: the junction
    finder of [init_walls], the white-piece list ([add_white],
    [replace_white_2]), [norm_whites], [close_whites] / [one_close], the
    sort and merge of [init_whites], [white_hash_merge] / [no_close_wh],
    the clipping of [white_wall_piece] / [eor_wall_piece] and of
    [draw_hash], and the scans of [fast_whites] and [fast_hashes] with the
    inline drawing of the latter.

    The program is THINK C for the 68000: [int] is 16 bits wide (the
    assembly reads the [int] fields of [whiterec] with [move.w], and
    [def -= y << 1] steps over one [int] per row), [long] is 32 bits. *)

From Stdlib Require Import ZArith List Bool Lia Permutation Sorted.
Import ListNotations.
Local Open Scope Z_scope.

(** ** 16-bit integers *)

Module Int.

(** The value of a 16-bit [int] after an arithmetic result [z] is stored. *)
Definition int16 (z : Z) : Z := (z + 32768) mod 65536 - 32768.

Definition add (a b : Z) : Z := int16 (a + b).
Definition sub (a b : Z) : Z := int16 (a - b).
Definition mul (a b : Z) : Z := int16 (a * b).

Definition in_int16 (z : Z) : Prop := -32768 <= z <= 32767.

End Int.

Infix "+i" := Int.add (at level 50, left associativity).
Infix "-i" := Int.sub (at level 50, left associativity).

(** ** Records *)

(** [typedef struct {int x, y;} junctionrec;] *)
Record junctionrec := mkjunction { jx : Z; jy : Z }.

(** Modelled from the spec: [linerec] is declared in GW.h, which is not
    part of the sources.  The fields are those Junctions.c reads and writes
    (spec section 3, Wall): the end points, [length], the direction
    [newtype], the shading bounds [h1]/[h2], and [type], which is zero in
    the record that terminates the [lines] array. *)
Record linerec := mkline {
  ltype : Z;
  startx : Z; starty : Z;
  endx : Z; endy : Z;
  length : Z;
  newtype : Z;
  h1 : Z; h2 : Z
}.

(** Modelled from the spec: the [NEW_*] direction constants of GW.h.  Their
    values are fixed by the [whitepicts] table, the comment of which says
    it is indexed by them and names the direction of every row. *)
Definition NEW_S : Z := 1.
Definition NEW_SSE : Z := 2.
Definition NEW_SE : Z := 3.
Definition NEW_ESE : Z := 4.
Definition NEW_E : Z := 5.
Definition NEW_ENE : Z := 6.
Definition NEW_NE : Z := 7.
Definition NEW_NNE : Z := 8.

(** The walls of the [lines] array: the records before the first one whose
    [type] is zero, as every [for (line=lines; line->type; line++)] visits
    them. *)
Fixpoint walls (lines : list linerec) : list linerec :=
  match lines with
  | [] => []
  | l :: rest => if ltype l =? 0 then [] else l :: walls rest
  end.

(** [(i ? line->endx : line->startx)], [(i ? line->endy : line->starty)] *)
Definition endpoint (l : linerec) (i : bool) : Z * Z :=
  if i then (endx l, endy l) else (startx l, starty l).

Definition endpoints (lines : list linerec) : list (Z * Z) :=
  flat_map (fun l => [endpoint l false; endpoint l true]) (walls lines).

(** ** init_walls, step 3: the junction finder *)

Module JunctionFinder.

(** The test of the scan:
    [j->x <= x+3 && j->x >= x-3 && j->y <= y+3 && j->y >= y-3] *)
Definition near (p : Z * Z) (j : junctionrec) : bool :=
  (jx j <=? fst p +i 3) && (jx j >=? fst p -i 3) &&
  (jy j <=? snd p +i 3) && (jy j >=? snd p -i 3).

(** [for (j=junctions; j < lastj; j++) if (...) break;] leaves [j] on the
    first junction near the point, or on [lastj]. *)
Definition scan (js : list junctionrec) (p : Z * Z) : option junctionrec :=
  find (near p) js.

(** The body of the loop over the two end points: a point with no junction
    near it becomes a new junction, stored at [lastj]. *)
Definition add_endpoint (js : list junctionrec) (p : Z * Z) : list junctionrec :=
  match scan js p with
  | Some _ => js
  | None => js ++ [mkjunction (fst p) (snd p)]
  end.

Fixpoint pass (lines : list linerec) (js : list junctionrec) : list junctionrec :=
  match lines with
  | [] => js
  | l :: rest =>
      if ltype l =? 0 then js
      else pass rest (add_endpoint (add_endpoint js (endpoint l false)) (endpoint l true))
  end.

(** The junction array after step 3 ([numjunctions] is its length). *)
Definition find_junctions (lines : list linerec) : list junctionrec :=
  pass lines [].

(** The cluster an end point belongs to: the junction its scan stops on. *)
Definition cluster_of (js : list junctionrec) (p : Z * Z) : option junctionrec :=
  scan js p.

(** Distance tests on both axes. *)
Definition within3 (p q : Z * Z) : Prop :=
  Z.abs (fst p - fst q) <= 3 /\ Z.abs (snd p - snd q) <= 3.

Definition beyond3 (p q : Z * Z) : Prop :=
  Z.abs (fst p - fst q) > 3 \/ Z.abs (snd p - snd q) > 3.

Definition jpoint (j : junctionrec) : Z * Z := (jx j, jy j).

(** World coordinates for which [x+3] and [x-3] do not wrap. *)
Definition coord_ok (p : Z * Z) : Prop :=
  -32765 <= fst p <= 32764 /\ -32765 <= snd p <= 32764.

(** The property as the specification words it, for one wall list. *)
Definition clusters_by_distance (lines : list linerec) : Prop :=
  let js := find_junctions lines in
  forall p q, In p (endpoints lines) -> In q (endpoints lines) ->
    (within3 p q -> cluster_of js p = cluster_of js q) /\
    (beyond3 p q -> cluster_of js p <> cluster_of js q).

End JunctionFinder.

(** ** White pieces *)

(** [int *data]: a piece's rows are one of the static tables (read only,
    given here by its contents) or a block of [whitestorage], given by its
    offset in ints from [whitestorage]. *)
Inductive dataptr :=
| Static (table : list Z)
| Storage (off : nat).

(** [typedef struct { int x, y, hasj, ht; whitedata *data; } whiterec;] *)
Record whiterec := mkwhite {
  wx : Z; wy : Z;
  hasj : bool;
  ht : Z;
  data : dataptr
}.

(** Row [i] of a piece's data, [data[i]], in the store [st]. *)
Definition row (st : list Z) (d : dataptr) (i : nat) : Z :=
  match d with
  | Static table => nth i table 0
  | Storage off => nth (off + i) st 0
  end.

(** The tables of the file.  A constant such as [0xFFFF] is stored in a
    16-bit [int]. *)
Definition ints (l : list Z) : list Z := map Int.int16 l.

Definition hash_figure := ints [0x8000; 0x6000; 0x1800; 0x0600; 0x00180; 0x0040].

Definition neglitch := ints [0xEFFF; 0xCFFF; 0x8FFF; 0x0FFF].
Definition eneglitch1 := ints [0x07FF; 0x1FFF; 0x7FFF].
Definition eneglitch2 := ints [0xFF3F; 0xFC3F; 0xF03F; 0xC03F; 0x003F].
Definition eseglitch := ints [0x3FFF; 0xCFFF; 0xF3FF; 0xFDFF].

Definition generictop := ints [0xFFFF; 0x3FFF; 0x0FFF; 0x03FF; 0x00FF; 0x007F].
Definition nnebot := ints [0x800F; 0xC01F; 0xF01F; 0xFC3F; 0xFF3F; 0xFFFF].
Definition nebot := ints [0x8001; 0xC003; 0xF007; 0xFC0F; 0xFF1F; 0xFFFF].
Definition eneleft := ints [0x8000; 0xC000; 0xF000; 0xFC01; 0xFF07; 0xFFDF].
Definition eleft := ints [0xFFFF; 0xFFFF; 0xF000; 0xFC00; 0xFF00; 0xFF80].
Definition eseright := ints [0xFFFF; 0x3FFF; 0x8FFF; 0xE3FF; 0xF8FF; 0xFE7F].
Definition setop := ints [0xFFFF; 0xFFFF; 0xEFFF; 0xF3FF; 0xF8FF; 0xFC3F].
Definition sebot := ints [0x87FF; 0xC3FF; 0xF1FF; 0xFCFF; 0xFF7F; 0xFFFF].
Definition ssetop := ints [0xFFFF; 0xBFFF; 0xCFFF; 0xC3FF; 0xE0FF; 0xE03F].
Definition ssebot := ints [0x80FF; 0xC07F; 0xF07F; 0xFC3F; 0xFF3F; 0xFFFF].
Definition sbot := ints [0x803F; 0xC03F; 0xF03F; 0xFC3F; 0xFF3F; 0xFFFF].

(** [int *whitepicts[][2]]: [None] is [NULL]. *)
Definition whitepicts : list (option (list Z) * option (list Z)) :=
  [ (None, None);
    (Some generictop, Some sbot);
    (Some ssetop, Some ssebot);
    (Some setop, Some sebot);
    (None, Some eseright);
    (Some eleft, Some generictop);
    (Some eneleft, Some generictop);
    (Some nebot, Some generictop);
    (Some nnebot, Some generictop) ].

(** [whitepicts[t][i]] *)
Definition whitepict (t : Z) (i : bool) : option (list Z) :=
  let e := nth (Z.to_nat t) whitepicts (None, None) in
  if i then snd e else fst e.

(** The slot after the last piece: [wh->x = 20000].  Only its [x] is ever
    set by the program. *)
Definition sentinel_wh : whiterec := mkwhite 20000 0 false 0 (Static []).

(** The [whites] array before it is sorted is the list of its [numwhites]
    pieces; [add_white] writes slot [numwhites]. *)
Definition add_white (ws : list whiterec) (x y h : Z) (d : dataptr) : list whiterec :=
  ws ++ [mkwhite x y false h d].

(** The loop of [replace_white_2] runs while
    [wh->y != targety || wh->x != targetx || wh->ht >= ht]; past the last
    piece the function returns without a change. *)
Fixpoint replace_white_2 (ws : list whiterec) (targetx targety x y h : Z) (d : dataptr)
  : list whiterec :=
  match ws with
  | [] => []
  | wh :: rest =>
      if negb (wy wh =? targety) || negb (wx wh =? targetx) || (ht wh >=? h)
      then wh :: replace_white_2 rest targetx targety x y h d
      else mkwhite x y (hasj wh) h d :: rest
  end.

Definition replace_white (ws : list whiterec) (x y h : Z) (d : dataptr) : list whiterec :=
  replace_white_2 ws x y x y h d.

Definition add_white_2 (ws : list whiterec) (dummyx dummyy x y h : Z) (d : dataptr)
  : list whiterec :=
  add_white ws x y h d.

(** ** norm_whites *)

(** The body of the loop of [norm_whites] for one wall. *)
Definition norm_whites_line (ws : list whiterec) (line : linerec) : list whiterec :=
  let ws0 :=
    match whitepict (newtype line) false with
    | Some pic => add_white ws (startx line) (starty line) 6 (Static pic)
    | None => ws
    end in
  let ws1 :=
    match whitepict (newtype line) true with
    | Some pic => add_white ws0 (endx line) (endy line) 6 (Static pic)
    | None => ws0
    end in
  if newtype line =? NEW_NE then
    add_white ws1 (endx line -i 4) (endy line +i 2) 4 (Static neglitch)
  else if newtype line =? NEW_ENE then
    add_white
      (add_white ws1 (startx line +i 16) (starty line) 3 (Static eneglitch1))
      (endx line -i 10) (endy line +i 1) 5 (Static eneglitch2)
  else if newtype line =? NEW_ESE then
    add_white ws1 (endx line -i 7) (endy line -i 2) 4 (Static eseglitch)
  else ws1.

Fixpoint norm_whites (lines : list linerec) (ws : list whiterec) : list whiterec :=
  match lines with
  | [] => ws
  | line :: rest =>
      if ltype line =? 0 then ws else norm_whites rest (norm_whites_line ws line)
  end.

(** ** close_whites and one_close *)

Definition simpleh1 : list Z := [0; 6; 6; 6; 12; 16; 0; 1; 0].
Definition simpleh2 : list Z := [0; 0; 0; 0; -1; 0; -11; -5; -5].

(** [npatch] after the first loop of [close_whites]: 22 rows of [0x003F]. *)
Definition npatch : list Z := repeat 0x003F 22.

Definition nepatch := ints [0xE000; 0xC001; 0x8003; 0x0007].

(** The direction of a wall seen from one of its ends:
    [dir = 9 - newtype; if (n) dir = (dir + 8) & 15;] *)
Definition direction (line : linerec) (n : bool) : Z :=
  let dir := 9 -i newtype line in
  if n then Z.land (dir +i 8) 15 else dir.

(** The run of small pieces of [case 2]:
    [for (j = 0; j < 4*i; j += 4) if (line->h1 < 5 + j) add_white(...)],
    [count] iterations from [j]. *)
Fixpoint nepatch_run (count : nat) (j : Z) (line : linerec) (ws : list whiterec)
  : list whiterec :=
  match count with
  | O => ws
  | S c =>
      let ws' :=
        if h1 line <? 5 +i j
        then add_white ws (startx line +i 3 +i j) (starty line -i 4 -i j) 4 (Static nepatch)
        else ws in
      nepatch_run c (j +i 4) line ws'
  end.

(** [one_close(line, line2, n, m)]: the pieces and the record of [line]
    after the call.  [line2] is only read. *)
Definition one_close (ws : list whiterec) (line line2 : linerec) (n m : bool)
  : list whiterec * linerec :=
  let dir1 := direction line n in
  let dir2 := direction line2 m in
  if dir1 =? dir2 then (ws, line)
  else if dir1 =? 0 then
    let patch (i : Z) : list whiterec * linerec :=
      let j := h2 line in
      if length line -i i >? j then (ws, line)
      else
        let ws' :=
          if j <? length line
          then replace_white_2 ws (startx line) (starty line +i j)
                 (endx line) (endy line -i i) i (Static npatch)
          else add_white_2 ws (startx line) (starty line +i j)
                 (endx line) (endy line -i i) i (Static npatch) in
        (ws', mkline (ltype line) (startx line) (starty line) (endx line) (endy line)
                (length line) (newtype line) (h1 line) (length line -i i)) in
    if (dir2 =? 15) || (dir2 =? 1) then patch 21
    else if dir2 =? 2 then patch 10
    else if (dir2 =? 3) || (dir2 =? 14) then patch 6
    else (ws, line)
  else if dir1 =? 2 then
    let run (i : Z) : list whiterec * linerec :=
      let ws' := nepatch_run (Z.to_nat i) 0 line ws in
      let i' := i -i 1 in
      let j := 5 +i Int.mul 4 i' in
      (ws', if h1 line <? j
            then mkline (ltype line) (startx line) (starty line) (endx line) (endy line)
                   (length line) (newtype line) j (h2 line)
            else line) in
    if dir2 =? 0 then run 3
    else if dir2 =? 1 then run 6
    else if dir2 =? 3 then run 4
    else if dir2 =? 14 then run 1
    else if dir2 =? 15 then run 2
    else (ws, line)
  else (ws, line).

(** The state of [close_whites]: the [lines] array and the pieces. *)
Record cstate := mkcstate {
  clines : list linerec;
  cwhites : list whiterec
}.

(** [arr[k] = v]; a write outside the array is not modelled. *)
Fixpoint store_at {A : Type} (k : nat) (v : A) (arr : list A) : list A :=
  match arr, k with
  | [], _ => []
  | _ :: rest, O => v :: rest
  | a :: rest, S k' => a :: store_at k' v rest
  end.

(** The second loop of [close_whites]:
    [line->h1 = simpleh1[line->newtype];
     line->h2 = line->length + simpleh2[line->newtype];] *)
Definition default_h (line : linerec) : linerec :=
  mkline (ltype line) (startx line) (starty line) (endx line) (endy line)
    (length line) (newtype line)
    (nth (Z.to_nat (newtype line)) simpleh1 0)
    (length line +i nth (Z.to_nat (newtype line)) simpleh2 0).

Fixpoint default_hs (lines : list linerec) : list linerec :=
  match lines with
  | [] => []
  | line :: rest =>
      if ltype line =? 0 then lines else default_h line :: default_hs rest
  end.

(** The test on a pair of end points, [x2], [y2] being those of [line2]
    less 3: [x1 > x2 && y1 > y2 && x1 < x2 + 6 && y1 < y2 + 6]. *)
Definition in_box (p1 p2 : Z * Z) : bool :=
  let x2 := fst p2 -i 3 in
  let y2 := snd p2 -i 3 in
  (fst p1 >? x2) && (snd p1 >? y2) && (fst p1 <? x2 +i 6) && (snd p1 <? y2 +i 6).

(** The body of the loop over [j]: the call [one_close(line, line2, i, j)]
    writes [lines[k]]. *)
Definition close_pair (k k2 : nat) (i j : bool) (st : cstate) : cstate :=
  match nth_error (clines st) k, nth_error (clines st) k2 with
  | Some line, Some line2 =>
      if in_box (endpoint line i) (endpoint line2 j) then
        let r := one_close (cwhites st) line line2 i j in
        mkcstate (store_at k (snd r) (clines st)) (fst r)
      else st
  | _, _ => st
  end.

(** [for (line2=first; line2->startx < x1 + 3; line2++)], from the record of
    index [k2].  The loop ends on the terminating record of [lines], whose
    [startx] lies right of every wall; a scan that runs off the array is not
    modelled and stops at its end. *)
Fixpoint close_scan (fuel : nat) (k : nat) (i : bool) (k2 : nat) (st : cstate) : cstate :=
  match fuel with
  | O => st
  | S f =>
      match nth_error (clines st) k, nth_error (clines st) k2 with
      | Some line, Some line2 =>
          if startx line2 <? fst (endpoint line i) +i 3 then
            close_scan f k i (S k2)
              (close_pair k k2 i true (close_pair k k2 i false st))
          else st
      | _, _ => st
      end
  end.

(** [while (first->endx < line->startx - 3) first++;] *)
Fixpoint skip_first (fuel : nat) (lines : list linerec) (line : linerec) (first : nat) : nat :=
  match fuel with
  | O => first
  | S f =>
      match nth_error lines first with
      | Some l => if endx l <? startx line -i 3 then skip_first f lines line (S first) else first
      | None => first
      end
  end.

(** One iteration of the main loop of [close_whites], for [line = lines[k]]:
    the new [first] and the new state. *)
Definition close_line (k : nat) (first : nat) (st : cstate) : nat * cstate :=
  match nth_error (clines st) k with
  | Some line =>
      let n := List.length (clines st) in
      let first' := skip_first (n - first) (clines st) line first in
      let st0 := close_scan (n - first') k false first' st in
      let st1 := close_scan (n - first') k true first' st0 in
      (first', st1)
  | None => (first, st)
  end.

(** [for (line=lines; line->type; line++)], from index [k]. *)
Fixpoint close_lines (fuel : nat) (k : nat) (first : nat) (st : cstate) : cstate :=
  match fuel with
  | O => st
  | S f =>
      match nth_error (clines st) k with
      | Some line =>
          if ltype line =? 0 then st
          else let r := close_line k first st in close_lines f (S k) (fst r) (snd r)
      | None => st
      end
  end.

(** [close_whites()]: the default bounds of every wall first, then the
    main loop, with [first = lines]. *)
Definition close_whites (st : cstate) : cstate :=
  let st0 := mkcstate (default_hs (clines st)) (cwhites st) in
  close_lines (List.length (clines st0)) 0 0 st0.

(** ** init_whites: sort and merge *)

(** Insertion sort as the file writes it twice: the element of slot [wh]
    is swapped towards the front while [before] holds between it and its
    left neighbour.  [left] is the part of the array in front of the
    element, nearest slot first. *)
Fixpoint sink {A : Type} (before : A -> A -> bool) (a : A) (left : list A) : list A :=
  match left with
  | [] => [a]
  | p :: rest => if before a p then p :: sink before a rest else a :: left
  end.

(** [for (wh=whites; wh < whites + numwhites; wh++)] around that inner
    loop. *)
Definition insertion_sort {A : Type} (before : A -> A -> bool) (arr : list A) : list A :=
  rev (fold_left (fun left a => sink before a left) arr []).

(** [movewh->x <= (movewh-1)->x &&
     (movewh->x < (movewh-1)->x || movewh->y < (movewh-1)->y)] *)
Definition white_before (a p : whiterec) : bool :=
  (wx a <=? wx p) && ((wx a <? wx p) || (wy a <? wy p)).

Definition sort_whites (ws : list whiterec) : list whiterec :=
  insertion_sort white_before ws.

(** [for (m = p; m->x < 20000; m++) *m = m[1];] on the part of an array
    that starts at [p]; [dflt] is the sentinel slot after the array. *)
Fixpoint shift_down {A : Type} (x : A -> Z) (dflt : A) (arr : list A) : list A :=
  match arr with
  | [] => []
  | a :: rest =>
      if x a <? 20000 then nth 0 rest dflt :: shift_down x dflt rest else arr
  end.

Definition splice {A : Type} (x : A -> Z) (dflt : A) (p : nat) (arr : list A) : list A :=
  firstn p arr ++ shift_down x dflt (skipn p arr).

(** The state of the merge loop and of [white_hash_merge]: the sorted
    [whites] array (slots past the list hold the sentinel), [numwhites], and
    the used part of [whitestorage] ([whitesused] is its length). *)
Record mstate := mkmstate {
  marr : list whiterec;
  mnum : Z;
  mstore : list Z
}.

Definition white_at (arr : list whiterec) (k : nat) : whiterec := nth k arr sentinel_wh.

(** The test of the [while]:
    [wh->x == (wh+1)->x && wh->y == (wh+1)->y && wh->ht == 6 && (wh+1)->ht == 6] *)
Definition mergeable (w n : whiterec) : bool :=
  (wx w =? wx n) && (wy w =? wy n) && (ht w =? 6) && (ht n =? 6).

(** [newdata[i] = wh->data[i] & (wh+1)->data[i]] for [i] from 0 to 5. *)
Definition merged_rows (st : list Z) (a b : dataptr) : list Z :=
  map (fun i => Z.land (row st a i) (row st b i)) (seq 0 6).

Definition set_data (w : whiterec) (d : dataptr) : whiterec :=
  mkwhite (wx w) (wy w) (hasj w) (ht w) d.

(** The body of the [while] at slot [k]. *)
Definition merge_at (k : nat) (st : mstate) : mstate :=
  let w := white_at (marr st) k in
  let n := white_at (marr st) (S k) in
  let newdata := Storage (List.length (mstore st)) in
  let store' := mstore st ++ merged_rows (mstore st) (data w) (data n) in
  let arr' := store_at k (set_data w newdata) (marr st) in
  mkmstate (splice wx sentinel_wh (S k) arr') (mnum st -i 1) store'.

Fixpoint merge_while (fuel : nat) (k : nat) (st : mstate) : mstate :=
  match fuel with
  | O => st
  | S f =>
      if mergeable (white_at (marr st) k) (white_at (marr st) (S k))
      then merge_while f k (merge_at k st)
      else st
  end.

(** [for (wh=whites; wh->x < 20000; wh++) while (...) {...}], from slot [k].
    Every turn of the [while] removes a piece in front of the sentinel, so
    the length of the array bounds the turns (see [merge_while_done]). *)
Fixpoint merge_for (fuel : nat) (k : nat) (st : mstate) : mstate :=
  match fuel with
  | O => st
  | S f =>
      if wx (white_at (marr st) k) <? 20000
      then merge_for f (S k) (merge_while (List.length (marr st)) k st)
      else st
  end.

Definition merge_pass (st : mstate) : mstate :=
  merge_for (List.length (marr st)) 0 st.

(** ** white_hash_merge *)

(** Modelled from the spec: [worldwidth], [backgr1] and [backgr2] are
    externs of the file, set by the level loader (spec section 6: a world
    width and two background dither patterns). *)
Record externs := mkexterns {
  worldwidth : Z;
  backgr1 : Z;
  backgr2 : Z
}.

(** The first loop of [no_close_wh], over the slots in front of [w1],
    nearest first: [true] when it returns FALSE. *)
Fixpoint close_before (w1 : whiterec) (left : list whiterec) : bool :=
  match left with
  | [] => false
  | w2 :: rest =>
      if wx w2 >? wx w1 -i 3 then
        if (wy w2 <? wy w1 +i 3) && (wy w2 >? wy w1 -i 3) then true
        else close_before w1 rest
      else false
  end.

(** The second loop, over the slots after [w1]; it ends on the sentinel. *)
Fixpoint close_after (w1 : whiterec) (right : list whiterec) : bool :=
  match right with
  | [] => false
  | w2 :: rest =>
      if wx w2 <? wx w1 +i 3 then
        if (wy w2 <? wy w1 +i 3) && (wy w2 >? wy w1 -i 3) then true
        else close_after w1 rest
      else false
  end.

Definition no_close_wh (arr : list whiterec) (k : nat) : bool :=
  let w1 := white_at arr k in
  negb (close_before w1 (rev (firstn k arr))) && negb (close_after w1 (skipn (S k) arr)).

(** The slot after the last junction: [x = 20000]. *)
Definition sentinel_j : junctionrec := mkjunction 20000 0.

Definition junction_at (js : list junctionrec) (j : nat) : junctionrec := nth j js sentinel_j.

(** [while (j > junctions && j->x >= wh->x) j--;] *)
Fixpoint seek_back (js : list junctionrec) (x : Z) (j : nat) : nat :=
  match j with
  | O => O
  | S j' => if jx (junction_at js j) >=? x then seek_back js x j' else j
  end.

(** [while (j->x <= wh->x && j->y != wh->y) j++;]  The loop ends on the
    sentinel at the latest, the pieces looked at having [x] below it. *)
Fixpoint seek_forth (fuel : nat) (js : list junctionrec) (x y : Z) (j : nat) : nat :=
  match fuel with
  | O => j
  | S f =>
      if (jx (junction_at js j) <=? x) && negb (jy (junction_at js j) =? y)
      then seek_forth f js x y (S j)
      else j
  end.

(** [rol.w #1, back] *)
Definition rol16 (v : Z) : Z :=
  let u := v mod 65536 in
  Int.int16 ((2 * u) mod 65536 + u / 32768).

(** The rows of the overlay:
    [newdata[i] = (back & (~wh->data[i] | hash_figure[i])) ^ hash_figure[i]],
    [back] rotated after each row. *)
Fixpoint hash_rows (st : list Z) (d : dataptr) (back : Z) (i : nat) (count : nat) : list Z :=
  match count with
  | O => []
  | S c =>
      Z.lxor (Z.land back (Z.lor (Z.lnot (row st d i)) (nth i hash_figure 0)))
             (nth i hash_figure 0)
      :: hash_rows st d (rol16 back) (S i) c
  end.

(** [arr[off .. off+5] = rows] *)
Definition write_rows (st : list Z) (off : nat) (rows : list Z) : list Z :=
  firstn off st ++ rows ++ skipn (off + List.length rows) st.

(** The state of [white_hash_merge]: the pieces, the junction array with
    [numjunctions], and the register [j]. *)
Record hstate := mkhstate {
  hwhites : mstate;
  junctions : list junctionrec;
  numjunctions : Z;
  jreg : nat
}.

(** The body of the [for] of [white_hash_merge] at slot [k]. *)
Definition hash_piece (ext : externs) (k : nat) (st : hstate) : hstate :=
  let arr := marr (hwhites st) in
  let store := mstore (hwhites st) in
  let wh := white_at arr k in
  if (ht wh =? 6) && no_close_wh arr k && (wx wh >? 8) then
    let j0 := seek_back (junctions st) (wx wh) (jreg st) in
    let j := seek_forth (List.length (junctions st) - j0) (junctions st) (wx wh) (wy wh) j0 in
    if (jx (junction_at (junctions st) j) =? wx wh) &&
       (jy (junction_at (junctions st) j) =? wy wh) then
      let back :=
        Int.int16 (if Z.land (wx wh +i wy wh) 1 =? 0 then backgr1 ext else backgr2 ext) in
      let rows := hash_rows store (data wh) back 0 6 in
      let alloc :=
        match data wh with
        | Storage off =>
            if (off <? List.length store)%nat
            then (data wh, write_rows store off rows)
            else (Storage (List.length store), store ++ rows)
        | Static _ => (Storage (List.length store), store ++ rows)
        end in
      let wh' := mkwhite (wx wh) (wy wh) true (ht wh) (fst alloc) in
      mkhstate (mkmstate (store_at k wh' arr) (mnum (hwhites st)) (snd alloc))
               (splice jx sentinel_j j (junctions st))
               (numjunctions st -i 1)
               j
    else mkhstate (hwhites st) (junctions st) (numjunctions st) j
  else st.

(** [for (wh=whites; wh->x < worldwidth - 8; wh++)], from slot [k]; the
    sentinel ends it. *)
Fixpoint hash_for (ext : externs) (fuel : nat) (k : nat) (st : hstate) : hstate :=
  match fuel with
  | O => st
  | S f =>
      if wx (white_at (marr (hwhites st)) k) <? worldwidth ext -i 8
      then hash_for ext f (S k) (hash_piece ext k st)
      else st
  end.

(** [white_hash_merge()]: [j = junctions] first. *)
Definition white_hash_merge (ext : externs) (whs : mstate) (js : list junctionrec) (numj : Z)
  : hstate :=
  hash_for ext (List.length (marr whs)) 0 (mkhstate whs js numj 0).

(** ** init_walls and init_whites *)

(** [movej->x < (movej-1)->x] *)
Definition junction_before (a p : junctionrec) : bool := jx a <? jx p.

Definition sort_junctions (js : list junctionrec) : list junctionrec :=
  insertion_sort junction_before js.

(** What [init_walls] leaves behind: the [lines] array with its [h1]/[h2]
    and the state [white_hash_merge] ends in. *)
Record prepared := mkprepared {
  plines : list linerec;
  pstate : hstate
}.

(** [init_whites()] up to the call of [close_whites]: the walls with their
    [h1]/[h2] and the pieces, unsorted. *)
Definition patched_whites (lines : list linerec) : cstate :=
  close_whites (mkcstate lines (norm_whites lines [])).

(** [init_whites()] up to the call of [white_hash_merge]: the pieces sorted
    and merged; [whitesused] starts at 0. *)
Definition merged_whites (lines : list linerec) : mstate :=
  let sorted := sort_whites (cwhites (patched_whites lines)) in
  merge_pass (mkmstate sorted (Z.of_nat (List.length sorted)) []).

(** [init_whites()] *)
Definition init_whites (ext : externs) (lines : list linerec) (js : list junctionrec)
  : prepared :=
  mkprepared (clines (patched_whites lines))
    (white_hash_merge ext (merged_whites lines) js (Z.of_nat (List.length js))).

(** [init_walls()], steps 3 to 5.  Steps 1 and 2 only thread the walls
    into the [kindptrs] and [firstwhite] lists through their [next] and
    [nextwh] fields, which nothing below reads. *)
Definition init_walls (ext : externs) (lines : list linerec) : prepared :=
  init_whites ext lines (sort_junctions (JunctionFinder.find_junctions lines)).

(** ** white_wall_piece and eor_wall_piece *)

(** Modelled from the spec: [SCRWTH], [VIEWHT] and [SBARHT] are constants
    of GW.h (spec section 6: screen width, view height, status-bar
    height). *)
Record screen := mkscreen {
  SCRWTH : Z;
  VIEWHT : Z;
  SBARHT : Z
}.

Definition LEFT_CLIP : Z := 0x0000FFFF.
Definition RIGHT_CLIP : Z := 0xFFFF0000.
Definition CENTER_CLIP : Z := 0xFFFFFFFF.

(** [~] on a [long]. *)
Definition lnot32 (v : Z) : Z := Z.lxor v 0xFFFFFFFF.

(** What the drawing loop runs with: [x], [y] (with [SBARHT] added), the
    index of the first row of [def] it reads, the number of rows and
    [clip]. *)
Record blit := mkblit {
  bx : Z; by_ : Z;
  brow : Z;
  bheight : Z;
  bclip : Z
}.

(** The vertical clipping both routines start with: [y], the first row and
    [height], or [None] where they return. *)
Definition clip_rows (scr : screen) (y height : Z) : option (Z * Z * Z) :=
  if y <? 0 then
    let height' := height +i y in
    if height' <=? 0 then None else Some (0, 0 -i y, height')
  else if y +i height >? VIEWHT scr then
    if y >=? VIEWHT scr then None else Some (y, 0, VIEWHT scr -i y)
  else Some (y, 0, height).

(** The horizontal clipping, with the three masks of the routine. *)
Definition clip_columns (scr : screen) (left right center : Z) (x : Z) : option Z :=
  if x <? 0 then
    if x <=? -16 then None else Some left
  else if x >=? SCRWTH scr - 16 then
    if x >=? SCRWTH scr then None else Some right
  else Some center.

Definition wall_piece (scr : screen) (left right center : Z) (x y height : Z) : option blit :=
  match clip_rows scr y height with
  | None => None
  | Some (y', row0, height') =>
      match clip_columns scr left right center x with
      | None => None
      | Some clip => Some (mkblit x (y' +i SBARHT scr) row0 height' clip)
      end
  end.

(** [white_wall_piece(x, y, def, height)] up to its assembly loop. *)
Definition white_wall_piece (scr : screen) (x y height : Z) : option blit :=
  wall_piece scr (lnot32 LEFT_CLIP) (lnot32 RIGHT_CLIP) (lnot32 CENTER_CLIP) x y height.

(** [eor_wall_piece(x, y, def, height)] up to its assembly loop. *)
Definition eor_wall_piece (scr : screen) (x y height : Z) : option blit :=
  wall_piece scr LEFT_CLIP RIGHT_CLIP CENTER_CLIP x y height.

(** [rol.l x, D0] for a count from 0 to 32. *)
Definition rol32 (v n : Z) : Z :=
  Z.lor (Z.land (Z.shiftl v n) 0xFFFFFFFF) (Z.shiftr v (32 - n)).

(** [and.w #15, x; neg.w x; add.w #16, x] *)
Definition rotation (x : Z) : Z := 16 - Z.land x 15.

(** One turn of the loop of [white_wall_piece] on the long at [(A0)]:
    [moveq #-1, D0; move.w (def)+, D0; rol.l x, D0; or.l clip, D0;
     and.l D0, (A0)] *)
Definition white_row (b : blit) (pattern dest : Z) : Z :=
  let d0 := Z.lor 0xFFFF0000 (pattern mod 65536) in
  Z.land dest (Z.lor (rol32 d0 (rotation (bx b))) (bclip b)).

(** One turn of the loop of [eor_wall_piece]:
    [moveq #0, D0; move.w (def)+, D0; rol.l x, D0; and.l clip, D0;
     eor.l D0, (A0)] *)
Definition eor_row (b : blit) (pattern dest : Z) : Z :=
  let d0 := pattern mod 65536 in
  Z.lxor dest (Z.land (rol32 d0 (rotation (bx b))) (bclip b)).

(** ** draw_hash *)

(** [draw_hash(x, y)] up to its assembly loop.  [data] is a [char *], so
    [data -= y << 1] moves it by [-(y << 1)] bytes, two for each [int] of
    [hash_figure]; [brow] is the index of the [int] it then points to. *)
Definition draw_hash (scr : screen) (x y : Z) : blit :=
  let '(y', row0, height) :=
    if y <? 0 then (0, (0 - Int.int16 (Z.shiftl y 1)) / 2, 6 +i y)
    else if y >=? VIEWHT scr - 6 then (y, 0, VIEWHT scr -i y)
    else (y, 0, 6) in
  let clip :=
    if x <? 0 then LEFT_CLIP
    else if x >=? SCRWTH scr - 9 then RIGHT_CLIP
    else CENTER_CLIP in
  mkblit x (y' +i SBARHT scr) row0 height clip.

(** The turns of the loop: [subq.w #1, height; blt.s @leave] leaves when
    [height - 1] is negative, [dbra height, @loop] counts the rest down. *)
Definition hash_turns (b : blit) : nat :=
  if bheight b - 1 <? 0 then O else Z.to_nat (bheight b).

(** What one turn ors into the long at [(A0)]:
    [moveq #0, D0; move.w (data)+, D0; rol.l x, D0; and.l clip, D0] *)
Definition hash_bits (b : blit) (pattern : Z) : Z :=
  Z.land (rol32 (pattern mod 65536) (rotation (bx b))) (bclip b).

(** [or.l D0, (A0)] *)
Definition hash_row (b : blit) (pattern dest : Z) : Z :=
  Z.lor dest (hash_bits b pattern).

(** What [draw_hash(x, y)] ors into the longs at [(A0)], [64(A0)], ...,
    one for each turn of its loop. *)
Definition draw_hash_bits (scr : screen) (x y : Z) : list Z :=
  let b := draw_hash scr x y in
  map (fun i => hash_bits b (nth i hash_figure 0))
      (seq (Z.to_nat (brow b)) (hash_turns b)).

(** ** fast_whites and fast_hashes *)

(** [screenx], [screeny], [screenb] and [screenr] are globals that are set
    outside Junctions.c; [fast_whites] and [fast_hashes] only read them. *)
Record view := mkview {
  screenx : Z; screeny : Z;
  screenb : Z; screenr : Z
}.

Section Search.

Context {A : Type} (x : A -> Z) (sentinel : A).

(** [@fast adda.w D3, wh; cmp.w OFFSET(whiterec, x)(wh), left; bgt.s @fast]
    ([@find16] in [fast_hashes]): 16 records at a time while [left] is
    greater than the [x] read.  The result is the index the loop leaves
    with; the arrays end in 18 sentinel records. *)
Fixpoint find16 (fuel : nat) (arr : list A) (left : Z) (i : nat) : nat :=
  let i' := (i + 16)%nat in
  match fuel with
  | O => i'
  | S fuel' =>
      if left >? x (nth i' arr sentinel) then find16 fuel' arr left i' else i'
  end.

(** [@find adda.w D3, wh; @enterf cmp.w OFFSET(whiterec, x)(wh), left;
    bgt.s @find] ([@loop1] / [@enter1] in [fast_hashes]) *)
Fixpoint find (fuel : nat) (arr : list A) (left : Z) (i : nat) : nat :=
  match fuel with
  | O => i
  | S fuel' =>
      if left >? x (nth i arr sentinel) then find fuel' arr left (S i) else i
  end.

(** The two searches in a row, with [suba.w D3, wh] between them. *)
Definition first_visible (arr : list A) (left : Z) : nat :=
  find (S (List.length arr)) arr left
       (find16 (List.length arr) arr left 0 - 16)%nat.

End Search.

(** The calls of [fast_whites]: [white_wall_piece(x, y, def, height)] and
    [eor_wall_piece(x, y, def, height)]. *)
Inductive white_call :=
| call_white_wall_piece (x y : Z) (def : dataptr) (height : Z)
| call_eor_wall_piece (x y : Z) (def : dataptr) (height : Z).

(** The main loop of [fast_whites], from [@enter], with register [wh] at
    slot [wh] and [left] already 15 greater. *)
Fixpoint whites_loop (fuel : nat) (arr : list whiterec) (top left bot right : Z) (wh : nat)
  : list white_call :=
  match fuel with
  | O => []
  | S fuel' =>
      let w := white_at arr wh in
      let next := whites_loop fuel' arr top left bot right (S wh) in
      let d0 := wx w in
      if right <=? d0 then []
      else
        let d1 := wy w in
        if bot <? d1 then next
        else
          let d1 := d1 -i top in
          let d2 := 0 -i ht w in
          if d1 <=? d2 then next
          else
            let d2 := 0 -i d2 in
            let d0 := d0 -i left in
            (if hasj w then call_eor_wall_piece d0 d1 (data w) d2
             else call_white_wall_piece d0 d1 (data w) d2) :: next
  end.

(** One turn of [for (i=0; i<2; i++)] in [fast_whites]. *)
Definition fast_whites_pass (arr : list whiterec) (top left bot right : Z)
  : list white_call :=
  let wh := first_visible wx sentinel_wh arr left in
  whites_loop (S (List.length arr)) arr top (left +i 15) bot right wh.

(** [fast_whites()]: the calls it makes, in order. *)
Definition fast_whites (ext : externs) (v : view) (arr : list whiterec) : list white_call :=
  let top := screeny v in
  let left := screenx v -i 15 in
  let bot := screenb v in
  let right := screenr v in
  fast_whites_pass arr top left bot right ++
  fast_whites_pass arr top (left -i worldwidth ext) bot (right -i worldwidth ext).

(** What [fast_hashes] does for a junction: the call [draw_hash(x, y)] at
    [@jsr_it], or the inline drawing at [@do_quick], where [y] has [SBARHT]
    added. *)
Inductive hash_call :=
| call_draw_hash (x y : Z)
| quick_hash (x y : Z).

(** The main loop of [fast_hashes], from [@enter2], with [left] already 8
    greater.  [blt.s @jsr_it] after [sub.w screeny(A5), D2] branches on the
    sign of the difference before it is cut to 16 bits. *)
Fixpoint hashes_loop (fuel : nat) (scr : screen) (js : list junctionrec)
    (top left bot right screeny : Z) (j : nat) : list hash_call :=
  match fuel with
  | O => []
  | S fuel' =>
      let jn := junction_at js j in
      let next := hashes_loop fuel' scr js top left bot right screeny (S j) in
      if right >? jx jn then
        let d2 := jy jn in
        if d2 <? top then next
        else if d2 >=? bot then next
        else
          let d1 := jx jn -i left in
          let above := d2 - screeny <? 0 in
          let d2 := d2 -i screeny in
          if above then call_draw_hash d1 d2 :: next
          else if d2 >=? VIEWHT scr - 5 then call_draw_hash d1 d2 :: next
          else if d1 <? 0 then call_draw_hash d1 d2 :: next
          else if d1 <? SCRWTH scr - 9 then quick_hash d1 (d2 +i SBARHT scr) :: next
          else call_draw_hash d1 d2 :: next
      else []
  end.

(** One turn of [for (i=0; i<2; i++)] in [fast_hashes]. *)
Definition fast_hashes_pass (scr : screen) (js : list junctionrec)
    (top left bot right screeny : Z) : list hash_call :=
  let j := first_visible jx sentinel_j js left in
  hashes_loop (S (List.length js)) scr js top (left +i 8) bot right screeny j.

(** [fast_hashes()]: what it draws, in order. *)
Definition fast_hashes (scr : screen) (ext : externs) (v : view) (js : list junctionrec)
  : list hash_call :=
  let top := screeny v -i 5 in
  let left := screenx v -i 8 in
  let bot := screenb v in
  let right := screenr v in
  fast_hashes_pass scr js top left bot right (screeny v) ++
  fast_hashes_pass scr js top (left -i worldwidth ext) bot (right -i worldwidth ext)
                   (screeny v).

(** The inline drawing at [@do_quick], after [FIND_WADDRESS(D1, D2)]: what
    it ors into the longs at [(A0)], [64*1(A0)], ..., [64*5(A0)]. *)
Definition do_quick (d1 : Z) : list Z :=
  let d1 := Z.land d1 15 in
  let d0 := Z.shiftr 0x80000000 d1 in
  let line1 := d0 in
  let d1 := d0 in
  let d1 := Z.shiftr d1 1 in
  let d0 := Z.lor d1 d0 in
  let d0 := Z.shiftr d0 1 in
  let line2 := d0 in
  let d0 := Z.shiftr d0 2 in
  let line3 := d0 in
  let d0 := Z.shiftr d0 2 in
  let line4 := d0 in
  let d0 := Z.shiftr d0 2 in
  let line5 := d0 in
  let d1 := d0 in
  let d1 := Z.shiftr d1 2 in
  let d0 := Z.shiftr d0 1 in
  let d0 := Z.land d1 d0 in
  [line1; line2; line3; line4; line5; d0].

(** * Properties *)

(** ** 16-bit arithmetic *)

Lemma int16_small (z : Z) : Int.in_int16 z -> Int.int16 z = z.
Proof.
  unfold Int.in_int16, Int.int16. intros H.
  rewrite Z.mod_small by lia. lia.
Qed.

Lemma add_small (a b : Z) : Int.in_int16 (a + b) -> a +i b = a + b.
Proof. apply int16_small. Qed.

Lemma sub_small (a b : Z) : Int.in_int16 (a - b) -> a -i b = a - b.
Proof. apply int16_small. Qed.

(** Rewrites the 16-bit sums and differences of a goal whose operands are
    bounded in the context. *)
Ltac int16_simpl :=
  repeat first
    [ rewrite add_small by (unfold Int.in_int16; lia)
    | rewrite sub_small by (unfold Int.in_int16; lia) ].

(** ** The junction finder *)

Module JunctionFacts.
Import JunctionFinder.

Lemma near_within3 (p : Z * Z) (j : junctionrec) :
  coord_ok p -> near p j = true <-> within3 p (jpoint j).
Proof.
  unfold coord_ok, near, within3, jpoint. destruct p as [x y]; simpl.
  intros [Hx Hy]. int16_simpl.
  rewrite !andb_true_iff, !Z.leb_le, !Z.geb_le. lia.
Qed.

Lemma near_beyond3 (p : Z * Z) (j : junctionrec) :
  coord_ok p -> near p j = false <-> beyond3 p (jpoint j).
Proof.
  intros Hp. pose proof (near_within3 p j Hp) as H.
  unfold within3, beyond3 in *.
  destruct (near p j); split; intros H0.
  - discriminate.
  - destruct (proj1 H eq_refl). lia.
  - destruct (Z_le_gt_dec (Z.abs (fst p - fst (jpoint j))) 3);
      destruct (Z_le_gt_dec (Z.abs (snd p - snd (jpoint j))) 3);
      first [ lia | assert (false = true) by (apply H; lia); discriminate ].
  - reflexivity.
Qed.

Lemma near_self (p : Z * Z) : coord_ok p -> near p (mkjunction (fst p) (snd p)) = true.
Proof.
  intros Hp. apply near_within3; [assumption|].
  unfold within3, jpoint; simpl. lia.
Qed.

Lemma pass_fold (lines : list linerec) (js : list junctionrec) :
  pass lines js = fold_left add_endpoint (endpoints lines) js.
Proof.
  revert js. unfold endpoints.
  induction lines as [|l rest IH]; intros js; simpl; [reflexivity|].
  destruct (ltype l =? 0); simpl; [reflexivity|]. apply IH.
Qed.

(** A scan that stopped keeps stopping on the same junction when junctions
    are added behind it. *)
Lemma scan_app (js more : list junctionrec) (p : Z * Z) (j : junctionrec) :
  scan js p = Some j -> scan (js ++ more) p = Some j.
Proof.
  unfold scan. induction js as [|a js IH]; simpl; [discriminate|].
  destruct (near p a); [trivial|exact IH].
Qed.

Lemma scan_add_endpoint (js : list junctionrec) (p q : Z * Z) (j : junctionrec) :
  scan js p = Some j -> scan (add_endpoint js q) p = Some j.
Proof.
  intros H. unfold add_endpoint. destruct (scan js q); [assumption|].
  apply scan_app, H.
Qed.

Lemma scan_fold (pts : list (Z * Z)) (js : list junctionrec) (p : Z * Z) (j : junctionrec) :
  scan js p = Some j -> scan (fold_left add_endpoint pts js) p = Some j.
Proof.
  revert js. induction pts as [|q pts IH]; intros js H; simpl; [assumption|].
  apply IH, scan_add_endpoint, H.
Qed.

Lemma scan_some_near (js : list junctionrec) (p : Z * Z) (j : junctionrec) :
  scan js p = Some j -> In j js /\ near p j = true.
Proof. apply find_some. Qed.

(** After its own turn of the loop an end point has a junction. *)
Lemma scan_own (js : list junctionrec) (p : Z * Z) :
  coord_ok p -> exists j, scan (add_endpoint js p) p = Some j.
Proof.
  intros Hp. unfold add_endpoint. destruct (scan js p) as [j|] eqn:E.
  - exists j. exact E.
  - exists (mkjunction (fst p) (snd p)). unfold scan in *.
    induction js as [|a js IH]; simpl in *.
    + rewrite near_self by assumption. reflexivity.
    + destruct (near p a); [discriminate|]. apply IH, E.
Qed.

Lemma fold_clustered (pts : list (Z * Z)) (js : list junctionrec) (p : Z * Z) :
  Forall coord_ok pts -> In p pts ->
  exists j, scan (fold_left add_endpoint pts js) p = Some j.
Proof.
  revert js. induction pts as [|q pts IH]; intros js Hok Hin; [contradiction|].
  inversion Hok as [|? ? Hq Hrest]; subst. simpl.
  destruct Hin as [->|Hin].
  - destruct (scan_own js p Hq) as [j Hj]. exists j. apply scan_fold, Hj.
  - apply IH; assumption.
Qed.

(** Junctions lie apart: the invariant of the loop. *)
Definition apart (js : list junctionrec) : Prop :=
  forall i k a b, (i < k)%nat ->
    nth_error js i = Some a -> nth_error js k = Some b ->
    beyond3 (jpoint a) (jpoint b).

Lemma beyond3_sym (p q : Z * Z) : beyond3 p q -> beyond3 q p.
Proof. unfold beyond3. lia. Qed.

Lemma apart_add_endpoint (js : list junctionrec) (p : Z * Z) :
  coord_ok p -> apart js -> apart (add_endpoint js p).
Proof.
  intros Hp Hjs. unfold add_endpoint. destruct (scan js p) eqn:E; [assumption|].
  intros i k a b Hik Ha Hb.
  assert (k < List.length (js ++ [mkjunction (fst p) (snd p)]))%nat as Hk
    by (apply nth_error_Some; congruence).
  rewrite length_app in Hk; simpl in Hk.
  rewrite nth_error_app1 in Ha by lia.
  destruct (Nat.eq_dec k (List.length js)) as [->|Hne].
  - rewrite nth_error_app2, Nat.sub_diag in Hb by lia. simpl in Hb.
    injection Hb as <-.
    apply beyond3_sym. change (jpoint (mkjunction (fst p) (snd p))) with (fst p, snd p).
    rewrite <- surjective_pairing.
    apply near_beyond3; [assumption|].
    apply nth_error_In in Ha. unfold scan in E.
    exact (find_none _ _ E a Ha).
  - rewrite nth_error_app1 in Hb by lia. exact (Hjs i k a b Hik Ha Hb).
Qed.

Lemma apart_fold (pts : list (Z * Z)) (js : list junctionrec) :
  Forall coord_ok pts -> apart js -> apart (fold_left add_endpoint pts js).
Proof.
  revert js. induction pts as [|q pts IH]; intros js Hok Hjs; simpl; [assumption|].
  inversion Hok; subst. apply IH; [assumption|]. apply apart_add_endpoint; assumption.
Qed.

Lemma apart_nil : apart [].
Proof. intros i k a b _ Ha. destruct i; discriminate. Qed.

(** Every junction is the end point that founded it. *)
Lemma fold_junction_is_point (pts : list (Z * Z)) (js : list junctionrec) (j : junctionrec) :
  In j (fold_left add_endpoint pts js) -> In j js \/ In (jpoint j) pts.
Proof.
  revert js. induction pts as [|q pts IH]; intros js H; simpl in *; [left; exact H|].
  apply IH in H. destruct H as [H|H]; [|right; right; exact H].
  unfold add_endpoint in H. destruct (scan js q); [left; exact H|].
  apply in_app_or in H. destruct H as [H|[<-|[]]]; [left; exact H|].
  right; left. unfold jpoint; simpl. destruct q; reflexivity.
Qed.

End JunctionFacts.

(** A wall record; [h1] and [h2] are set by [close_whites]. *)
Definition wall (sx sy ex ey len dir : Z) : linerec := mkline 1 sx sy ex ey len dir 0 0.

(** The record that ends the [lines] array. *)
Definition end_of_lines : linerec := mkline 0 10000 0 10000 0 0 0 0 0.

(** Three walls on one vertical: the second lies across the start of the
    first, the third starts 6 pixels below that start. *)
Definition junction_example : list linerec :=
  [ wall 100 50 100 80 30 NEW_S;
    wall 100 47 100 53 6 NEW_S;
    wall 100 56 100 90 34 NEW_S;
    end_of_lines ].

(** C1, as the specification states it, fails on [junction_example]: the
    end points (100,53) and (100,56) are 3 pixels apart, yet the first
    joined the junction (100,50) and the second founded its own. *)
Lemma junction_clusters_counterexample :
  ~ JunctionFinder.clusters_by_distance junction_example.
Proof.
  intros H.
  destruct (H (100, 53) (100, 56)) as [Hnear _].
  - vm_compute. tauto.
  - vm_compute. tauto.
  - assert (JunctionFinder.within3 (100, 53) (100, 56)) as W
      by (unfold JunctionFinder.within3; simpl; lia).
    specialize (Hnear W). vm_compute in Hnear. discriminate.
Qed.

(** On the same walls the other half fails as well: (100,47) and (100,53)
    are 6 pixels apart and belong to the one junction (100,50). *)
Lemma junction_example_far_pair_shares_cluster :
  JunctionFinder.beyond3 (100, 47) (100, 53) /\
  JunctionFinder.cluster_of (JunctionFinder.find_junctions junction_example) (100, 47) =
  JunctionFinder.cluster_of (JunctionFinder.find_junctions junction_example) (100, 53).
Proof.
  split; [right; simpl; lia | vm_compute; reflexivity].
Qed.

(** C1 (amended): after the junction-finding pass every wall end point has
    a junction, the first one in insertion order that lies within 3 pixels
    of it on both axes, so that two end points of one cluster differ by at
    most 6 pixels on each axis; and any two junctions differ by more than 3
    pixels on at least one axis. *)
Theorem junction_clusters (lines : list linerec) :
  Forall JunctionFinder.coord_ok (endpoints lines) ->
  let js := JunctionFinder.find_junctions lines in
  (forall p, In p (endpoints lines) ->
     exists j, JunctionFinder.cluster_of js p = Some j /\ In j js /\
               JunctionFinder.within3 p (JunctionFinder.jpoint j)) /\
  (forall p q, In p (endpoints lines) -> In q (endpoints lines) ->
     JunctionFinder.cluster_of js p = JunctionFinder.cluster_of js q ->
     Z.abs (fst p - fst q) <= 6 /\ Z.abs (snd p - snd q) <= 6) /\
  (forall i k a b, i <> k -> nth_error js i = Some a -> nth_error js k = Some b ->
     JunctionFinder.beyond3 (JunctionFinder.jpoint a) (JunctionFinder.jpoint b)).
Proof.
  intros Hok js.
  assert (forall p, In p (endpoints lines) ->
     exists j, JunctionFinder.cluster_of js p = Some j /\ In j js /\
               JunctionFinder.within3 p (JunctionFinder.jpoint j)) as Hcl.
  { intros p Hp. subst js. unfold JunctionFinder.find_junctions.
    rewrite JunctionFacts.pass_fold.
    destruct (JunctionFacts.fold_clustered _ [] p Hok Hp) as [j Hj].
    exists j. split; [exact Hj|].
    destruct (JunctionFacts.scan_some_near _ _ _ Hj) as [Hin Hnear].
    split; [exact Hin|].
    apply JunctionFacts.near_within3; [|exact Hnear].
    rewrite Forall_forall in Hok. apply Hok, Hp. }
  split; [exact Hcl|]. split.
  - intros p q Hp Hq E.
    destruct (Hcl p Hp) as [j [Hj [_ Wp]]]. destruct (Hcl q Hq) as [j' [Hj' [_ Wq]]].
    assert (j = j') by congruence. subst j'.
    unfold JunctionFinder.within3, JunctionFinder.jpoint in *. simpl in *. lia.
  - assert (JunctionFacts.apart js) as Hap.
    { subst js. unfold JunctionFinder.find_junctions. rewrite JunctionFacts.pass_fold.
      apply JunctionFacts.apart_fold; [exact Hok|apply JunctionFacts.apart_nil]. }
    intros i k a b Hne Ha Hb.
    destruct (Nat.lt_total i k) as [Hlt|[Heq|Hgt]].
    + exact (Hap i k a b Hlt Ha Hb).
    + contradiction.
    + apply JunctionFacts.beyond3_sym. exact (Hap k i b a Hgt Hb Ha).
Qed.

Lemma junction_clusters_witness :
  Forall JunctionFinder.coord_ok (endpoints junction_example) /\
  exists j,
    JunctionFinder.cluster_of (JunctionFinder.find_junctions junction_example) (100, 53)
    = Some j /\
    In j (JunctionFinder.find_junctions junction_example) /\
    JunctionFinder.within3 (100, 53) (JunctionFinder.jpoint j).
Proof.
  assert (Forall JunctionFinder.coord_ok (endpoints junction_example)) as Hok.
  { unfold JunctionFinder.coord_ok. repeat constructor; simpl; lia. }
  split; [exact Hok|].
  apply (proj1 (junction_clusters junction_example Hok) (100, 53)).
  simpl. tauto.
Defined.

(** ** replace_white_2 and add_white_2 *)

(** A recorded piece [replace_white_2] stops on: it has the target
    coordinates and a height below the new one. *)
Definition replaceable (targetx targety h : Z) (wh : whiterec) : Prop :=
  wx wh = targetx /\ wy wh = targety /\ ht wh < h.

Lemma replaceable_test (targetx targety h : Z) (wh : whiterec) :
  negb (wy wh =? targety) || negb (wx wh =? targetx) || (ht wh >=? h) = false
  <-> replaceable targetx targety h wh.
Proof.
  unfold replaceable.
  rewrite !orb_false_iff, !negb_false_iff, !Z.eqb_eq, Z.geb_leb, Z.leb_gt. tauto.
Qed.

(** C3 as the specification states it: replace where a smaller piece is
    recorded at the target, append otherwise. *)
Definition replace_or_append (ws : list whiterec) (targetx targety x y h : Z) (d : dataptr)
  : Prop :=
  ((exists wh, In wh ws /\ replaceable targetx targety h wh) ->
   exists front wh back,
     ws = front ++ wh :: back /\ replaceable targetx targety h wh /\
     replace_white_2 ws targetx targety x y h d
     = front ++ mkwhite x y (hasj wh) h d :: back) /\
  ((forall wh, In wh ws -> ~ replaceable targetx targety h wh) ->
   replace_white_2 ws targetx targety x y h d = ws ++ [mkwhite x y false h d]).

(** C3 fails where no piece is recorded at the target, here at (100,44)
    with only the end piece of a wall at (100,50) present: the call
    returns, and the list is what it was. *)
Lemma replace_white_2_counterexample :
  ~ replace_or_append [mkwhite 100 50 false 6 (Static sbot)]
      100 44 100 29 21 (Static npatch).
Proof.
  intros [_ H].
  assert (forall wh, In wh [mkwhite 100 50 false 6 (Static sbot)] ->
                     ~ replaceable 100 44 21 wh) as Hno.
  { intros wh [<-|[]] [_ [Hy _]]. simpl in Hy. discriminate. }
  specialize (H Hno). simpl in H. discriminate.
Qed.

Lemma replace_white_2_none (ws : list whiterec) (targetx targety x y h : Z) (d : dataptr) :
  (forall wh, In wh ws -> ~ replaceable targetx targety h wh) ->
  replace_white_2 ws targetx targety x y h d = ws.
Proof.
  induction ws as [|wh rest IH]; intros Hno; simpl; [reflexivity|].
  destruct (negb (wy wh =? targety) || negb (wx wh =? targetx) || (ht wh >=? h)) eqn:E.
  - rewrite IH; [reflexivity|]. intros w Hw. apply Hno. right. exact Hw.
  - apply replaceable_test in E. exfalso. apply (Hno wh); [left; reflexivity|exact E].
Qed.

Lemma replace_white_2_some (ws : list whiterec) (targetx targety x y h : Z) (d : dataptr) :
  (exists wh, In wh ws /\ replaceable targetx targety h wh) ->
  exists front wh back,
    ws = front ++ wh :: back /\
    (forall w, In w front -> ~ replaceable targetx targety h w) /\
    replaceable targetx targety h wh /\
    replace_white_2 ws targetx targety x y h d = front ++ mkwhite x y (hasj wh) h d :: back.
Proof.
  induction ws as [|a rest IH]; intros [w [Hin Hw]]; [contradiction|].
  simpl. destruct (negb (wy a =? targety) || negb (wx a =? targetx) || (ht a >=? h)) eqn:E.
  - destruct Hin as [->|Hin].
    + apply replaceable_test in Hw. congruence.
    + destruct IH as [front [wh [back [E1 [Hfront [Hwh E2]]]]]]; [exists w; tauto|].
      exists (a :: front), wh, back. simpl. rewrite <- E1, E2.
      split; [reflexivity|]. split; [|split; [exact Hwh|reflexivity]].
      intros w0 [<-|Hw0]; [|apply Hfront, Hw0].
      intros Ha. apply replaceable_test in Ha. congruence.
  - apply replaceable_test in E.
    exists [], a, rest. simpl. repeat split; try apply E. intros w0 [].
Qed.

(** C3 (amended): [replace_white_2] replaces in place the first recorded
    piece that has the target coordinates and a smaller height, by the new
    piece at its own coordinates; where there is none it leaves the list as
    it is.  Appending is what the other entry point, [add_white_2], does. *)
Theorem replace_white_2_replaces_or_returns
  (ws : list whiterec) (targetx targety x y h : Z) (d : dataptr) :
  ((exists wh, In wh ws /\ replaceable targetx targety h wh) ->
   exists front wh back,
     ws = front ++ wh :: back /\
     (forall w, In w front -> ~ replaceable targetx targety h w) /\
     replaceable targetx targety h wh /\
     replace_white_2 ws targetx targety x y h d
     = front ++ mkwhite x y (hasj wh) h d :: back) /\
  ((forall wh, In wh ws -> ~ replaceable targetx targety h wh) ->
   replace_white_2 ws targetx targety x y h d = ws) /\
  add_white_2 ws targetx targety x y h d = ws ++ [mkwhite x y false h d].
Proof.
  split; [apply replace_white_2_some|]. split; [apply replace_white_2_none|reflexivity].
Qed.

(** ** one_close: a South wall and a Southeast wall *)

Definition set_h2 (line : linerec) (v : Z) : linerec :=
  mkline (ltype line) (startx line) (starty line) (endx line) (endy line)
    (length line) (newtype line) (h1 line) v.

(** C2 as the specification states it, for the call [one_close] gets with
    the end [n] of the South wall [line] and the end [m] of the Southeast
    wall [line2]. *)
Definition south_southeast_patch (ws : list whiterec) (line line2 : linerec) (n m : bool)
  : Prop :=
  newtype line = NEW_S -> newtype line2 = NEW_SE ->
  endpoint line n = endpoint line2 m ->
  one_close ws line line2 n m
  = (ws ++ [mkwhite (endx line) (endy line - 6) false 6 (Static npatch)],
     set_h2 line (length line - 6)).

(** A South wall and a Southeast wall that start at (100,50), with the
    bounds [close_whites] gives them first. *)
Definition south_from_100_50 : linerec := default_h (wall 100 50 100 80 30 NEW_S).
Definition southeast_from_100_50 : linerec := default_h (wall 100 50 130 80 30 NEW_SE).

(** C2 fails where the two walls share their start: the South wall is
    then seen in direction 8, for which [one_close] has no rule; no piece is
    added and [h2] stays at [length]. *)
Lemma south_southeast_counterexample :
  ~ south_southeast_patch [] south_from_100_50 southeast_from_100_50 false false.
Proof.
  intros H. specialize (H eq_refl eq_refl eq_refl).
  vm_compute in H. discriminate.
Qed.

Lemma direction_south_end (line : linerec) :
  newtype line = NEW_S -> direction line true = 0.
Proof. unfold direction. intros ->. reflexivity. Qed.

Lemma direction_southeast_end (line : linerec) :
  newtype line = NEW_SE -> direction line true = 14.
Proof. unfold direction. intros ->. reflexivity. Qed.

(** C2 (amended): where the South wall and the Southeast wall meet with
    their end points and the South wall's [h2] is not below [length] (it is
    [length] by default), [one_close] appends a piece of 6 rows of [npatch]
    6 pixels above the South wall's end point and sets [h2] to
    [length - 6]. *)
Theorem south_southeast_ends (ws : list whiterec) (line line2 : linerec) :
  newtype line = NEW_S -> newtype line2 = NEW_SE ->
  length line <= h2 line ->
  Int.in_int16 (length line - 6) -> Int.in_int16 (endy line - 6) ->
  one_close ws line line2 true true
  = (ws ++ [mkwhite (endx line) (endy line - 6) false 6 (Static npatch)],
     set_h2 line (length line - 6)).
Proof.
  intros HS HSE Hh2 Hlen Hy. unfold one_close.
  rewrite (direction_south_end line HS), (direction_southeast_end line2 HSE).
  simpl. rewrite !sub_small by assumption.
  destruct (length line - 6 >? h2 line) eqn:E1; [apply Z.gtb_lt in E1; lia|].
  destruct (h2 line <? length line) eqn:E2; [apply Z.ltb_lt in E2; lia|].
  reflexivity.
Qed.

(** A South wall and a Southeast wall that end at (100,50). *)
Definition south_to_100_50 : linerec := default_h (wall 100 20 100 50 30 NEW_S).
Definition southeast_to_100_50 : linerec := default_h (wall 70 20 100 50 30 NEW_SE).

Lemma south_southeast_ends_witness :
  one_close [] south_to_100_50 southeast_to_100_50 true true
  = ([mkwhite 100 44 false 6 (Static npatch)], set_h2 south_to_100_50 24).
Proof.
  apply (south_southeast_ends [] south_to_100_50 southeast_to_100_50);
    try reflexivity; unfold Int.in_int16; simpl; lia.
Defined.

(** [close_whites] does make that call: on a level of these two walls the
    South wall ends up with [h2 = 24] and the pieces hold the patch at
    (100,44). *)
Lemma south_southeast_prepared :
  let st := patched_whites [southeast_to_100_50; south_to_100_50; end_of_lines] in
  nth_error (clines st) 1 = Some (set_h2 south_to_100_50 24) /\
  In (mkwhite 100 44 false 6 (Static npatch)) (cwhites st).
Proof.
  vm_compute. split; [reflexivity|]. do 4 right. left. reflexivity.
Qed.

(** The pair the comments of [one_close] call "South meets SE" is that of
    directions 0 and 2, the end of a South wall and the start of a
    Northeast wall; its patch has 10 rows. *)
Lemma south_end_northeast_start (ws : list whiterec) (line line2 : linerec) :
  newtype line = NEW_S -> newtype line2 = NEW_NE ->
  length line <= h2 line ->
  Int.in_int16 (length line - 10) -> Int.in_int16 (endy line - 10) ->
  one_close ws line line2 true false
  = (ws ++ [mkwhite (endx line) (endy line - 10) false 10 (Static npatch)],
     set_h2 line (length line - 10)).
Proof.
  intros HS HNE Hh2 Hlen Hy. unfold one_close.
  rewrite (direction_south_end line HS).
  assert (direction line2 false = 2) as -> by (unfold direction; rewrite HNE; reflexivity).
  simpl. rewrite !sub_small by assumption.
  destruct (length line - 10 >? h2 line) eqn:E1; [apply Z.gtb_lt in E1; lia|].
  destruct (h2 line <? length line) eqn:E2; [apply Z.ltb_lt in E2; lia|].
  reflexivity.
Qed.

(** ** Arrays: writes and the splice loop *)

Section Arrays.
Context {A : Type}.

Lemma store_at_length (k : nat) (v : A) (arr : list A) :
  List.length (store_at k v arr) = List.length arr.
Proof.
  revert k. induction arr as [|a rest IH]; intros [|k]; simpl; auto.
Qed.

Lemma nth_store_at_eq (k : nat) (v d : A) (arr : list A) :
  (k < List.length arr)%nat -> nth k (store_at k v arr) d = v.
Proof.
  revert k. induction arr as [|a rest IH]; intros [|k] H; simpl in *; try lia; auto.
  apply IH. lia.
Qed.

Lemma nth_store_at_ne (i k : nat) (v d : A) (arr : list A) :
  i <> k -> nth i (store_at k v arr) d = nth i arr d.
Proof.
  revert i k. induction arr as [|a rest IH]; intros [|i] [|k] H; simpl; auto; try lia.
Qed.

Lemma nth_error_store_at_ne (i k : nat) (v : A) (arr : list A) :
  i <> k -> nth_error (store_at k v arr) i = nth_error arr i.
Proof.
  revert i k. induction arr as [|a rest IH]; intros [|i] [|k] H; simpl; auto; try lia.
Qed.

Lemma firstn_store_at (p k : nat) (v : A) (arr : list A) :
  (p <= k)%nat -> firstn p (store_at k v arr) = firstn p arr.
Proof.
  revert p k. induction arr as [|a rest IH]; intros [|p] [|k] H; simpl; auto; try lia.
  f_equal. apply IH. lia.
Qed.

Lemma skipn_store_at (p k : nat) (v : A) (arr : list A) :
  (k < p)%nat -> skipn p (store_at k v arr) = skipn p arr.
Proof.
  revert p k. induction arr as [|a rest IH]; intros [|p] [|k] H; simpl; auto; try lia.
  apply IH. lia.
Qed.

Variable x : A -> Z.
Variable dflt : A.
Hypothesis dflt_sentinel : 20000 <= x dflt.

(** The number of slots in front of the first sentinel. *)
Fixpoint lead (arr : list A) : nat :=
  match arr with
  | [] => O
  | a :: rest => if x a <? 20000 then S (lead rest) else O
  end.

Lemma lead_le_length (arr : list A) : (lead arr <= List.length arr)%nat.
Proof.
  induction arr as [|a rest IH]; simpl; [lia|]. destruct (x a <? 20000); lia.
Qed.

Lemma shift_down_length (arr : list A) :
  List.length (shift_down x dflt arr) = List.length arr.
Proof.
  induction arr as [|a rest IH]; simpl; [reflexivity|].
  destruct (x a <? 20000); simpl; [rewrite IH|]; reflexivity.
Qed.

(** One run of the splice loop takes one slot from in front of the
    sentinel. *)
Lemma lead_shift_down (arr : list A) :
  lead (shift_down x dflt arr) = pred (lead arr).
Proof.
  induction arr as [|a rest IH]; simpl; [reflexivity|].
  destruct (x a <? 20000) eqn:Ea; simpl; [|rewrite Ea; reflexivity].
  destruct rest as [|b rest']; simpl.
  - destruct (x dflt <? 20000) eqn:Ed; [apply Z.ltb_lt in Ed; lia|reflexivity].
  - simpl in IH. destruct (x b <? 20000) eqn:Eb; [|reflexivity].
    rewrite IH. simpl. reflexivity.
Qed.

Lemma splice_length (p : nat) (arr : list A) :
  List.length (splice x dflt p arr) = List.length arr.
Proof.
  unfold splice. rewrite length_app, shift_down_length, <- length_app, firstn_skipn.
  reflexivity.
Qed.

Lemma firstn_splice (p q : nat) (arr : list A) :
  (q <= p)%nat -> (p <= List.length arr)%nat ->
  firstn q (splice x dflt p arr) = firstn q arr.
Proof.
  intros Hq Hp. unfold splice.
  rewrite firstn_app, length_firstn, Nat.min_l by lia.
  replace (q - p)%nat with O by lia. simpl. rewrite app_nil_r.
  rewrite firstn_firstn, Nat.min_l by lia. reflexivity.
Qed.

Lemma skipn_splice (p : nat) (arr : list A) :
  (p <= List.length arr)%nat ->
  skipn p (splice x dflt p arr) = shift_down x dflt (skipn p arr).
Proof.
  intros Hp. unfold splice.
  rewrite skipn_app, length_firstn, Nat.min_l, Nat.sub_diag by lia.
  rewrite skipn_all2 by (rewrite length_firstn; lia). reflexivity.
Qed.

Lemma nth_splice_lt (i p : nat) (d : A) (arr : list A) :
  (i < p)%nat -> (p <= List.length arr)%nat ->
  nth i (splice x dflt p arr) d = nth i arr d.
Proof.
  intros Hi Hp. unfold splice.
  rewrite app_nth1 by (rewrite length_firstn; lia).
  rewrite <- (firstn_skipn p arr) at 2.
  rewrite app_nth1 by (rewrite length_firstn; lia). reflexivity.
Qed.

End Arrays.

(** ** The merge loop of init_whites *)

Lemma sentinel_wh_x : 20000 <= wx sentinel_wh.
Proof. simpl. lia. Qed.

(** Only slots of the array are merged: the sentinel has no height 6. *)
Lemma mergeable_in_array (arr : list whiterec) (k : nat) :
  mergeable (white_at arr k) (white_at arr (S k)) = true ->
  (S k < List.length arr)%nat.
Proof.
  unfold mergeable, white_at. intros H.
  rewrite !andb_true_iff, !Z.eqb_eq in H. destruct H as [[[_ _] _] Hn].
  destruct (Nat.lt_ge_cases (S k) (List.length arr)) as [Hlt|Hge]; [exact Hlt|].
  rewrite (nth_overflow arr sentinel_wh Hge) in Hn. simpl in Hn. discriminate.
Qed.

(** [x], [y] and [ht] of a piece decide whether it is merged. *)
Definition same_place (a b : whiterec) : Prop :=
  wx a = wx b /\ wy a = wy b /\ ht a = ht b.

Lemma same_place_refl (a : whiterec) : same_place a a.
Proof. unfold same_place. auto. Qed.

Lemma same_place_trans (a b c : whiterec) :
  same_place a b -> same_place b c -> same_place a c.
Proof. unfold same_place. intuition congruence. Qed.

Lemma mergeable_same_place (a a' b b' : whiterec) :
  same_place a a' -> same_place b b' -> mergeable a b = mergeable a' b'.
Proof.
  unfold same_place, mergeable. intros [-> [-> ->]] [-> [-> ->]]. reflexivity.
Qed.

Lemma merge_at_length (k : nat) (st : mstate) :
  List.length (marr (merge_at k st)) = List.length (marr st).
Proof. unfold merge_at; cbn [marr mstore mnum]. rewrite splice_length, store_at_length. reflexivity. Qed.

Lemma merge_at_slot (k : nat) (st : mstate) :
  (S k < List.length (marr st))%nat ->
  white_at (marr (merge_at k st)) k
  = set_data (white_at (marr st) k) (Storage (List.length (mstore st))).
Proof.
  intros Hk. unfold merge_at, white_at; cbn [marr mstore mnum].
  rewrite nth_splice_lt by (rewrite ?store_at_length; lia).
  apply nth_store_at_eq. lia.
Qed.

Lemma merge_at_front (k : nat) (st : mstate) :
  (S k < List.length (marr st))%nat ->
  firstn k (marr (merge_at k st)) = firstn k (marr st).
Proof.
  intros Hk. unfold merge_at; cbn [marr mstore mnum].
  rewrite firstn_splice by (rewrite ?store_at_length; lia).
  apply firstn_store_at. lia.
Qed.

Lemma merge_at_tail (k : nat) (st : mstate) :
  (S k < List.length (marr st))%nat ->
  skipn (S k) (marr (merge_at k st))
  = shift_down wx sentinel_wh (skipn (S k) (marr st)).
Proof.
  intros Hk. unfold merge_at; cbn [marr mstore mnum].
  rewrite skipn_splice by (rewrite store_at_length; lia).
  rewrite skipn_store_at by lia. reflexivity.
Qed.

(** The rows of a fresh block are those written to it. *)
Lemma row_fresh (store rows : list Z) (i : nat) :
  row (store ++ rows) (Storage (List.length store)) i = nth i rows 0.
Proof.
  unfold row. rewrite app_nth2 by lia. f_equal. lia.
Qed.

Lemma nth_merged_rows (store : list Z) (a b : dataptr) (i : nat) :
  (i < 6)%nat ->
  nth i (merged_rows store a b) 0 = Z.land (row store a i) (row store b i).
Proof.
  intros Hi. unfold merged_rows.
  do 6 (destruct i as [|i]; [reflexivity|]). lia.
Qed.

(** C6: when the merge loop combines the pieces of slots [k] and [k+1],
    row [i] of the piece it leaves in slot [k] is [a[i] & b[i]] for each of
    the 6 rows, so every bit set in a merged row is set in that row of both
    pieces. *)
Theorem merged_rows_are_and (st : mstate) (k i : nat) :
  mergeable (white_at (marr st) k) (white_at (marr st) (S k)) = true ->
  (i < 6)%nat ->
  let a := row (mstore st) (data (white_at (marr st) k)) i in
  let b := row (mstore st) (data (white_at (marr st) (S k))) i in
  let st' := merge_at k st in
  let merged := row (mstore st') (data (white_at (marr st') k)) i in
  merged = Z.land a b /\
  (forall n, Z.testbit merged n = true -> Z.testbit a n = true /\ Z.testbit b n = true).
Proof.
  intros Hm Hi a b st' merged.
  assert (merged = Z.land a b) as E.
  { subst merged st'. rewrite merge_at_slot by (apply mergeable_in_array, Hm).
    unfold merge_at; cbn [marr mstore mnum set_data data].
    rewrite row_fresh. apply nth_merged_rows, Hi. }
  split; [exact E|].
  intros n Hn. rewrite E, Z.land_spec in Hn. apply andb_true_iff in Hn. exact Hn.
Qed.

Definition two_sbot_at_100_50 : mstate :=
  mkmstate [mkwhite 100 50 false 6 (Static sbot); mkwhite 100 50 false 6 (Static sebot)] 2 [].

Lemma merged_rows_are_and_witness :
  row (mstore (merge_at 0 two_sbot_at_100_50))
      (data (white_at (marr (merge_at 0 two_sbot_at_100_50)) 0)) 0
  = Z.land (nth 0 sbot 0) (nth 0 sebot 0).
Proof.
  apply (merged_rows_are_and two_sbot_at_100_50 0 0); [reflexivity|lia].
Defined.

Lemma merge_while_length (fuel k : nat) (st : mstate) :
  List.length (marr (merge_while fuel k st)) = List.length (marr st).
Proof.
  revert st. induction fuel as [|f IH]; intros st; simpl; [reflexivity|].
  destruct (mergeable _ _); [|reflexivity]. rewrite IH. apply merge_at_length.
Qed.

Lemma merge_while_front (fuel k : nat) (st : mstate) :
  firstn k (marr (merge_while fuel k st)) = firstn k (marr st).
Proof.
  revert st. induction fuel as [|f IH]; intros st; simpl; [reflexivity|].
  destruct (mergeable _ _) eqn:E; [|reflexivity].
  rewrite IH. apply merge_at_front, mergeable_in_array, E.
Qed.

Lemma merge_while_slot (fuel k : nat) (st : mstate) :
  same_place (white_at (marr (merge_while fuel k st)) k) (white_at (marr st) k).
Proof.
  revert st. induction fuel as [|f IH]; intros st; simpl; [apply same_place_refl|].
  destruct (mergeable _ _) eqn:E; [|apply same_place_refl].
  eapply same_place_trans; [apply IH|].
  rewrite merge_at_slot by (apply mergeable_in_array, E).
  unfold same_place; simpl. auto.
Qed.

Lemma white_at_skipn (arr : list whiterec) (k : nat) :
  white_at arr k = nth 0 (skipn k arr) sentinel_wh.
Proof.
  unfold white_at. revert k. induction arr as [|a rest IH]; intros [|k]; simpl; auto.
Qed.

(** The fuel of the [while] suffices: it ends with its test false. *)
Lemma merge_while_done_lead (fuel k : nat) (st : mstate) :
  wx (white_at (marr st) k) < 20000 ->
  (lead wx (skipn (S k) (marr st)) <= fuel)%nat ->
  let arr := marr (merge_while fuel k st) in
  mergeable (white_at arr k) (white_at arr (S k)) = false.
Proof.
  revert st. induction fuel as [|f IH]; intros st Hx Hlead; simpl.
  - destruct (mergeable _ _) eqn:E; [|reflexivity]. exfalso.
    unfold mergeable in E. rewrite !andb_true_iff, !Z.eqb_eq in E.
    destruct E as [[[Ex _] _] _].
    rewrite (white_at_skipn _ (S k)) in Ex.
    destruct (skipn (S k) (marr st)) as [|n rest]; simpl in *.
    + lia.
    + destruct (wx n <? 20000) eqn:En; [lia|]. apply Z.ltb_ge in En. lia.
  - destruct (mergeable (white_at (marr st) k) (white_at (marr st) (S k))) eqn:E;
      [|exact E].
    pose proof (mergeable_in_array _ _ E) as Hk.
    apply IH.
    + rewrite merge_at_slot by exact Hk. simpl. exact Hx.
    + rewrite merge_at_tail by exact Hk.
      rewrite (lead_shift_down wx sentinel_wh sentinel_wh_x). lia.
Qed.

Lemma merge_while_done (k : nat) (st : mstate) :
  wx (white_at (marr st) k) < 20000 ->
  let arr := marr (merge_while (List.length (marr st)) k st) in
  mergeable (white_at arr k) (white_at arr (S k)) = false.
Proof.
  intros Hx. apply merge_while_done_lead; [exact Hx|].
  etransitivity; [apply lead_le_length|]. rewrite length_skipn. lia.
Qed.

Lemma firstn_le {A : Type} (p q : nat) (a b : list A) :
  (p <= q)%nat -> firstn q a = firstn q b -> firstn p a = firstn p b.
Proof.
  intros Hpq H. rewrite <- (Nat.min_l p q Hpq), <- !firstn_firstn, H. reflexivity.
Qed.

Lemma merge_for_front (fuel k : nat) (st : mstate) :
  firstn k (marr (merge_for fuel k st)) = firstn k (marr st).
Proof.
  revert k st. induction fuel as [|f IH]; intros k st; simpl; [reflexivity|].
  destruct (_ <? 20000); [|reflexivity].
  rewrite <- (merge_while_front (List.length (marr st)) k st).
  apply (firstn_le k (S k)); [lia|]. apply IH.
Qed.

Lemma firstn_white_at (p i : nat) (a b : list whiterec) :
  (i < p)%nat -> firstn p a = firstn p b -> white_at a i = white_at b i.
Proof.
  intros Hi H. unfold white_at.
  assert (forall l : list whiterec, nth i l sentinel_wh = nth i (firstn p l) sentinel_wh) as E.
  { clear H. intros l. revert i p Hi. induction l as [|w rest IH]; intros i p Hi.
    - rewrite firstn_nil. reflexivity.
    - destruct p as [|p]; [lia|]. destruct i as [|i]; simpl; [reflexivity|].
      apply IH. lia. }
  rewrite (E a), (E b), H. reflexivity.
Qed.

Lemma merge_for_slot (fuel k : nat) (st : mstate) :
  same_place (white_at (marr (merge_for fuel k st)) k) (white_at (marr st) k).
Proof.
  destruct fuel as [|f]; simpl; [apply same_place_refl|].
  destruct (_ <? 20000); [|apply same_place_refl].
  rewrite (firstn_white_at (S k) k _ _ (Nat.lt_succ_diag_r k)
             (merge_for_front f (S k) _)).
  apply merge_while_slot.
Qed.

(** No piece in front of the sentinel, from slot [k] on, can be merged with
    the next slot. *)
Definition merged_from (arr : list whiterec) (k : nat) : Prop :=
  forall i, (k <= i)%nat ->
    (forall t, (k <= t <= i)%nat -> wx (white_at arr t) < 20000) ->
    mergeable (white_at arr i) (white_at arr (S i)) = false.

Lemma merge_for_merged (fuel k : nat) (st : mstate) :
  (List.length (marr st) - k <= fuel)%nat ->
  merged_from (marr (merge_for fuel k st)) k.
Proof.
  revert k st. induction fuel as [|f IH]; intros k st Hfuel; simpl.
  - intros i Hi Hlive. exfalso.
    specialize (Hlive k ltac:(lia)). unfold white_at in Hlive.
    rewrite nth_overflow in Hlive by lia. simpl in Hlive. lia.
  - destruct (wx (white_at (marr st) k) <? 20000) eqn:Ex.
    + apply Z.ltb_lt in Ex.
      set (st1 := merge_while (List.length (marr st)) k st).
      assert (merged_from (marr (merge_for f (S k) st1)) (S k)) as IH1.
      { apply IH. subst st1. rewrite merge_while_length. lia. }
      intros i Hi Hlive.
      destruct (Nat.eq_dec i k) as [->|Hne].
      * rewrite (firstn_white_at (S k) k _ _ (Nat.lt_succ_diag_r k)
                   (merge_for_front f (S k) st1)).
        rewrite (mergeable_same_place _ (white_at (marr st1) k) _ (white_at (marr st1) (S k))
                   (same_place_refl _) (merge_for_slot f (S k) st1)).
        subst st1. apply merge_while_done, Ex.
      * apply IH1; [lia|]. intros t Ht. apply Hlive. lia.
    + apply Z.ltb_ge in Ex. intros i Hi Hlive.
      specialize (Hlive k ltac:(lia)). lia.
Qed.

Lemma merge_for_fixed (fuel k : nat) (st : mstate) :
  merged_from (marr st) k -> merge_for fuel k st = st.
Proof.
  revert k. induction fuel as [|f IH]; intros k Hm; simpl; [reflexivity|].
  destruct (wx (white_at (marr st) k) <? 20000) eqn:Ex; [|reflexivity].
  apply Z.ltb_lt in Ex.
  assert (merge_while (List.length (marr st)) k st = st) as ->.
  { destruct (List.length (marr st)); simpl; [reflexivity|].
    rewrite (Hm k (Nat.le_refl k)); [reflexivity|].
    intros t Ht. replace t with k by lia. exact Ex. }
  apply IH. intros i Hi Hlive. apply Hm; [lia|].
  intros t Ht. destruct (Nat.eq_dec t k) as [->|Hne]; [exact Ex|]. apply Hlive. lia.
Qed.

(** C7: the merge pass of [init_whites] is idempotent.  On every piece
    array, sorted or not, a second pass over the result of the first changes
    nothing: no slot and not [numwhites].  The result of the pass has no two
    consecutive pieces in front of the sentinel with the same [(x, y)] and
    both of height 6. *)
Theorem merge_pass_idempotent (st : mstate) :
  merge_pass (merge_pass st) = merge_pass st /\
  mnum (merge_pass (merge_pass st)) = mnum (merge_pass st) /\
  forall i,
    (forall t, (t <= i)%nat -> wx (white_at (marr (merge_pass st)) t) < 20000) ->
    ~ (wx (white_at (marr (merge_pass st)) i) = wx (white_at (marr (merge_pass st)) (S i)) /\
       wy (white_at (marr (merge_pass st)) i) = wy (white_at (marr (merge_pass st)) (S i)) /\
       ht (white_at (marr (merge_pass st)) i) = 6 /\
       ht (white_at (marr (merge_pass st)) (S i)) = 6).
Proof.
  assert (merged_from (marr (merge_pass st)) 0) as Hm
    by (apply merge_for_merged; lia).
  assert (merge_pass (merge_pass st) = merge_pass st) as E
    by (apply merge_for_fixed, Hm).
  split; [exact E|]. split; [rewrite E; reflexivity|].
  intros i Hlive [Ex [Ey [Ha Hb]]].
  assert (mergeable (white_at (marr (merge_pass st)) i)
                    (white_at (marr (merge_pass st)) (S i)) = false) as Hf.
  { apply Hm; [lia|]. intros t Ht. apply Hlive. lia. }
  unfold mergeable in Hf. rewrite Ex, Ey, Ha, Hb, !Z.eqb_refl in Hf. discriminate.
Qed.

(** ** Clipping at the screen edges *)

(** The bits of the two clip masks: bit 31 of a long is its leftmost
    pixel, bits 31 to 16 are its left word. *)
Lemma left_clip_bits (n : Z) :
  Z.testbit LEFT_CLIP n = (0 <=? n) && (n <? 16).
Proof.
  change LEFT_CLIP with (Z.ones 16).
  destruct (Z.leb_spec 0 n) as [H0|H0]; cbn [andb].
  - destruct (Z.ltb_spec n 16) as [H1|H1].
    + apply Z.ones_spec_low. lia.
    + apply Z.ones_spec_high. lia.
  - apply Z.testbit_neg_r. lia.
Qed.

Lemma right_clip_bits (n : Z) :
  Z.testbit RIGHT_CLIP n = (16 <=? n) && (n <? 32).
Proof.
  change RIGHT_CLIP with (Z.shiftl (Z.ones 16) 16).
  destruct (Z.leb_spec 16 n) as [H0|H0]; cbn [andb].
  - rewrite Z.shiftl_spec by lia.
    destruct (Z.ltb_spec n 32) as [H1|H1].
    + apply Z.ones_spec_low. lia.
    + apply Z.ones_spec_high. lia.
  - destruct (Z.leb_spec 0 n) as [H1|H1].
    + rewrite Z.shiftl_spec by lia. apply Z.testbit_neg_r. lia.
    + apply Z.testbit_neg_r. lia.
Qed.

(** A row of [white_wall_piece] leaves a bit as it is where [clip] has a
    one; a row of [eor_wall_piece] where [clip] has a zero. *)
Lemma white_row_keeps (b : blit) (pattern dest n : Z) :
  Z.testbit (bclip b) n = true ->
  Z.testbit (white_row b pattern dest) n = Z.testbit dest n.
Proof.
  intros H. unfold white_row. rewrite Z.land_spec, Z.lor_spec, H, orb_true_r.
  apply andb_true_r.
Qed.

Lemma eor_row_keeps (b : blit) (pattern dest n : Z) :
  Z.testbit (bclip b) n = false ->
  Z.testbit (eor_row b pattern dest) n = Z.testbit dest n.
Proof.
  intros H. unfold eor_row. rewrite Z.lxor_spec, Z.land_spec, H, andb_false_r.
  apply xorb_false_r.
Qed.

Lemma wall_piece_clip (scr : screen) (left right center x y height : Z) (b : blit) :
  wall_piece scr left right center x y height = Some b ->
  clip_columns scr left right center x = Some (bclip b).
Proof.
  unfold wall_piece. destruct (clip_rows scr y height) as [[[y' row0] height']|];
    [|discriminate].
  destruct (clip_columns scr left right center x); [|discriminate].
  intros H. injection H as <-. reflexivity.
Qed.

Lemma wall_piece_skipped (scr : screen) (left right center x y height : Z) :
  clip_columns scr left right center x = None ->
  wall_piece scr left right center x y height = None.
Proof.
  unfold wall_piece. intros ->.
  destruct (clip_rows scr y height) as [[[y' row0] height']|]; reflexivity.
Qed.

Lemma clip_columns_left (scr : screen) (left right center x : Z) :
  -15 <= x <= -1 -> clip_columns scr left right center x = Some left.
Proof.
  intros H. unfold clip_columns.
  destruct (Z.ltb_spec x 0); [|lia]. destruct (Z.leb_spec x (-16)); [lia|reflexivity].
Qed.

Lemma clip_columns_right (scr : screen) (left right center x : Z) :
  15 <= SCRWTH scr -> SCRWTH scr - 15 <= x <= SCRWTH scr - 1 ->
  clip_columns scr left right center x = Some right.
Proof.
  intros Hs H. unfold clip_columns.
  destruct (Z.ltb_spec x 0); [lia|].
  rewrite Z.geb_leb. destruct (Z.leb_spec (SCRWTH scr - 16) x); [|lia].
  rewrite Z.geb_leb. destruct (Z.leb_spec (SCRWTH scr) x); [lia|reflexivity].
Qed.

Lemma clip_columns_outside (scr : screen) (left right center x : Z) :
  0 <= SCRWTH scr -> x <= -16 \/ SCRWTH scr <= x ->
  clip_columns scr left right center x = None.
Proof.
  intros Hs H. unfold clip_columns.
  destruct (Z.ltb_spec x 0).
  - destruct (Z.leb_spec x (-16)); [reflexivity|lia].
  - rewrite Z.geb_leb. destruct (Z.leb_spec (SCRWTH scr - 16) x); [|lia].
    rewrite Z.geb_leb. destruct (Z.leb_spec (SCRWTH scr) x); [reflexivity|lia].
Qed.

(** C9: a piece drawn at [x] in [-15, -1] is drawn with the mask that
    keeps the right word of the long only, so the 16 bits left of the
    screen are not touched; at [x] in [SCRWTH-15, SCRWTH-1] with the mask
    that keeps the left word only, so the 16 bits right of the screen are
    not touched; at [x <= -16] or [x >= SCRWTH] both routines return
    without drawing. *)
Theorem edge_clipping (scr : screen) (x y height : Z) :
  15 <= SCRWTH scr ->
  (-15 <= x <= -1 ->
   forall b,
     (white_wall_piece scr x y height = Some b ->
      bclip b = lnot32 LEFT_CLIP /\
      forall pattern dest n, 16 <= n < 32 ->
        Z.testbit (white_row b pattern dest) n = Z.testbit dest n) /\
     (eor_wall_piece scr x y height = Some b ->
      bclip b = LEFT_CLIP /\
      forall pattern dest n, 16 <= n < 32 ->
        Z.testbit (eor_row b pattern dest) n = Z.testbit dest n)) /\
  (SCRWTH scr - 15 <= x <= SCRWTH scr - 1 ->
   forall b,
     (white_wall_piece scr x y height = Some b ->
      bclip b = lnot32 RIGHT_CLIP /\
      forall pattern dest n, 0 <= n < 16 ->
        Z.testbit (white_row b pattern dest) n = Z.testbit dest n) /\
     (eor_wall_piece scr x y height = Some b ->
      bclip b = RIGHT_CLIP /\
      forall pattern dest n, 0 <= n < 16 ->
        Z.testbit (eor_row b pattern dest) n = Z.testbit dest n)) /\
  (x <= -16 \/ SCRWTH scr <= x ->
   white_wall_piece scr x y height = None /\ eor_wall_piece scr x y height = None).
Proof.
  intros Hs. split; [|split].
  - intros Hx b. split; intros Hb; apply wall_piece_clip in Hb;
      rewrite clip_columns_left in Hb by exact Hx; injection Hb as Hb;
      (split; [symmetry; exact Hb|]); intros pattern dest n Hn.
    + apply white_row_keeps. rewrite <- Hb.
      change (Z.testbit RIGHT_CLIP n = true). rewrite right_clip_bits.
      apply andb_true_iff. rewrite Z.leb_le, Z.ltb_lt. lia.
    + apply eor_row_keeps. rewrite <- Hb.
      change (Z.testbit LEFT_CLIP n = false). rewrite left_clip_bits.
      apply andb_false_iff. right. apply Z.ltb_ge. lia.
  - intros Hx b. split; intros Hb; apply wall_piece_clip in Hb;
      rewrite clip_columns_right in Hb by assumption; injection Hb as Hb;
      (split; [symmetry; exact Hb|]); intros pattern dest n Hn.
    + apply white_row_keeps. rewrite <- Hb.
      change (Z.testbit LEFT_CLIP n = true). rewrite left_clip_bits.
      apply andb_true_iff. rewrite Z.leb_le, Z.ltb_lt. lia.
    + apply eor_row_keeps. rewrite <- Hb.
      change (Z.testbit RIGHT_CLIP n = false). rewrite right_clip_bits.
      apply andb_false_iff. left. apply Z.leb_gt. lia.
  - intros Hx. split; apply wall_piece_skipped, clip_columns_outside; solve [lia | exact Hx].
Qed.

(** A screen 512 pixels wide, with a view of 318 lines below a status bar
    of 24. *)
Definition mac_screen : screen := mkscreen 512 318 24.

Lemma edge_clipping_witness :
  15 <= SCRWTH mac_screen /\
  white_wall_piece mac_screen (-16) 10 6 = None /\
  exists b, white_wall_piece mac_screen (-5) 10 6 = Some b /\ bclip b = lnot32 LEFT_CLIP.
Proof.
  assert (15 <= SCRWTH mac_screen) as Hs by (simpl; lia).
  split; [exact Hs|]. split.
  - apply (edge_clipping mac_screen (-16) 10 6 Hs). lia.
  - eexists. split; [reflexivity|].
    eapply (proj1 (edge_clipping mac_screen (-5) 10 6 Hs)); [lia|reflexivity].
Defined.

(** ** white_hash_merge *)

(** What makes [white_hash_merge] try a piece: the test of its [if]. *)
Definition hash_guard (arr : list whiterec) (k : nat) : bool :=
  (ht (white_at arr k) =? 6) && no_close_wh arr k && (wx (white_at arr k) >? 8).

(** Where the two [while] loops leave [j] for the piece of slot [k]. *)
Definition hash_seek (k : nat) (st : hstate) : nat :=
  let wh := white_at (marr (hwhites st)) k in
  let j0 := seek_back (junctions st) (wx wh) (jreg st) in
  seek_forth (List.length (junctions st) - j0) (junctions st) (wx wh) (wy wh) j0.

(** The test [j->x == wh->x && j->y == wh->y]. *)
Definition hash_match (k : nat) (st : hstate) : bool :=
  let wh := white_at (marr (hwhites st)) k in
  (jx (junction_at (junctions st) (hash_seek k st)) =? wx wh) &&
  (jy (junction_at (junctions st) (hash_seek k st)) =? wy wh).

Lemma hash_piece_skip (ext : externs) (k : nat) (st : hstate) :
  hash_guard (marr (hwhites st)) k = false -> hash_piece ext k st = st.
Proof.
  unfold hash_guard, hash_piece. intros ->. reflexivity.
Qed.

Lemma hash_piece_no_match (ext : externs) (k : nat) (st : hstate) :
  hash_guard (marr (hwhites st)) k = true -> hash_match k st = false ->
  hash_piece ext k st
  = mkhstate (hwhites st) (junctions st) (numjunctions st) (hash_seek k st).
Proof.
  unfold hash_guard, hash_match, hash_seek, hash_piece. intros -> ->. reflexivity.
Qed.

(** The background pattern of a piece: [backgr1] at even [x + y]. *)
Definition hash_back (ext : externs) (wh : whiterec) : Z :=
  Int.int16 (if Z.land (wx wh +i wy wh) 1 =? 0 then backgr1 ext else backgr2 ext).

(** The block the overlay is written to and the store after it. *)
Definition hash_alloc (store : list Z) (d : dataptr) (rows : list Z) : dataptr * list Z :=
  match d with
  | Storage off =>
      if (off <? List.length store)%nat
      then (d, write_rows store off rows)
      else (Storage (List.length store), store ++ rows)
  | Static _ => (Storage (List.length store), store ++ rows)
  end.

Lemma hash_piece_match (ext : externs) (k : nat) (st : hstate) :
  hash_guard (marr (hwhites st)) k = true -> hash_match k st = true ->
  let wh := white_at (marr (hwhites st)) k in
  let store := mstore (hwhites st) in
  let alloc := hash_alloc store (data wh) (hash_rows store (data wh) (hash_back ext wh) 0 6) in
  hash_piece ext k st
  = mkhstate
      (mkmstate (store_at k (mkwhite (wx wh) (wy wh) true (ht wh) (fst alloc))
                   (marr (hwhites st)))
                (mnum (hwhites st)) (snd alloc))
      (splice jx sentinel_j (hash_seek k st) (junctions st))
      (numjunctions st -i 1)
      (hash_seek k st).
Proof.
  unfold hash_guard, hash_match, hash_seek, hash_piece, hash_back, hash_alloc.
  intros -> ->. reflexivity.
Qed.

(** The three ways a turn of the loop can go. *)
Lemma hash_piece_cases (ext : externs) (k : nat) (st : hstate) :
  hash_piece ext k st = st \/
  (hash_guard (marr (hwhites st)) k = true /\ hash_match k st = false /\
   hash_piece ext k st
   = mkhstate (hwhites st) (junctions st) (numjunctions st) (hash_seek k st)) \/
  (hash_guard (marr (hwhites st)) k = true /\ hash_match k st = true).
Proof.
  destruct (hash_guard (marr (hwhites st)) k) eqn:G.
  - destruct (hash_match k st) eqn:M.
    + right; right. auto.
    + right; left. split; [reflexivity|]. split; [reflexivity|].
      apply hash_piece_no_match; assumption.
  - left. apply hash_piece_skip, G.
Qed.

(** A turn of the loop writes slot [k] only, and there only [hasj] and
    [data]. *)
Lemma hash_piece_length (ext : externs) (k : nat) (st : hstate) :
  List.length (marr (hwhites (hash_piece ext k st))) = List.length (marr (hwhites st)).
Proof.
  destruct (hash_piece_cases ext k st) as [E|[[_ [_ E]]|[G M]]];
    try (rewrite E; reflexivity).
  rewrite (hash_piece_match ext k st G M). cbn [hwhites marr].
  apply store_at_length.
Qed.

Lemma hash_piece_other (ext : externs) (k i : nat) (st : hstate) :
  i <> k ->
  white_at (marr (hwhites (hash_piece ext k st))) i = white_at (marr (hwhites st)) i.
Proof.
  intros Hne.
  destruct (hash_piece_cases ext k st) as [E|[[_ [_ E]]|[G M]]];
    try (rewrite E; reflexivity).
  rewrite (hash_piece_match ext k st G M). cbn [hwhites marr].
  apply nth_store_at_ne, Hne.
Qed.

Lemma hash_piece_place (ext : externs) (k i : nat) (st : hstate) :
  same_place (white_at (marr (hwhites (hash_piece ext k st))) i)
             (white_at (marr (hwhites st)) i).
Proof.
  destruct (Nat.eq_dec i k) as [->|Hne];
    [|rewrite hash_piece_other by exact Hne; apply same_place_refl].
  destruct (hash_piece_cases ext k st) as [E|[[_ [_ E]]|[G M]]];
    try (rewrite E; apply same_place_refl).
  rewrite (hash_piece_match ext k st G M). cbn [hwhites marr].
  destruct (Nat.lt_ge_cases k (List.length (marr (hwhites st)))) as [Hlt|Hge].
  - unfold white_at at 1. rewrite nth_store_at_eq by exact Hlt.
    unfold same_place; simpl. auto.
  - unfold white_at. rewrite !nth_overflow by (rewrite ?store_at_length; lia).
    apply same_place_refl.
Qed.

(** The guard looks at a slot in the array: the sentinel has no height 6. *)
Lemma hash_guard_in_array (arr : list whiterec) (k : nat) :
  hash_guard arr k = true -> (k < List.length arr)%nat.
Proof.
  unfold hash_guard. rewrite !andb_true_iff, Z.eqb_eq. intros [[Hht _] _].
  destruct (Nat.lt_ge_cases k (List.length arr)) as [Hlt|Hge]; [exact Hlt|].
  unfold white_at in Hht. rewrite nth_overflow in Hht by exact Hge. discriminate.
Qed.

Lemma hash_for_length (ext : externs) (fuel k : nat) (st : hstate) :
  List.length (marr (hwhites (hash_for ext fuel k st))) = List.length (marr (hwhites st)).
Proof.
  revert k st. induction fuel as [|f IH]; intros k st; simpl; [reflexivity|].
  destruct (_ <? _); [|reflexivity]. rewrite IH. apply hash_piece_length.
Qed.

(** The slots in front of the one the loop stands on are done with. *)
Lemma hash_for_behind (ext : externs) (fuel k i : nat) (st : hstate) :
  (i < k)%nat ->
  white_at (marr (hwhites (hash_for ext fuel k st))) i = white_at (marr (hwhites st)) i.
Proof.
  revert k st. induction fuel as [|f IH]; intros k st Hi; simpl; [reflexivity|].
  destruct (_ <? _); [|reflexivity].
  rewrite IH by lia. apply hash_piece_other. lia.
Qed.

Lemma hash_for_place (ext : externs) (fuel k i : nat) (st : hstate) :
  same_place (white_at (marr (hwhites (hash_for ext fuel k st))) i)
             (white_at (marr (hwhites st)) i).
Proof.
  revert k st. induction fuel as [|f IH]; intros k st; simpl; [apply same_place_refl|].
  destruct (_ <? _); [|apply same_place_refl].
  eapply same_place_trans; [apply IH|apply hash_piece_place].
Qed.

(** *** Pieces at the left and the right edge of the world *)

Lemma hash_rows_length (store : list Z) (d : dataptr) (back : Z) (i count : nat) :
  List.length (hash_rows store d back i count) = count.
Proof.
  revert back i. induction count as [|c IH]; intros back i; simpl; [reflexivity|].
  rewrite IH. reflexivity.
Qed.

Lemma nth_write_rows_outside (store rows : list Z) (off n : nat) :
  (off <= List.length store)%nat ->
  (n < off \/ off + List.length rows <= n)%nat ->
  nth n (write_rows store off rows) 0 = nth n store 0.
Proof.
  intros Hoff Hn. unfold write_rows. destruct Hn as [Hn|Hn].
  - rewrite app_nth1 by (rewrite length_firstn; lia).
    rewrite nth_firstn. destruct (Nat.ltb_spec n off); [reflexivity|lia].
  - rewrite app_nth2 by (rewrite length_firstn; lia).
    rewrite length_firstn, Nat.min_l by lia.
    rewrite app_nth2 by lia. rewrite nth_skipn. f_equal. lia.
Qed.

Lemma write_rows_length (store rows : list Z) (off : nat) :
  (off <= List.length store)%nat ->
  (List.length store <= List.length (write_rows store off rows))%nat.
Proof.
  intros Hoff. unfold write_rows.
  rewrite !length_app, length_firstn, length_skipn. lia.
Qed.

(** The block of a piece is its own: it lies in the used part of
    [whitestorage] and no other slot points into it. *)
Definition owns_block (whs : mstate) (k : nat) : Prop :=
  match data (white_at (marr whs) k) with
  | Static _ => True
  | Storage a =>
      (a + 6 <= List.length (mstore whs))%nat /\
      forall i off, i <> k -> data (white_at (marr whs) i) = Storage off ->
                    (off + 6 <= a \/ a + 6 <= off)%nat
  end.

Lemma hash_alloc_length (store rows : list Z) (d : dataptr) :
  (List.length store <= List.length (snd (hash_alloc store d rows)))%nat.
Proof.
  unfold hash_alloc. destruct d as [table|off]; cbn [snd].
  - rewrite length_app. lia.
  - destruct (Nat.ltb_spec off (List.length store)); cbn [snd].
    + apply write_rows_length. lia.
    + rewrite length_app. lia.
Qed.

(** The block the overlay is written to is the piece's own or one behind
    the used part of the store. *)
Lemma hash_alloc_block (store rows : list Z) (d : dataptr) (off : nat) :
  fst (hash_alloc store d rows) = Storage off ->
  d = Storage off \/ off = List.length store.
Proof.
  unfold hash_alloc. destruct d as [table|off']; cbn [fst].
  - intros H. injection H as <-. right. reflexivity.
  - destruct (Nat.ltb_spec off' (List.length store)) as [Hlt|Hge]; cbn [fst]; intros H.
    + left. exact H.
    + injection H as <-. right. reflexivity.
Qed.

(** The overlay of a piece leaves the cells outside its block. *)
Lemma hash_alloc_outside (store rows : list Z) (d : dataptr) (n : nat) :
  (n < List.length store)%nat ->
  (forall off, d = Storage off -> (n < off \/ off + List.length rows <= n)%nat) ->
  nth n (snd (hash_alloc store d rows)) 0 = nth n store 0.
Proof.
  intros Hn Hd. unfold hash_alloc. destruct d as [table|off]; cbn [snd].
  - apply app_nth1, Hn.
  - destruct (Nat.ltb_spec off (List.length store)); cbn [snd].
    + apply nth_write_rows_outside; [lia|]. apply Hd. reflexivity.
    + apply app_nth1, Hn.
Qed.

(** A turn of the loop on another slot leaves a piece its block and the
    rows in it. *)
Lemma hash_piece_block (ext : externs) (k i : nat) (st : hstate) :
  i <> k ->
  owns_block (hwhites st) k ->
  owns_block (hwhites (hash_piece ext i st)) k /\
  forall t, (t < 6)%nat ->
    row (mstore (hwhites (hash_piece ext i st))) (data (white_at (marr (hwhites st)) k)) t
    = row (mstore (hwhites st)) (data (white_at (marr (hwhites st)) k)) t.
Proof.
  intros Hne Hown.
  destruct (hash_piece_cases ext i st) as [E|[[_ [_ E]]|[G M]]];
    try (rewrite E; split; [exact Hown|reflexivity]).
  pose proof (hash_guard_in_array _ _ G) as Hi.
  pose proof (hash_piece_other ext i k st (not_eq_sym Hne)) as Hk.
  unfold owns_block in *. rewrite Hk.
  rewrite (hash_piece_match ext i st G M) in *. cbn [hwhites marr mstore] in *.
  destruct (data (white_at (marr (hwhites st)) k)) as [table|a]; [split; [exact I|reflexivity]|].
  destruct Hown as [Hin Hothers].
  match goal with |- context [hash_alloc ?s ?d ?r] =>
    pose proof (hash_alloc_length s r d) as Hlen;
    pose proof (hash_alloc_block s r d) as Hblock;
    pose proof (hash_alloc_outside s r d) as Hout;
    assert (List.length r = 6%nat) as Hr by apply hash_rows_length
  end.
  split; [split|].
  - lia.
  - intros i' off' Hi' Hd. destruct (Nat.eq_dec i' i) as [->|Hii].
    + unfold white_at in Hd. rewrite nth_store_at_eq in Hd by exact Hi.
      cbn [data] in Hd. destruct (Hblock off' Hd) as [Hsame| ->]; [|lia].
      apply (Hothers i off' Hne Hsame).
    + unfold white_at in Hd. rewrite nth_store_at_ne in Hd by exact Hii.
      apply (Hothers i' off' Hi' Hd).
  - intros t Ht. unfold row. apply Hout; [lia|].
    intros off Hoff. rewrite Hr. destruct (Hothers i off Hne Hoff); lia.
Qed.

(** A piece with [x <= 8] fails the test of the [if]. *)
Lemma hash_piece_left_edge (ext : externs) (k : nat) (st : hstate) :
  wx (white_at (marr (hwhites st)) k) <= 8 -> hash_piece ext k st = st.
Proof.
  intros Hx. apply hash_piece_skip. unfold hash_guard.
  destruct (Z.gtb_spec (wx (white_at (marr (hwhites st)) k)) 8); [lia|].
  apply andb_false_r.
Qed.

(** A piece with [x >= worldwidth - 8] ends the loop. *)
Lemma hash_for_right_edge (ext : externs) (fuel k : nat) (st : hstate) :
  Int.in_int16 (worldwidth ext - 8) ->
  worldwidth ext - 8 <= wx (white_at (marr (hwhites st)) k) ->
  hash_for ext fuel k st = st.
Proof.
  intros Hww Hx. destruct fuel as [|f]; simpl; [reflexivity|].
  rewrite sub_small by exact Hww.
  destruct (Z.ltb_spec (wx (white_at (marr (hwhites st)) k)) (worldwidth ext - 8));
    [lia|reflexivity].
Qed.

(** The loop leaves the record of a piece at an edge, and the rows of its
    block when the block is its own. *)
Lemma hash_for_edge (ext : externs) (fuel k0 k : nat) (st : hstate) :
  Int.in_int16 (worldwidth ext - 8) ->
  wx (white_at (marr (hwhites st)) k) <= 8 \/
  worldwidth ext - 8 <= wx (white_at (marr (hwhites st)) k) ->
  white_at (marr (hwhites (hash_for ext fuel k0 st))) k = white_at (marr (hwhites st)) k /\
  (owns_block (hwhites st) k ->
   forall t, (t < 6)%nat ->
     row (mstore (hwhites (hash_for ext fuel k0 st))) (data (white_at (marr (hwhites st)) k)) t
     = row (mstore (hwhites st)) (data (white_at (marr (hwhites st)) k)) t).
Proof.
  intros Hww. revert k0 st.
  induction fuel as [|f IH]; intros k0 st Hedge; simpl; [split; reflexivity|].
  destruct (_ <? _) eqn:Hgo; [|split; reflexivity].
  destruct (Nat.eq_dec k0 k) as [->|Hne].
  - assert (hash_piece ext k st = st) as ->; [|apply IH, Hedge].
    apply hash_piece_left_edge.
    rewrite sub_small in Hgo by exact Hww. apply Z.ltb_lt in Hgo. lia.
  - pose proof (hash_piece_other ext k0 k st (not_eq_sym Hne)) as Hk.
    destruct (IH (S k0) (hash_piece ext k0 st)) as [IH1 IH2]; [rewrite Hk; exact Hedge|].
    rewrite Hk in IH1, IH2. split; [exact IH1|].
    intros Hown t Ht.
    destruct (hash_piece_block ext k k0 st Hne Hown) as [Hown' Hrows].
    rewrite (IH2 Hown' t Ht). apply Hrows, Ht.
Qed.

(** C10: [white_hash_merge] leaves a piece with [x <= 8] or
    [x >= worldwidth - 8] as it is, whatever its height, its neighbours and
    the junctions: its record, with [hasj] and [data], is that of before,
    and so are the 6 rows [data] points to where the block is the piece's
    own; the turn of the loop for its slot changes nothing (for [x <= 8])
    or is not reached (the loop ends on a slot with [x >= worldwidth - 8]),
    so no junction is removed on its account. *)
Theorem edge_pieces_not_hashed (ext : externs) (whs : mstate) (js : list junctionrec)
  (numj : Z) (k : nat) :
  Int.in_int16 (worldwidth ext - 8) ->
  wx (white_at (marr whs) k) <= 8 \/ worldwidth ext - 8 <= wx (white_at (marr whs) k) ->
  let w := white_at (marr whs) k in
  let final := white_hash_merge ext whs js numj in
  white_at (marr (hwhites final)) k = w /\
  (owns_block whs k ->
   forall t, (t < 6)%nat -> row (mstore (hwhites final)) (data w) t = row (mstore whs) (data w) t) /\
  (forall st fuel,
     wx (white_at (marr (hwhites st)) k) = wx w ->
     (wx w <= 8 -> hash_piece ext k st = st) /\
     (worldwidth ext - 8 <= wx w -> hash_for ext fuel k st = st)).
Proof.
  intros Hww Hedge w final.
  destruct (hash_for_edge ext (List.length (marr whs)) 0 k (mkhstate whs js numj 0) Hww Hedge)
    as [Hrec Hrows].
  split; [exact Hrec|]. split; [exact Hrows|].
  intros st fuel Hx. split; intros Hw.
  - apply hash_piece_left_edge. rewrite Hx. exact Hw.
  - apply hash_for_right_edge; [exact Hww|]. rewrite Hx. exact Hw.
Qed.

(** *** no_close_wh on a sorted array *)

(** The array is sorted by [x], as the insertion sort of [init_whites]
    leaves it. *)
Definition sorted_x (arr : list whiterec) : Prop :=
  forall i j, (i <= j)%nat -> (j < List.length arr)%nat ->
    wx (white_at arr i) <= wx (white_at arr j).

(** What [no_close_wh] looks for: a piece less than 3 pixels away on both
    axes. *)
Definition close_to (w1 w2 : whiterec) : Prop :=
  Z.abs (wx w2 - wx w1) < 3 /\ Z.abs (wy w2 - wy w1) < 3.

(** Coordinates of a piece for which [x - 3], [x + 3], [y - 3] and [y + 3]
    do not wrap. *)
Definition white_ok (w : whiterec) : Prop :=
  -32765 <= wx w <= 32764 /\ -32765 <= wy w <= 32764.

Lemma firstn_snoc {A : Type} (k : nat) (d : A) (arr : list A) :
  (k < List.length arr)%nat -> firstn (S k) arr = firstn k arr ++ [nth k arr d].
Proof.
  revert k. induction arr as [|a rest IH]; intros k Hk; simpl in Hk; [lia|].
  destruct k as [|k]; [reflexivity|].
  change (a :: firstn (S k) rest = a :: (firstn k rest ++ [nth k rest d])).
  rewrite IH by lia. reflexivity.
Qed.

Lemma skipn_cons {A : Type} (p : nat) (d : A) (arr : list A) :
  (p < List.length arr)%nat -> skipn p arr = nth p arr d :: skipn (S p) arr.
Proof.
  revert p. induction arr as [|a rest IH]; intros p Hp; simpl in Hp; [lia|].
  destruct p as [|p]; [reflexivity|]. simpl. apply IH. lia.
Qed.

Lemma close_before_none (w1 : whiterec) (arr : list whiterec) (k : nat) :
  white_ok w1 -> sorted_x arr -> (k <= List.length arr)%nat ->
  close_before w1 (rev (firstn k arr)) = false ->
  forall i, (i < k)%nat -> ~ close_to w1 (white_at arr i).
Proof.
  intros [Hx Hy] Hs. induction k as [|k IH]; intros Hk Hscan i Hi; [lia|].
  rewrite (firstn_snoc k sentinel_wh) in Hscan by lia.
  rewrite rev_app_distr in Hscan. simpl in Hscan.
  fold (white_at arr k) in Hscan. revert Hscan. int16_simpl.
  destruct (Z.gtb_spec (wx (white_at arr k)) (wx w1 - 3)) as [Hgt|Hle].
  - destruct (Z.ltb_spec (wy (white_at arr k)) (wy w1 + 3)) as [Hy1|Hy1];
      destruct (Z.gtb_spec (wy (white_at arr k)) (wy w1 - 3)) as [Hy2|Hy2];
      cbn [andb]; try discriminate; intros Hscan;
      (destruct (Nat.eq_dec i k) as [->|Hne];
       [unfold close_to; lia | apply IH; [lia|exact Hscan|lia]]).
  - intros _. pose proof (Hs i k ltac:(lia) ltac:(lia)). unfold close_to. lia.
Qed.

Lemma close_after_none (w1 : whiterec) (arr : list whiterec) (n p : nat) :
  white_ok w1 -> sorted_x arr -> (List.length arr - p <= n)%nat ->
  close_after w1 (skipn p arr) = false ->
  forall i, (p <= i)%nat -> (i < List.length arr)%nat -> ~ close_to w1 (white_at arr i).
Proof.
  intros [Hx Hy] Hs. revert p. induction n as [|n IH]; intros p Hn Hscan i Hpi Hi; [lia|].
  rewrite (skipn_cons p sentinel_wh) in Hscan by lia. simpl in Hscan.
  fold (white_at arr p) in Hscan. revert Hscan. int16_simpl.
  destruct (Z.ltb_spec (wx (white_at arr p)) (wx w1 + 3)) as [Hlt|Hge].
  - destruct (Z.ltb_spec (wy (white_at arr p)) (wy w1 + 3)) as [Hy1|Hy1];
      destruct (Z.gtb_spec (wy (white_at arr p)) (wy w1 - 3)) as [Hy2|Hy2];
      cbn [andb]; try discriminate; intros Hscan;
      (destruct (Nat.eq_dec i p) as [->|Hne];
       [unfold close_to; lia | apply (IH (S p)); [lia|exact Hscan|lia|lia]]).
  - intros _. pose proof (Hs p i ltac:(lia) ltac:(lia)). unfold close_to. lia.
Qed.

(** On a sorted array a piece [no_close_wh] accepts has no other piece
    less than 3 pixels away on both axes. *)
Lemma no_close_wh_isolated (arr : list whiterec) (k : nat) :
  white_ok (white_at arr k) -> sorted_x arr -> (k < List.length arr)%nat ->
  no_close_wh arr k = true ->
  forall i, i <> k -> (i < List.length arr)%nat ->
    ~ close_to (white_at arr k) (white_at arr i).
Proof.
  intros Hok Hs Hk Hno i Hne Hi. unfold no_close_wh in Hno.
  apply andb_true_iff in Hno. destruct Hno as [Hb Ha].
  apply negb_true_iff in Hb, Ha.
  destruct (Nat.lt_ge_cases i k) as [Hlt|Hge].
  - apply (close_before_none _ arr k Hok Hs ltac:(lia) Hb i Hlt).
  - apply (close_after_none _ arr (List.length arr) (S k) Hok Hs ltac:(lia) Ha i); lia.
Qed.

(** Sortedness and the places of the pieces are the same in two arrays
    whose slots agree in [x], [y] and [ht]. *)
Lemma sorted_x_same_place (a b : list whiterec) :
  List.length a = List.length b ->
  (forall i, same_place (white_at a i) (white_at b i)) ->
  sorted_x b -> sorted_x a.
Proof.
  intros Hlen Hp Hs i j Hij Hj.
  destruct (Hp i) as [-> _]. destruct (Hp j) as [-> _]. apply Hs; [exact Hij|lia].
Qed.

(** *** The pieces the loop overlays *)

Lemma white_at_store_at_eq (k : nat) (v : whiterec) (arr : list whiterec) :
  (k < List.length arr)%nat -> white_at (store_at k v arr) k = v.
Proof. apply nth_store_at_eq. Qed.

Lemma nth_hash_rows (store : list Z) (d : dataptr) (back : Z) (i count t : nat) :
  (t < count)%nat ->
  nth t (hash_rows store d back i count) 0
  = Z.lxor (Z.land (Nat.iter t rol16 back)
                   (Z.lor (Z.lnot (row store d (i + t))) (nth (i + t) hash_figure 0)))
           (nth (i + t) hash_figure 0).
Proof.
  revert back i t. induction count as [|c IH]; intros back i t Ht; [lia|].
  destruct t as [|t]; simpl.
  - rewrite Nat.add_0_r. reflexivity.
  - rewrite IH by lia. replace (S i + t)%nat with (i + S t)%nat by lia.
    f_equal. f_equal. clear. revert back. induction t as [|t IHt]; intros back;
      [reflexivity|]. simpl in *. rewrite IHt. reflexivity.
Qed.

(** The rows read through the pointer the overlay leaves are those it
    wrote. *)
Lemma row_hash_alloc (store rows : list Z) (d : dataptr) (t : nat) :
  (t < List.length rows)%nat ->
  row (snd (hash_alloc store d rows)) (fst (hash_alloc store d rows)) t = nth t rows 0.
Proof.
  intros Ht. unfold hash_alloc. destruct d as [table|off]; cbn [fst snd].
  - apply row_fresh.
  - destruct (Nat.ltb_spec off (List.length store)) as [Hlt|Hge]; cbn [fst snd].
    + unfold row, write_rows.
      rewrite app_nth2 by (rewrite length_firstn; lia).
      rewrite length_firstn, Nat.min_l by lia.
      rewrite app_nth1 by lia. f_equal. lia.
    + apply row_fresh.
Qed.

(** Whether the loop goes on at slot [k]. *)
Definition hash_go (ext : externs) (k : nat) (st : hstate) : bool :=
  wx (white_at (marr (hwhites st)) k) <? worldwidth ext -i 8.

(** A piece whose [hasj] the loop has set was reached by the loop, passed
    the test of the [if] and matched the junction the two [while] loops
    stopped on. *)
Lemma hash_for_overlaid (ext : externs) (fuel k0 k : nat) (st : hstate) :
  (k0 <= k)%nat ->
  hasj (white_at (marr (hwhites st)) k) = false ->
  hasj (white_at (marr (hwhites (hash_for ext fuel k0 st))) k) = true ->
  let reached := hash_for ext (k - k0) k0 st in
  white_at (marr (hwhites reached)) k = white_at (marr (hwhites st)) k /\
  hash_go ext k reached = true /\
  hash_guard (marr (hwhites reached)) k = true /\
  hash_match k reached = true.
Proof.
  revert k0 st. induction fuel as [|f IH]; intros k0 st Hk0 Hinit Hfinal;
    simpl in Hfinal; [congruence|].
  destruct (wx (white_at (marr (hwhites st)) k0) <? worldwidth ext -i 8) eqn:Hgo;
    [|congruence].
  destruct (Nat.eq_dec k0 k) as [->|Hne].
  - rewrite Nat.sub_diag. simpl.
    rewrite hash_for_behind in Hfinal by lia.
    split; [reflexivity|]. split; [exact Hgo|].
    destruct (hash_piece_cases ext k st) as [E|[[_ [_ E]]|[G M]]].
    + rewrite E in Hfinal. congruence.
    + rewrite E in Hfinal. cbn [hwhites] in Hfinal. congruence.
    + split; assumption.
  - replace (k - k0)%nat with (S (k - S k0)) by lia. simpl. rewrite Hgo.
    rewrite <- (hash_piece_other ext k0 k st (not_eq_sym Hne)).
    apply IH; [lia| |exact Hfinal].
    rewrite hash_piece_other by auto. exact Hinit.
Qed.

(** On a sorted array, a piece whose [hasj] flag [white_hash_merge] has
    set has height 6 and [8 < x < worldwidth - 8], no other piece lies less
    than 3 pixels from it on both axes, and its [(x, y)] is that of a
    junction still in the junction array when the loop reaches the piece;
    the rows the turn of the loop leaves it are
    [(back & (~row | hash)) ^ hash], [back] rotated by one bit from row to
    row. *)
Lemma hash_merge_overlaid (ext : externs) (whs : mstate) (js : list junctionrec) (numj : Z)
  (k : nat) :
  Int.in_int16 (worldwidth ext - 8) -> worldwidth ext - 8 <= 20000 ->
  sorted_x (marr whs) -> white_ok (white_at (marr whs) k) ->
  hasj (white_at (marr whs) k) = false ->
  hasj (white_at (marr (hwhites (white_hash_merge ext whs js numj))) k) = true ->
  let w := white_at (marr whs) k in
  let reached := hash_for ext k 0 (mkhstate whs js numj 0) in
  let turned := hash_piece ext k reached in
  ht w = 6 /\ 8 < wx w < worldwidth ext - 8 /\
  (forall i, i <> k -> (i < List.length (marr whs))%nat ->
     ~ close_to w (white_at (marr whs) i)) /\
  In (mkjunction (wx w) (wy w)) (junctions reached) /\
  white_at (marr (hwhites reached)) k = w /\
  (forall t, (t < 6)%nat ->
     row (mstore (hwhites turned)) (data (white_at (marr (hwhites turned)) k)) t
     = Z.lxor (Z.land (Nat.iter t rol16 (hash_back ext w))
                 (Z.lor (Z.lnot (row (mstore (hwhites reached)) (data w) t))
                        (nth t hash_figure 0)))
              (nth t hash_figure 0)).
Proof.
  intros Hww Hww' Hsorted Hok Hinit Hfinal w reached turned.
  destruct (hash_for_overlaid ext (List.length (marr whs)) 0 k (mkhstate whs js numj 0)
              (Nat.le_0_l k) Hinit Hfinal) as [Hsame [Hgo [G M]]].
  rewrite Nat.sub_0_r in Hsame, Hgo, G, M. fold reached in Hsame, Hgo, G, M.
  cbn [hwhites] in Hsame. fold w in Hsame.
  pose proof (hash_guard_in_array _ _ G) as Hk.
  assert (List.length (marr (hwhites reached)) = List.length (marr whs)) as Hlen
    by (unfold reached; rewrite hash_for_length; reflexivity).
  assert (forall i, same_place (white_at (marr (hwhites reached)) i) (white_at (marr whs) i))
    as Hplace by (intros i; unfold reached; apply hash_for_place).
  unfold hash_go in Hgo. rewrite sub_small in Hgo by exact Hww.
  apply Z.ltb_lt in Hgo. rewrite Hsame in Hgo.
  pose proof G as G'. unfold hash_guard in G'. rewrite Hsame in G'.
  rewrite !andb_true_iff, Z.eqb_eq in G'. destruct G' as [[Hht Hno] Hx8].
  apply Z.gtb_lt in Hx8.
  split; [exact Hht|]. split; [lia|]. split; [|split; [|split; [exact Hsame|]]].
  - intros i Hne Hi Hclose.
    assert (white_ok (white_at (marr (hwhites reached)) k)) as Hok'
      by (rewrite Hsame; exact Hok).
    assert (sorted_x (marr (hwhites reached))) as Hsorted'
      by (apply (sorted_x_same_place _ (marr whs)); assumption).
    apply (no_close_wh_isolated (marr (hwhites reached)) k Hok' Hsorted' Hk Hno i Hne);
      [lia|].
    rewrite Hsame. destruct (Hplace i) as [Ex [Ey _]].
    unfold close_to in *. rewrite Ex, Ey. exact Hclose.
  - unfold hash_match in M. rewrite Hsame in M.
    apply andb_true_iff in M. rewrite !Z.eqb_eq in M. destruct M as [Mx My].
    destruct (Nat.lt_ge_cases (hash_seek k reached) (List.length (junctions reached)))
      as [Hlt|Hge].
    + replace (mkjunction (wx w) (wy w))
        with (junction_at (junctions reached) (hash_seek k reached)).
      * apply nth_In, Hlt.
      * destruct (junction_at (junctions reached) (hash_seek k reached)); simpl in *.
        congruence.
    + unfold junction_at in Mx. rewrite nth_overflow in Mx by exact Hge.
      simpl in Mx. lia.
  - intros t Ht. unfold turned. rewrite (hash_piece_match ext k reached G M).
    cbn [hwhites marr mstore]. rewrite white_at_store_at_eq by exact Hk. cbn [data].
    rewrite row_hash_alloc by (rewrite hash_rows_length; exact Ht).
    rewrite nth_hash_rows by exact Ht. rewrite Hsame. reflexivity.
Qed.

(** *** Junctions are consumed once *)

(** The junction a piece lies on. *)
Definition junction_of (w : whiterec) : junctionrec := mkjunction (wx w) (wy w).

(** The splice loop on an array whose first slots lie in front of the
    sentinel. *)
Lemma shift_down_front {A : Type} (x : A -> Z) (dflt a : A) (front rest : list A) :
  Forall (fun e => x e < 20000) (a :: front) ->
  shift_down x dflt rest = rest ->
  shift_down x dflt (a :: front ++ rest) = front ++ nth 0 rest dflt :: rest.
Proof.
  intros Hlive Hrest. revert a Hlive.
  induction front as [|b front IH]; intros a Hlive;
    inversion Hlive as [|? ? Ha Hfront]; subst; simpl.
  - destruct (x a <? 20000) eqn:E; [|apply Z.ltb_ge in E; lia].
    rewrite Hrest. reflexivity.
  - destruct (x a <? 20000) eqn:E; [|apply Z.ltb_ge in E; lia].
    f_equal. apply (IH b Hfront).
Qed.

Lemma shift_down_sentinels (m : nat) :
  shift_down jx sentinel_j (repeat sentinel_j m) = repeat sentinel_j m.
Proof. destruct m; reflexivity. Qed.

(** [white_hash_merge] removes the junction it has matched: the junctions
    behind it move down by one slot and a sentinel fills the last. *)
Lemma splice_junctions (live : list junctionrec) (m j : nat) :
  Forall (fun e => jx e < 20000) live -> (j < List.length live)%nat ->
  splice jx sentinel_j j (live ++ repeat sentinel_j m)
  = (firstn j live ++ skipn (S j) live) ++ repeat sentinel_j (S m).
Proof.
  intros Hlive Hj. unfold splice.
  rewrite firstn_app, skipn_app.
  replace (j - List.length live)%nat with O by lia. simpl firstn. simpl skipn.
  rewrite app_nil_r, <- app_assoc. f_equal.
  rewrite (skipn_cons j sentinel_j live Hj).
  rewrite <- app_comm_cons.
  rewrite shift_down_front.
  - f_equal. destruct m; reflexivity.
  - rewrite <- (skipn_cons j sentinel_j live Hj).
    rewrite <- (firstn_skipn j live) in Hlive. apply Forall_app in Hlive. apply Hlive.
  - apply shift_down_sentinels.
Qed.

(** The invariant of the loop: the junction array is a list [live] of
    distinct junctions of the first array, followed by sentinels; a piece
    with [hasj] set lies on a junction of the first array that is no longer
    in [live]; no two such pieces lie on the same junction. *)
Record consumed_once (js0 : list junctionrec) (st : hstate) (live : list junctionrec)
  : Prop := mkconsumed {
  co_array : exists m, junctions st = live ++ repeat sentinel_j m;
  co_live : Forall (fun e => jx e < 20000) live;
  co_nodup : NoDup live;
  co_incl : incl live js0;
  co_gone : forall i, hasj (white_at (marr (hwhites st)) i) = true ->
              In (junction_of (white_at (marr (hwhites st)) i)) js0 /\
              ~ In (junction_of (white_at (marr (hwhites st)) i)) live;
  co_once : forall i i', i <> i' ->
              hasj (white_at (marr (hwhites st)) i) = true ->
              hasj (white_at (marr (hwhites st)) i') = true ->
              junction_of (white_at (marr (hwhites st)) i)
              <> junction_of (white_at (marr (hwhites st)) i')
}.

Lemma junction_at_live (live : list junctionrec) (m j : nat) :
  jx (junction_at (live ++ repeat sentinel_j m) j) < 20000 ->
  (j < List.length live)%nat /\ junction_at (live ++ repeat sentinel_j m) j = nth j live sentinel_j.
Proof.
  intros Hx. unfold junction_at in *.
  destruct (Nat.lt_ge_cases j (List.length live)) as [Hlt|Hge].
  - split; [exact Hlt|]. apply app_nth1, Hlt.
  - exfalso. rewrite app_nth2 in Hx by exact Hge.
    destruct (Nat.lt_ge_cases (j - List.length live) m) as [Hm|Hm].
    + rewrite nth_repeat_lt in Hx by exact Hm. simpl in Hx. lia.
    + rewrite nth_overflow in Hx by (rewrite repeat_length; exact Hm). simpl in Hx. lia.
Qed.

Lemma hash_piece_consumed (ext : externs) (js0 : list junctionrec) (k : nat) (st : hstate)
  (live : list junctionrec) :
  wx (white_at (marr (hwhites st)) k) < 20000 ->
  consumed_once js0 st live ->
  exists live', consumed_once js0 (hash_piece ext k st) live'.
Proof.
  intros Hx [[m Harr] Hlive Hnodup Hincl Hgone Honce].
  destruct (hash_piece_cases ext k st) as [E|[[_ [_ E]]|[G M]]].
  - exists live. rewrite E. constructor; eauto.
  - exists live. rewrite E. constructor; eauto.
  - pose proof (hash_guard_in_array _ _ G) as Hk.
    set (w := white_at (marr (hwhites st)) k) in *.
    set (j := hash_seek k st) in *.
    assert (junction_at (junctions st) j = junction_of w) as Hj.
    { pose proof M as M'. unfold hash_match in M'. fold w j in M'.
      apply andb_true_iff in M'. rewrite !Z.eqb_eq in M'. destruct M' as [Mx My].
      unfold junction_of. destruct (junction_at (junctions st) j); simpl in *. congruence. }
    assert (jx (junction_at (junctions st) j) < 20000) as Hjx by (rewrite Hj; exact Hx).
    rewrite Harr in Hj, Hjx. destruct (junction_at_live live m j Hjx) as [Hjlt Hjlive].
    rewrite Hjlive in Hj.
    assert (live = firstn j live ++ junction_of w :: skipn (S j) live) as Esplit.
    { rewrite <- Hj. rewrite <- (skipn_cons j sentinel_j live Hjlt).
      symmetry. apply firstn_skipn. }
    exists (firstn j live ++ skipn (S j) live).
    assert (exists d', white_at (marr (hwhites (hash_piece ext k st))) k
                       = mkwhite (wx w) (wy w) true (ht w) d') as [d' Hslot].
    { eexists. rewrite (hash_piece_match ext k st G M). cbn [hwhites marr].
      rewrite white_at_store_at_eq by exact Hk. reflexivity. }
    pose proof (fun i (H : i <> k) => hash_piece_other ext k i st H) as Hother.
    assert (In (junction_of w) live) as Hwin
      by (rewrite Esplit; apply in_elt).
    assert (NoDup (firstn j live ++ skipn (S j) live) /\
            ~ In (junction_of w) (firstn j live ++ skipn (S j) live)) as [Hnd' Hnot].
    { apply NoDup_remove. rewrite <- Esplit. exact Hnodup. }
    assert (incl (firstn j live ++ skipn (S j) live) live) as Hincl'.
    { intros e He. rewrite Esplit. apply in_app_or in He. apply in_or_app.
      destruct He as [He|He]; [left; exact He|right; right; exact He]. }
    constructor.
    + exists (S m). rewrite (hash_piece_match ext k st G M). cbn [junctions].
      fold j. rewrite Harr. apply splice_junctions; assumption.
    + rewrite <- (firstn_skipn j live) in Hlive. apply Forall_app in Hlive.
      destruct Hlive as [H1 H2]. apply Forall_app. split; [exact H1|].
      rewrite (skipn_cons j sentinel_j live Hjlt) in H2. inversion H2; assumption.
    + exact Hnd'.
    + intros e He. apply Hincl, Hincl', He.
    + intros i Hi. destruct (Nat.eq_dec i k) as [->|Hne].
      * rewrite Hslot. split; [apply Hincl, Hwin|exact Hnot].
      * rewrite Hother in Hi |- * by exact Hne.
        destruct (Hgone i Hi) as [H1 H2]. split; [exact H1|].
        intros Hin. apply H2, Hincl', Hin.
    + intros i i' Hne Hi Hi'.
      destruct (Nat.eq_dec i k) as [->|Hik]; destruct (Nat.eq_dec i' k) as [->|Hik'].
      * contradiction.
      * rewrite Hslot. rewrite Hother in Hi' |- * by exact Hik'.
        intros E. destruct (Hgone i' Hi') as [_ H2]. apply H2.
        rewrite <- E. exact Hwin.
      * rewrite Hslot. rewrite Hother in Hi |- * by exact Hik.
        intros E. destruct (Hgone i Hi) as [_ H2]. apply H2.
        rewrite E. exact Hwin.
      * rewrite !Hother in * by assumption. apply Honce; assumption.
Qed.

Lemma hash_for_consumed (ext : externs) (js0 : list junctionrec) (fuel k : nat) (st : hstate)
  (live : list junctionrec) :
  Int.in_int16 (worldwidth ext - 8) -> worldwidth ext - 8 <= 20000 ->
  consumed_once js0 st live ->
  exists live', consumed_once js0 (hash_for ext fuel k st) live'.
Proof.
  intros Hww Hww'. revert k st live.
  induction fuel as [|f IH]; intros k st live Hinv; simpl; [exists live; exact Hinv|].
  destruct (_ <? _) eqn:Hgo; [|exists live; exact Hinv].
  rewrite sub_small in Hgo by exact Hww. apply Z.ltb_lt in Hgo.
  destruct (hash_piece_consumed ext js0 k st live ltac:(lia) Hinv) as [live' Hinv'].
  apply (IH (S k) _ live' Hinv').
Qed.

(** [white_hash_merge] on pieces with [hasj] clear and an array of
    distinct junctions. *)
Lemma hash_merge_consumes_once (ext : externs) (whs : mstate) (js : list junctionrec)
  (numj : Z) :
  Int.in_int16 (worldwidth ext - 8) -> worldwidth ext - 8 <= 20000 ->
  (forall i, hasj (white_at (marr whs) i) = false) ->
  Forall (fun e => jx e < 20000) js -> NoDup js ->
  let final := white_hash_merge ext whs js numj in
  let piece i := white_at (marr (hwhites final)) i in
  (forall i i', i <> i' -> hasj (piece i) = true -> hasj (piece i') = true ->
     (wx (piece i), wy (piece i)) <> (wx (piece i'), wy (piece i'))) /\
  (forall i, hasj (piece i) = true ->
     In (junction_of (piece i)) js /\ ~ In (junction_of (piece i)) (junctions final)).
Proof.
  intros Hww Hww' Hclear Hlive Hnodup final piece.
  assert (consumed_once js (mkhstate whs js numj 0) js) as Hinit.
  { constructor; cbn [hwhites junctions].
    - exists O. simpl. rewrite app_nil_r. reflexivity.
    - exact Hlive.
    - exact Hnodup.
    - apply incl_refl.
    - intros i Hi. rewrite Hclear in Hi. discriminate.
    - intros i i' _ Hi. rewrite Hclear in Hi. discriminate. }
  destruct (hash_for_consumed ext js (List.length (marr whs)) 0 _ js Hww Hww' Hinit)
    as [live [[m Harr] Hl Hnd Hincl Hgone Honce]].
  fold (white_hash_merge ext whs js numj) in Harr, Hgone, Honce. fold final in Harr, Hgone, Honce.
  split.
  - intros i i' Hne Hi Hi' E. apply (Honce i i' Hne Hi Hi').
    unfold junction_of. fold (piece i) (piece i'). congruence.
  - intros i Hi. destruct (Hgone i Hi) as [Hin Hnot]. fold (piece i) in Hin, Hnot.
    split; [exact Hin|]. rewrite Harr. intros H. apply in_app_or in H.
    destruct H as [H|H]; [exact (Hnot H)|].
    apply repeat_spec in H. rewrite Forall_forall in Hlive.
    specialize (Hlive _ Hin). rewrite H in Hlive. simpl in Hlive. lia.
Qed.

(** *** What init_walls hands to white_hash_merge *)

Section Preserved.
Variable P : whiterec -> Prop.
Hypothesis P_hasj : forall w x y h d, P w -> P (mkwhite x y (hasj w) h d).
Hypothesis P_new : forall x y h d, P (mkwhite x y false h d).

Lemma add_white_preserves (ws : list whiterec) (x y h : Z) (d : dataptr) :
  Forall P ws -> Forall P (add_white ws x y h d).
Proof.
  intros H. unfold add_white. apply Forall_app. split; [exact H|].
  constructor; [apply P_new|constructor].
Qed.

Lemma replace_white_2_preserves (ws : list whiterec) (tx ty x y h : Z) (d : dataptr) :
  Forall P ws -> Forall P (replace_white_2 ws tx ty x y h d).
Proof.
  induction 1 as [|w rest Hw Hrest IH]; simpl; [constructor|].
  destruct (_ || _); constructor; auto.
Qed.

Lemma norm_whites_line_preserves (ws : list whiterec) (line : linerec) :
  Forall P ws -> Forall P (norm_whites_line ws line).
Proof.
  intros H. unfold norm_whites_line.
  repeat first [ apply add_white_preserves
               | match goal with |- context [match ?x with _ => _ end] => destruct x end
               | exact H ].
Qed.

Lemma norm_whites_preserves (lines : list linerec) (ws : list whiterec) :
  Forall P ws -> Forall P (norm_whites lines ws).
Proof.
  revert ws. induction lines as [|l rest IH]; intros ws H; simpl; [exact H|].
  destruct (ltype l =? 0); [exact H|]. apply IH, norm_whites_line_preserves, H.
Qed.

Lemma nepatch_run_preserves (count : nat) (j : Z) (line : linerec) (ws : list whiterec) :
  Forall P ws -> Forall P (nepatch_run count j line ws).
Proof.
  revert j ws. induction count as [|c IH]; intros j ws H; simpl; [exact H|].
  apply IH. destruct (_ <? _); [apply add_white_preserves|]; exact H.
Qed.

Lemma one_close_preserves (ws : list whiterec) (line line2 : linerec) (n m : bool) :
  Forall P ws -> Forall P (fst (one_close ws line line2 n m)).
Proof.
  intros H. unfold one_close, add_white_2.
  repeat first [ exact H
               | apply add_white_preserves
               | apply replace_white_2_preserves
               | apply nepatch_run_preserves
               | match goal with |- context [if ?x then _ else _] => destruct x end
               | progress cbn [fst] ].
Qed.

Lemma close_pair_preserves (k k2 : nat) (i j : bool) (st : cstate) :
  Forall P (cwhites st) -> Forall P (cwhites (close_pair k k2 i j st)).
Proof.
  intros H. unfold close_pair.
  destruct (nth_error (clines st) k); [|exact H].
  destruct (nth_error (clines st) k2); [|exact H].
  destruct (in_box _ _); [|exact H]. cbn [cwhites]. apply one_close_preserves, H.
Qed.

Lemma close_scan_preserves (fuel k : nat) (i : bool) (k2 : nat) (st : cstate) :
  Forall P (cwhites st) -> Forall P (cwhites (close_scan fuel k i k2 st)).
Proof.
  revert k2 st. induction fuel as [|f IH]; intros k2 st H; simpl; [exact H|].
  destruct (nth_error (clines st) k); [|exact H].
  destruct (nth_error (clines st) k2); [|exact H].
  destruct (_ <? _); [|exact H]. apply IH. do 2 apply close_pair_preserves. exact H.
Qed.

Lemma close_line_preserves (k first : nat) (st : cstate) :
  Forall P (cwhites st) -> Forall P (cwhites (snd (close_line k first st))).
Proof.
  intros H. unfold close_line. destruct (nth_error (clines st) k); [|exact H].
  cbn [snd]. do 2 apply close_scan_preserves. exact H.
Qed.

Lemma close_lines_preserves (fuel k first : nat) (st : cstate) :
  Forall P (cwhites st) -> Forall P (cwhites (close_lines fuel k first st)).
Proof.
  revert k first st. induction fuel as [|f IH]; intros k first st H; simpl; [exact H|].
  destruct (nth_error (clines st) k) as [line|]; [|exact H].
  destruct (ltype line =? 0); [exact H|]. apply IH, close_line_preserves, H.
Qed.

Lemma close_whites_preserves (st : cstate) :
  Forall P (cwhites st) -> Forall P (cwhites (close_whites st)).
Proof. intros H. unfold close_whites. apply close_lines_preserves. exact H. Qed.

End Preserved.

Lemma sink_permutation {A : Type} (before : A -> A -> bool) (a : A) (left : list A) :
  Permutation (sink before a left) (a :: left).
Proof.
  induction left as [|p rest IH]; simpl; [apply Permutation_refl|].
  destruct (before a p); [|apply Permutation_refl].
  apply perm_trans with (p :: a :: rest); [apply perm_skip, IH|apply perm_swap].
Qed.

(** The insertion sort moves the elements of the array, no more. *)
Lemma insertion_sort_permutation {A : Type} (before : A -> A -> bool) (arr : list A) :
  Permutation (insertion_sort before arr) arr.
Proof.
  unfold insertion_sort.
  apply perm_trans with (fold_left (fun left a => sink before a left) arr []);
    [apply Permutation_sym, Permutation_rev|].
  rewrite <- (app_nil_l arr) at 2. generalize (@nil A) as acc.
  induction arr as [|a arr IH]; intros acc; simpl.
  - rewrite app_nil_r. apply Permutation_refl.
  - apply perm_trans with (sink before a acc ++ arr); [apply IH|].
    apply perm_trans with ((a :: acc) ++ arr);
      [apply Permutation_app_tail, sink_permutation|].
    simpl. apply Permutation_middle.
Qed.

Section MergePreserved.
Variable P : whiterec -> Prop.
Hypothesis P_data : forall w d, P w -> P (set_data w d).
Hypothesis P_sentinel : P sentinel_wh.

Lemma store_at_preserves {A : Type} (Q : A -> Prop) (k : nat) (v : A) (arr : list A) :
  Q v -> Forall Q arr -> Forall Q (store_at k v arr).
Proof.
  intros Hv H. revert k. induction H as [|a rest Ha Hrest IH]; intros [|k]; simpl;
    constructor; auto.
Qed.

Lemma shift_down_preserves {A : Type} (Q : A -> Prop) (x : A -> Z) (dflt : A) (arr : list A) :
  Q dflt -> Forall Q arr -> Forall Q (shift_down x dflt arr).
Proof.
  intros Hd H. induction H as [|a rest Ha Hrest IH]; simpl; [constructor|].
  destruct (x a <? 20000); [|constructor; assumption].
  constructor; [|exact IH]. destruct Hrest; simpl; assumption.
Qed.

Lemma splice_preserves {A : Type} (Q : A -> Prop) (x : A -> Z) (dflt : A) (p : nat)
  (arr : list A) :
  Q dflt -> Forall Q arr -> Forall Q (splice x dflt p arr).
Proof.
  intros Hd H. unfold splice. rewrite <- (firstn_skipn p arr) in H.
  apply Forall_app in H. destruct H as [H1 H2].
  apply Forall_app. split; [exact H1|]. apply shift_down_preserves; assumption.
Qed.

Lemma white_at_preserved (arr : list whiterec) (i : nat) :
  Forall P arr -> P (white_at arr i).
Proof.
  intros H. unfold white_at.
  destruct (Nat.lt_ge_cases i (List.length arr)) as [Hlt|Hge].
  - rewrite Forall_forall in H. apply H, nth_In, Hlt.
  - rewrite nth_overflow by exact Hge. exact P_sentinel.
Qed.

Lemma merge_at_preserves (k : nat) (st : mstate) :
  Forall P (marr st) -> Forall P (marr (merge_at k st)).
Proof.
  intros H. unfold merge_at. cbn [marr].
  apply splice_preserves; [exact P_sentinel|].
  apply store_at_preserves; [|exact H]. apply P_data, white_at_preserved, H.
Qed.

Lemma merge_while_preserves (fuel k : nat) (st : mstate) :
  Forall P (marr st) -> Forall P (marr (merge_while fuel k st)).
Proof.
  revert st. induction fuel as [|f IH]; intros st H; simpl; [exact H|].
  destruct (mergeable _ _); [|exact H]. apply IH, merge_at_preserves, H.
Qed.

Lemma merge_for_preserves (fuel k : nat) (st : mstate) :
  Forall P (marr st) -> Forall P (marr (merge_for fuel k st)).
Proof.
  revert k st. induction fuel as [|f IH]; intros k st H; simpl; [exact H|].
  destruct (_ <? 20000); [|exact H]. apply IH, merge_while_preserves, H.
Qed.

End MergePreserved.

(** No piece has [hasj] set when [white_hash_merge] starts: [add_white]
    clears it and nothing before sets it. *)
Lemma merged_whites_hasj (lines : list linerec) (i : nat) :
  hasj (white_at (marr (merged_whites lines)) i) = false.
Proof.
  apply (white_at_preserved (fun w => hasj w = false)); [reflexivity|].
  unfold merged_whites, merge_pass.
  apply merge_for_preserves; [auto|reflexivity|]. cbn [marr].
  apply (Permutation_Forall (Permutation_sym (insertion_sort_permutation _ _))).
  unfold patched_whites.
  apply close_whites_preserves; [auto|reflexivity|]. cbn [cwhites].
  apply norm_whites_preserves; [reflexivity|constructor].
Qed.

(** The junctions [init_walls] has found are distinct and lie left of the
    sentinel, where the end points of the walls do. *)
Lemma sorted_junctions_distinct (lines : list linerec) :
  Forall JunctionFinder.coord_ok (endpoints lines) ->
  Forall (fun p => fst p < 20000) (endpoints lines) ->
  let js := sort_junctions (JunctionFinder.find_junctions lines) in
  Forall (fun e => jx e < 20000) js /\ NoDup js.
Proof.
  intros Hok Hx js.
  assert (Permutation (JunctionFinder.find_junctions lines) js) as Hperm
    by apply Permutation_sym, insertion_sort_permutation.
  split.
  - apply (Permutation_Forall Hperm). apply Forall_forall. intros j Hj.
    unfold JunctionFinder.find_junctions in Hj. rewrite JunctionFacts.pass_fold in Hj.
    apply JunctionFacts.fold_junction_is_point in Hj. destruct Hj as [[]|Hj].
    rewrite Forall_forall in Hx. apply (Hx _ Hj).
  - apply (Permutation_NoDup Hperm).
    assert (JunctionFacts.apart (JunctionFinder.find_junctions lines)) as Hap.
    { unfold JunctionFinder.find_junctions. rewrite JunctionFacts.pass_fold.
      apply JunctionFacts.apart_fold; [exact Hok|apply JunctionFacts.apart_nil]. }
    apply (proj2 (NoDup_nth_error _)). intros i k Hi E.
    destruct (Nat.lt_total i k) as [Hlt|[Heq|Hgt]]; [exfalso|exact Heq|exfalso].
    + destruct (nth_error (JunctionFinder.find_junctions lines) i) as [a|] eqn:Ea;
        [|apply nth_error_None in Ea; lia].
      pose proof (Hap i k a a Hlt Ea (eq_sym E)) as Hb.
      unfold JunctionFinder.beyond3 in Hb. lia.
    + destruct (nth_error (JunctionFinder.find_junctions lines) i) as [a|] eqn:Ea;
        [|apply nth_error_None in Ea; lia].
      pose proof (Hap k i a a Hgt (eq_sym E) Ea) as Hb.
      unfold JunctionFinder.beyond3 in Hb. lia.
Qed.

(** C5: after [init_walls], no two pieces with [hasj] set have the same
    [(x, y)]; each of them lies on a junction [init_walls] had found and
    [white_hash_merge] has removed from the junction array, so a junction
    is consumed by one overlay at most. *)
Theorem junctions_consumed_once (ext : externs) (lines : list linerec) :
  Int.in_int16 (worldwidth ext - 8) -> worldwidth ext - 8 <= 20000 ->
  Forall JunctionFinder.coord_ok (endpoints lines) ->
  Forall (fun p => fst p < 20000) (endpoints lines) ->
  let final := pstate (init_walls ext lines) in
  let piece i := white_at (marr (hwhites final)) i in
  (forall i i', i <> i' -> hasj (piece i) = true -> hasj (piece i') = true ->
     (wx (piece i), wy (piece i)) <> (wx (piece i'), wy (piece i'))) /\
  (forall i, hasj (piece i) = true ->
     In (junction_of (piece i)) (sort_junctions (JunctionFinder.find_junctions lines)) /\
     ~ In (junction_of (piece i)) (junctions final)).
Proof.
  intros Hww Hww' Hok Hx.
  destruct (sorted_junctions_distinct lines Hok Hx) as [Hlive Hnodup].
  unfold init_walls, init_whites. cbn [pstate].
  apply hash_merge_consumes_once; try assumption.
  apply merged_whites_hasj.
Qed.

(** ** close_whites on a wall that stands alone *)

(** What [close_whites] leaves of a wall as it finds it: all but [h1] and
    [h2]. *)
Definition geometry (l : linerec) : Z * Z * Z * Z * Z * Z * Z :=
  (ltype l, startx l, starty l, endx l, endy l, length l, newtype l).

Lemma geometry_endpoint (a b : linerec) (i : bool) :
  geometry a = geometry b -> endpoint a i = endpoint b i.
Proof.
  unfold geometry, endpoint. intros H. injection H as _ -> -> -> -> _ _.
  reflexivity.
Qed.

Lemma geometry_newtype (a b : linerec) : geometry a = geometry b -> newtype a = newtype b.
Proof. unfold geometry. intros H. injection H. auto. Qed.

Lemma one_close_geometry (ws : list whiterec) (line line2 : linerec) (n m : bool) :
  geometry (snd (one_close ws line line2 n m)) = geometry line.
Proof.
  unfold one_close.
  repeat first [ reflexivity
               | match goal with |- context [if ?x then _ else _] => destruct x end
               | progress cbn [snd] ].
Qed.

(** The two ends of one wall never make a patch: seen from its two ends a
    wall has opposite directions, and no rule pairs a direction with its
    opposite. *)
Lemma one_close_self (ws : list whiterec) (line line2 : linerec) (n m : bool) :
  1 <= newtype line <= 8 -> newtype line2 = newtype line ->
  one_close ws line line2 n m = (ws, line).
Proof.
  intros Ht E. unfold one_close, direction. rewrite E.
  assert (newtype line = 1 \/ newtype line = 2 \/ newtype line = 3 \/ newtype line = 4 \/
          newtype line = 5 \/ newtype line = 6 \/ newtype line = 7 \/ newtype line = 8)
    as Hcases by lia.
  destruct n, m;
    decompose [or] Hcases; clear Hcases;
    match goal with H : newtype line = _ |- _ => rewrite H end; reflexivity.
Qed.

Lemma store_at_same {A : Type} (k : nat) (v : A) (arr : list A) :
  nth_error arr k = Some v -> store_at k v arr = arr.
Proof.
  revert k. induction arr as [|a rest IH]; intros [|k] H; simpl in *; try discriminate.
  - injection H as ->. reflexivity.
  - rewrite IH by exact H. reflexivity.
Qed.

Lemma map_store_at {A B : Type} (f : A -> B) (k : nat) (v : A) (arr : list A) :
  (forall a, nth_error arr k = Some a -> f v = f a) ->
  map f (store_at k v arr) = map f arr.
Proof.
  revert k. induction arr as [|a rest IH]; intros [|k] H; simpl in *; try reflexivity.
  - rewrite (H a eq_refl). reflexivity.
  - rewrite IH by exact H. reflexivity.
Qed.

(** The 6 by 6 box of [close_whites] is the set of points at most 2 pixels
    away on both axes. *)
Definition boxed (p q : Z * Z) : Prop :=
  Z.abs (fst p - fst q) <= 2 /\ Z.abs (snd p - snd q) <= 2.

Lemma in_box_boxed (p q : Z * Z) :
  JunctionFinder.coord_ok q -> in_box p q = true <-> boxed p q.
Proof.
  unfold JunctionFinder.coord_ok, in_box, boxed. destruct p as [x1 y1], q as [x2 y2]; simpl.
  intros [Hx Hy]. int16_simpl.
  rewrite !andb_true_iff, !Z.gtb_lt, !Z.ltb_lt. lia.
Qed.

Section Alone.

Variable lines : list linerec.
Variable k : nat.
Variable line : linerec.
Hypothesis line_k : nth_error lines k = Some line.
Hypothesis line_direction : 1 <= newtype line <= 8.
Hypothesis lines_ok :
  forall k2 line2 j, nth_error lines k2 = Some line2 ->
    JunctionFinder.coord_ok (endpoint line2 j).
Hypothesis alone :
  forall k2 line2 i j, k2 <> k -> nth_error lines k2 = Some line2 ->
    ~ boxed (endpoint line i) (endpoint line2 j).

(** The states [close_whites] passes through: the walls of [lines], with
    whatever [h1], [h2] and pieces. *)
Definition same_walls (st : cstate) : Prop :=
  map geometry (clines st) = map geometry lines.

Lemma same_walls_nth (st : cstate) (k2 : nat) (l2 : linerec) :
  same_walls st -> nth_error (clines st) k2 = Some l2 ->
  exists l2', nth_error lines k2 = Some l2' /\ geometry l2 = geometry l2'.
Proof.
  intros Hs H. pose proof (map_nth_error geometry _ _ H) as Hm.
  rewrite Hs in Hm. rewrite nth_error_map in Hm.
  destruct (nth_error lines k2) as [l2'|]; [|discriminate].
  exists l2'. split; [reflexivity|]. simpl in Hm. congruence.
Qed.

(** A pair of end points with an end of the wall that stands alone in the
    first place comes to nothing. *)
Lemma close_pair_alone (k2 : nat) (i j : bool) (st : cstate) :
  same_walls st -> close_pair k k2 i j st = st.
Proof.
  intros Hs. unfold close_pair.
  destruct (nth_error (clines st) k) as [l|] eqn:El; [|reflexivity].
  destruct (nth_error (clines st) k2) as [l2|] eqn:El2; [|reflexivity].
  destruct (same_walls_nth st k l Hs El) as [l' [El' Gl]].
  destruct (same_walls_nth st k2 l2 Hs El2) as [l2' [El2' Gl2]].
  assert (l' = line) by congruence. subst l'.
  destruct (in_box (endpoint l i) (endpoint l2 j)) eqn:Ebox; [|reflexivity].
  destruct (Nat.eq_dec k2 k) as [->|Hne].
  - assert (l2 = l) by congruence. subst l2.
    rewrite one_close_self;
      [|rewrite (geometry_newtype _ _ Gl); exact line_direction|reflexivity].
    cbn [fst snd]. rewrite (store_at_same k l (clines st) El).
    destruct st; reflexivity.
  - exfalso. apply (alone k2 l2' i j Hne El2').
    rewrite <- (geometry_endpoint _ _ i Gl), <- (geometry_endpoint _ _ j Gl2).
    apply in_box_boxed; [|exact Ebox].
    rewrite (geometry_endpoint _ _ j Gl2). apply (lines_ok k2 l2' j El2').
Qed.

Lemma close_scan_alone (fuel : nat) (i : bool) (k2 : nat) (st : cstate) :
  same_walls st -> close_scan fuel k i k2 st = st.
Proof.
  intros Hs. revert k2. induction fuel as [|f IH]; intros k2; simpl; [reflexivity|].
  destruct (nth_error (clines st) k); [|reflexivity].
  destruct (nth_error (clines st) k2); [|reflexivity].
  destruct (_ <? _); [|reflexivity].
  rewrite (close_pair_alone k2 i false st Hs), (close_pair_alone k2 i true st Hs).
  apply IH.
Qed.

(** The turn of the main loop for the wall leaves the lines and the pieces
    as they are. *)
Lemma close_line_alone (first : nat) (st : cstate) :
  same_walls st -> snd (close_line k first st) = st.
Proof.
  intros Hs. unfold close_line.
  destruct (nth_error (clines st) k); [|reflexivity]. cbn [snd].
  match goal with |- close_scan ?f k true ?p (close_scan ?f k false ?p st) = st =>
    rewrite (close_scan_alone f false p st Hs), (close_scan_alone f true p st Hs)
  end.
  reflexivity.
Qed.

(** The turns for the other walls leave the record of the wall. *)
Lemma close_pair_other (k1 k2 : nat) (i j : bool) (st : cstate) :
  k1 <> k -> same_walls st ->
  same_walls (close_pair k1 k2 i j st) /\
  nth_error (clines (close_pair k1 k2 i j st)) k = nth_error (clines st) k.
Proof.
  intros Hne Hs. unfold close_pair.
  destruct (nth_error (clines st) k1) as [l|] eqn:El; [|split; [exact Hs|reflexivity]].
  destruct (nth_error (clines st) k2) as [l2|]; [|split; [exact Hs|reflexivity]].
  destruct (in_box _ _); [|split; [exact Hs|reflexivity]].
  cbn [clines]. split.
  - unfold same_walls. cbn [clines]. rewrite map_store_at; [exact Hs|].
    intros a Ha. rewrite one_close_geometry. congruence.
  - apply nth_error_store_at_ne. auto.
Qed.

Lemma close_scan_other (fuel k1 : nat) (i : bool) (k2 : nat) (st : cstate) :
  k1 <> k -> same_walls st ->
  same_walls (close_scan fuel k1 i k2 st) /\
  nth_error (clines (close_scan fuel k1 i k2 st)) k = nth_error (clines st) k.
Proof.
  intros Hne. revert k2 st. induction fuel as [|f IH]; intros k2 st Hs; simpl;
    [split; [exact Hs|reflexivity]|].
  destruct (nth_error (clines st) k1); [|split; [exact Hs|reflexivity]].
  destruct (nth_error (clines st) k2); [|split; [exact Hs|reflexivity]].
  destruct (_ <? _); [|split; [exact Hs|reflexivity]].
  destruct (close_pair_other k1 k2 i false st Hne Hs) as [Hs1 E1].
  destruct (close_pair_other k1 k2 i true _ Hne Hs1) as [Hs2 E2].
  destruct (IH (S k2) _ Hs2) as [Hs3 E3].
  split; [exact Hs3|]. congruence.
Qed.

Lemma close_line_keeps (k1 first : nat) (st : cstate) :
  same_walls st ->
  same_walls (snd (close_line k1 first st)) /\
  nth_error (clines (snd (close_line k1 first st))) k = nth_error (clines st) k.
Proof.
  intros Hs. destruct (Nat.eq_dec k1 k) as [->|Hne].
  - rewrite close_line_alone by exact Hs. split; [exact Hs|reflexivity].
  - unfold close_line.
    destruct (nth_error (clines st) k1); [|split; [exact Hs|reflexivity]]. cbn [snd].
    match goal with |- context [close_scan ?f k1 true ?p (close_scan ?f k1 false ?p st)] =>
      destruct (close_scan_other f k1 false p st Hne Hs) as [Hs1 E1];
      destruct (close_scan_other f k1 true p _ Hne Hs1) as [Hs2 E2]
    end.
    split; [exact Hs2|]. congruence.
Qed.

Lemma close_lines_keeps (fuel k1 first : nat) (st : cstate) :
  same_walls st ->
  nth_error (clines (close_lines fuel k1 first st)) k = nth_error (clines st) k.
Proof.
  revert k1 first st. induction fuel as [|f IH]; intros k1 first st Hs; simpl;
    [reflexivity|].
  destruct (nth_error (clines st) k1) as [l|]; [|reflexivity].
  destruct (ltype l =? 0); [reflexivity|].
  destruct (close_line_keeps k1 first st Hs) as [Hs1 E1].
  rewrite IH by exact Hs1. exact E1.
Qed.

End Alone.

(** The wall of index [k] is one of the walls of the array: no record up
    to it ends the array. *)
Definition is_wall (lines : list linerec) (k : nat) : Prop :=
  forall i l, (i <= k)%nat -> nth_error lines i = Some l -> ltype l <> 0.

Lemma default_hs_geometry (lines : list linerec) :
  map geometry (default_hs lines) = map geometry lines.
Proof.
  induction lines as [|l rest IH]; simpl; [reflexivity|].
  destruct (ltype l =? 0); [reflexivity|]. simpl. rewrite IH. reflexivity.
Qed.

Lemma default_hs_nth (lines : list linerec) (k : nat) (line : linerec) :
  is_wall lines k -> nth_error lines k = Some line ->
  nth_error (default_hs lines) k = Some (default_h line).
Proof.
  revert k. induction lines as [|l rest IH]; intros k Hw Hk; [destruct k; discriminate|].
  simpl. destruct (Z.eqb_spec (ltype l) 0) as [E|E].
  - exfalso. apply (Hw O l (Nat.le_0_l k) eq_refl E).
  - destruct k as [|k]; simpl in *.
    + injection Hk as ->. reflexivity.
    + apply IH; [|exact Hk]. intros i l' Hi Hl'. apply (Hw (S i) l'); [lia|exact Hl'].
Qed.

(** The pieces of the two ends of a wall, as [whitepicts] gives them: 6
    rows each; the table has no piece for the start of an ESE wall. *)
Definition endpoint_pieces (line : linerec) : list whiterec :=
  match whitepict (newtype line) false with
  | Some pic => [mkwhite (startx line) (starty line) false 6 (Static pic)]
  | None => []
  end ++
  match whitepict (newtype line) true with
  | Some pic => [mkwhite (endx line) (endy line) false 6 (Static pic)]
  | None => []
  end.

(** The pieces [norm_whites] adds for the three directions that need
    them, at fixed offsets from an end of the wall. *)
Definition glitch_pieces (line : linerec) : list whiterec :=
  if newtype line =? NEW_NE then
    [mkwhite (endx line -i 4) (endy line +i 2) false 4 (Static neglitch)]
  else if newtype line =? NEW_ENE then
    [mkwhite (startx line +i 16) (starty line) false 3 (Static eneglitch1);
     mkwhite (endx line -i 10) (endy line +i 1) false 5 (Static eneglitch2)]
  else if newtype line =? NEW_ESE then
    [mkwhite (endx line -i 7) (endy line -i 2) false 4 (Static eseglitch)]
  else [].

Lemma norm_whites_line_pieces (ws : list whiterec) (line : linerec) :
  norm_whites_line ws line = ws ++ endpoint_pieces line ++ glitch_pieces line.
Proof.
  unfold norm_whites_line, endpoint_pieces, glitch_pieces, add_white.
  destruct (whitepict (newtype line) false), (whitepict (newtype line) true);
    destruct (newtype line =? NEW_NE), (newtype line =? NEW_ENE), (newtype line =? NEW_ESE);
    simpl; rewrite <- ?app_assoc; simpl; rewrite ?app_nil_r; reflexivity.
Qed.

Lemma endpoint_pieces_two (line : linerec) :
  1 <= newtype line <= 8 -> newtype line <> NEW_ESE ->
  exists top bottom,
    endpoint_pieces line
    = [mkwhite (startx line) (starty line) false 6 (Static top);
       mkwhite (endx line) (endy line) false 6 (Static bottom)].
Proof.
  intros Ht Hese. unfold endpoint_pieces, NEW_ESE in *.
  assert (newtype line = 1 \/ newtype line = 2 \/ newtype line = 3 \/
          newtype line = 5 \/ newtype line = 6 \/ newtype line = 7 \/ newtype line = 8)
    as Hcases by lia.
  decompose [or] Hcases; clear Hcases;
    match goal with H : newtype line = _ |- _ => rewrite H end;
    simpl; eexists; eexists; reflexivity.
Qed.

(** "Within 6 pixels", on both axes. *)
Definition within6 (p q : Z * Z) : Prop :=
  Z.abs (fst p - fst q) <= 6 /\ Z.abs (snd p - snd q) <= 6.

(** C8 as the specification states it, for the wall of index [k]: its two
    end pieces and nothing else come out of [norm_whites], and
    [close_whites] leaves its bounds at their defaults. *)
Definition two_pieces_and_defaults (lines : list linerec) (k : nat) : Prop :=
  forall line, nth_error lines k = Some line ->
    (forall k2 line2 i j, k2 <> k -> nth_error lines k2 = Some line2 ->
       ~ within6 (endpoint line i) (endpoint line2 j)) ->
    (exists top bottom,
       norm_whites_line [] line
       = [mkwhite (startx line) (starty line) false 6 (Static top);
          mkwhite (endx line) (endy line) false 6 (Static bottom)]) /\
    nth_error (clines (patched_whites lines)) k = Some (default_h line).

(** A Northeast wall with no other wall in the world. *)
Definition lone_northeast : list linerec :=
  [wall 100 100 120 80 20 NEW_NE; end_of_lines].

(** C8 fails for a lone Northeast wall: [norm_whites] gives it a third
    piece, 4 rows of [neglitch] at [(endx - 4, endy + 2)]. *)
Lemma lone_northeast_counterexample : ~ two_pieces_and_defaults lone_northeast 0.
Proof.
  intros H. destruct (H (wall 100 100 120 80 20 NEW_NE) eq_refl) as [[top [bottom E]] _].
  - intros k2 line2 i j Hne Hk2 [Hx _].
    destruct k2 as [|[|k2]]; simpl in Hk2; [congruence| |destruct k2; discriminate].
    injection Hk2 as <-. destruct i, j; simpl in Hx; lia.
  - vm_compute in E. discriminate.
Qed.

(** A South wall with no other wall in the world. *)
Definition lone_south : list linerec :=
  [wall 100 50 100 80 30 NEW_S; end_of_lines].

(** ** Examples of prepared levels *)

(** A world 1000 pixels wide with the two grey patterns as background. *)
Definition small_world : externs := mkexterns 1000 0xAAAAAAAA 0x55555555.

(** A South wall 5 pixels from the left edge of the world. *)
Definition south_at_edge : list linerec :=
  [wall 5 50 5 100 50 NEW_S; end_of_lines].

(** "Within 3 pixels", on both axes. *)
Definition within3_of (w1 w2 : whiterec) : Prop :=
  Z.abs (wx w2 - wx w1) <= 3 /\ Z.abs (wy w2 - wy w1) <= 3.

(** C4 as the specification states it, for the pieces [whs] and the
    junctions [js] that [white_hash_merge] starts with: the pass sets the
    [hasj] flag of a piece if and only if no other piece lies within 3
    pixels of it and its place is that of a junction still in the array
    when the loop comes to the piece. *)
Definition hashed_iff_alone_on_junction (ext : externs) (whs : mstate)
  (js : list junctionrec) (numj : Z) : Prop :=
  forall k, (k < List.length (marr whs))%nat ->
    let w := white_at (marr whs) k in
    wx w < 20000 ->
    hasj (white_at (marr (hwhites (white_hash_merge ext whs js numj))) k) = true <->
    ((forall i, i <> k -> (i < List.length (marr whs))%nat ->
        wx (white_at (marr whs) i) < 20000 -> ~ within3_of w (white_at (marr whs) i)) /\
     In (junction_of w) (junctions (hash_for ext k 0 (mkhstate whs js numj 0)))).

(** C4 fails for the piece of the start (5,50) of [south_at_edge]: the
    only other piece is 50 pixels below and (5,50) is a junction, but the
    piece has [x <= 8] and is not overlaid. *)
Lemma hashed_iff_counterexample :
  ~ hashed_iff_alone_on_junction small_world (merged_whites south_at_edge)
      (sort_junctions (JunctionFinder.find_junctions south_at_edge)) 2.
Proof.
  intros H. specialize (H 0%nat). cbv zeta in H.
  destruct H as [_ H]; [vm_compute; lia|vm_compute; reflexivity|].
  assert (hasj (white_at (marr (hwhites
            (white_hash_merge small_world (merged_whites south_at_edge)
               (sort_junctions (JunctionFinder.find_junctions south_at_edge)) 2))) 0) = true)
    as Habs; [|vm_compute in Habs; discriminate].
  apply H. split.
  - intros i Hne Hi _ [_ Hy]. vm_compute in Hi.
    destruct i as [|[|i]]; [congruence| |lia].
    vm_compute in Hy. apply Hy. reflexivity.
  - vm_compute. left. reflexivity.
Qed.

(** Nor is a piece overlaid that is not 6 rows high: the glitch piece of a
    Northeast wall, alone on the junction an East-southeast wall starts
    at (the table has no piece for that start). *)
Definition northeast_meets_east_southeast : list linerec :=
  [wall 100 100 120 80 20 NEW_NE; wall 116 82 156 102 40 NEW_ESE; end_of_lines].

Lemma glitch_piece_not_hashed :
  let final := pstate (init_walls small_world northeast_meets_east_southeast) in
  let piece := white_at (marr (hwhites final)) 1 in
  (wx piece, wy piece, ht piece, hasj piece) = (116, 82, 4, false) /\
  In (mkjunction 116 82) (junctions final).
Proof. vm_compute. split; [reflexivity|]. left. reflexivity. Qed.

(** The two [while] loops that look for the junction of a piece stop on
    the first junction with the [y] of the piece, also at a smaller [x]:
    the piece of the end (20,50) of an East wall from (5,50) is 6 rows
    high, alone and on the junction (20,50), and is not overlaid, the
    search having stopped on the junction (5,50). *)
Definition east_from_edge : list linerec :=
  [wall 5 50 20 50 15 NEW_E; end_of_lines].

Lemma junction_search_stops_early :
  let final := pstate (init_walls small_world east_from_edge) in
  let piece := white_at (marr (hwhites final)) 1 in
  (wx piece, wy piece, ht piece, hasj piece) = (20, 50, 6, false) /\
  junctions final = [mkjunction 5 50; mkjunction 20 50] /\
  jreg final = 0%nat.
Proof. vm_compute. repeat split. Qed.

(** Closed facts of arithmetic and runs of the model on closed inputs. *)
Ltac by_computation :=
  vm_compute; repeat split; try reflexivity; try (intro; discriminate).

Lemma edge_pieces_not_hashed_witness :
  let whs := merged_whites south_at_edge in
  let js := sort_junctions (JunctionFinder.find_junctions south_at_edge) in
  white_at (marr (hwhites (white_hash_merge small_world whs js 2))) 0
  = white_at (marr whs) 0.
Proof.
  apply (edge_pieces_not_hashed small_world (merged_whites south_at_edge)
           (sort_junctions (JunctionFinder.find_junctions south_at_edge)) 2 0).
  - by_computation.
  - left. by_computation.
Defined.

Lemma junctions_consumed_once_witness :
  let final := pstate (init_walls small_world lone_south) in
  hasj (white_at (marr (hwhites final)) 0) = true /\
  In (junction_of (white_at (marr (hwhites final)) 0))
     (sort_junctions (JunctionFinder.find_junctions lone_south)).
Proof.
  assert (hasj (white_at (marr (hwhites (pstate (init_walls small_world lone_south)))) 0)
          = true) as H0 by by_computation.
  split; [exact H0|].
  apply (junctions_consumed_once small_world lone_south); [| | | |exact H0].
  - by_computation.
  - by_computation.
  - unfold JunctionFinder.coord_ok. repeat constructor; simpl; lia.
  - repeat constructor; simpl; lia.
Defined.

(** ** The pieces white_hash_merge gets are sorted *)

(** Ascending and descending [x]. *)
Definition x_up (p q : whiterec) : Prop := wx p <= wx q.
Definition x_down (p q : whiterec) : Prop := wx q <= wx p.

Lemma sorted_app {A : Type} (R : A -> A -> Prop) (l1 l2 : list A) :
  StronglySorted R l1 -> StronglySorted R l2 ->
  (forall a b, In a l1 -> In b l2 -> R a b) ->
  StronglySorted R (l1 ++ l2).
Proof.
  intros H1 H2 Hcross. induction H1 as [|a l1 Hl1 IH Ha]; simpl; [exact H2|].
  constructor.
  - apply IH. intros a' b Ha' Hb. apply Hcross; [right; exact Ha'|exact Hb].
  - apply Forall_app. split; [exact Ha|].
    apply Forall_forall. intros b Hb. apply Hcross; [left; reflexivity|exact Hb].
Qed.

Lemma sorted_app_inv {A : Type} (R : A -> A -> Prop) (l1 l2 : list A) :
  StronglySorted R (l1 ++ l2) ->
  StronglySorted R l1 /\ StronglySorted R l2 /\
  (forall a b, In a l1 -> In b l2 -> R a b).
Proof.
  induction l1 as [|a l1 IH]; simpl; intros H.
  - split; [constructor|]. split; [exact H|]. intros a b [].
  - apply StronglySorted_inv in H. destruct H as [H Ha].
    destruct (IH H) as [H1 [H2 Hcross]]. apply Forall_app in Ha. destruct Ha as [Ha1 Ha2].
    split; [constructor; assumption|]. split; [exact H2|].
    intros a' b [<-|Ha'] Hb; [|apply Hcross; assumption].
    rewrite Forall_forall in Ha2. apply Ha2, Hb.
Qed.

Lemma sorted_rev (l : list whiterec) :
  StronglySorted x_down l -> StronglySorted x_up (rev l).
Proof.
  induction 1 as [|a l Hl IH Ha]; simpl; [constructor|].
  apply sorted_app; [exact IH|repeat constructor|].
  intros p q Hp [<-|[]]. apply in_rev in Hp.
  rewrite Forall_forall in Ha. apply (Ha p Hp).
Qed.

(** A piece the sort moves towards the front passes pieces with a larger
    or equal [x] only. *)
Lemma sink_sorted (a : whiterec) (left : list whiterec) :
  StronglySorted x_down left -> StronglySorted x_down (sink white_before a left).
Proof.
  induction 1 as [|p rest Hrest IH Hp]; simpl; [repeat constructor|].
  destruct (white_before a p) eqn:E.
  - constructor; [exact IH|].
    apply (Permutation_Forall (Permutation_sym (sink_permutation white_before a rest))).
    constructor; [|exact Hp].
    unfold white_before in E. apply andb_true_iff in E. destruct E as [E _].
    apply Z.leb_le in E. exact E.
  - assert (wx p <= wx a) as Hpa.
    { unfold white_before in E. apply andb_false_iff in E.
      destruct E as [E|E]; [apply Z.leb_gt in E; lia|].
      apply orb_false_iff in E. destruct E as [E _]. apply Z.ltb_ge in E. exact E. }
    constructor; [constructor; assumption|].
    constructor; [exact Hpa|].
    apply Forall_forall. intros q Hq. rewrite Forall_forall in Hp.
    specialize (Hp q Hq). unfold x_down in *. lia.
Qed.

Lemma sort_whites_sorted (ws : list whiterec) : StronglySorted x_up (sort_whites ws).
Proof.
  unfold sort_whites, insertion_sort. apply sorted_rev.
  assert (StronglySorted x_down (@nil whiterec)) as Hacc by constructor.
  revert Hacc. generalize (@nil whiterec) as acc.
  induction ws as [|a ws IH]; intros acc Hacc; simpl; [exact Hacc|].
  apply IH, sink_sorted, Hacc.
Qed.

(** What the splice loop leaves: slots of the array, and the sentinel
    where it ran to the end of a non-empty array of live slots. *)
Lemma shift_down_in (arr : list whiterec) (e : whiterec) :
  In e (shift_down wx sentinel_wh arr) ->
  In e arr \/ (e = sentinel_wh /\ arr <> [] /\ Forall (fun w => wx w < 20000) arr).
Proof.
  induction arr as [|a rest IH]; simpl; [intros []|].
  destruct (wx a <? 20000) eqn:Ea; [|intros H; left; exact H].
  apply Z.ltb_lt in Ea. intros [<-|H].
  - destruct rest as [|b rest]; simpl.
    + right. split; [reflexivity|]. split; [discriminate|]. repeat constructor. exact Ea.
    + left. right. left. reflexivity.
  - destruct (IH H) as [Hin|[-> [_ Hlive]]].
    + left. right. exact Hin.
    + right. split; [reflexivity|]. split; [discriminate|]. constructor; assumption.
Qed.

Lemma shift_down_sorted (arr : list whiterec) :
  StronglySorted x_up arr -> StronglySorted x_up (shift_down wx sentinel_wh arr).
Proof.
  induction 1 as [|a rest Hrest IH Ha]; simpl; [constructor|].
  destruct (wx a <? 20000) eqn:Ea; [|constructor; assumption].
  constructor; [exact IH|].
  apply Forall_forall. intros e He. apply shift_down_in in He.
  destruct rest as [|b rest]; [destruct He as [[]|[_ [Hne _]]]; congruence|].
  simpl. apply StronglySorted_inv in Hrest. destruct Hrest as [_ Hb].
  destruct He as [[<-|He]|[-> [_ Hlive]]].
  - unfold x_up. lia.
  - rewrite Forall_forall in Hb. apply Hb, He.
  - inversion Hlive; subst. unfold x_up. simpl. lia.
Qed.

Lemma splice_sorted (p : nat) (arr : list whiterec) :
  StronglySorted x_up arr -> StronglySorted x_up (splice wx sentinel_wh p arr).
Proof.
  intros H. unfold splice. rewrite <- (firstn_skipn p arr) in H.
  apply sorted_app_inv in H. destruct H as [H1 [H2 Hcross]].
  apply sorted_app; [exact H1|apply shift_down_sorted, H2|].
  intros a e Ha He. apply shift_down_in in He.
  destruct He as [He|[-> [Hne Hlive]]]; [apply Hcross; assumption|].
  destruct (skipn p arr) as [|b rest]; [congruence|].
  pose proof (Hcross a b Ha (or_introl eq_refl)) as Hab.
  inversion Hlive; subst. unfold x_up in *. simpl. lia.
Qed.

Lemma sorted_map_wx (arr : list whiterec) :
  StronglySorted x_up arr <-> StronglySorted Z.le (map wx arr).
Proof.
  induction arr as [|a rest IH]; simpl; [split; constructor|].
  split; intros H; apply StronglySorted_inv in H; destruct H as [H Ha];
    (constructor; [apply IH, H|]).
  - rewrite Forall_forall in *. intros x Hx. apply in_map_iff in Hx.
    destruct Hx as [q [<- Hq]]. apply (Ha q Hq).
  - rewrite Forall_forall in *. intros q Hq. apply (Ha (wx q)).
    apply in_map, Hq.
Qed.

Lemma merge_at_sorted (k : nat) (st : mstate) :
  StronglySorted x_up (marr st) -> StronglySorted x_up (marr (merge_at k st)).
Proof.
  intros H. unfold merge_at. cbn [marr]. apply splice_sorted.
  apply sorted_map_wx. rewrite map_store_at; [apply sorted_map_wx, H|].
  intros a Ha. unfold white_at. rewrite (nth_error_nth _ _ _ Ha). reflexivity.
Qed.

Lemma merge_while_sorted (fuel k : nat) (st : mstate) :
  StronglySorted x_up (marr st) -> StronglySorted x_up (marr (merge_while fuel k st)).
Proof.
  revert st. induction fuel as [|f IH]; intros st H; simpl; [exact H|].
  destruct (mergeable _ _); [|exact H]. apply IH, merge_at_sorted, H.
Qed.

Lemma merge_for_sorted (fuel k : nat) (st : mstate) :
  StronglySorted x_up (marr st) -> StronglySorted x_up (marr (merge_for fuel k st)).
Proof.
  revert k st. induction fuel as [|f IH]; intros k st H; simpl; [exact H|].
  destruct (_ <? 20000); [|exact H]. apply IH, merge_while_sorted, H.
Qed.

Lemma sorted_by_index (arr : list whiterec) : StronglySorted x_up arr -> sorted_x arr.
Proof.
  induction 1 as [|a rest Hrest IH Ha]; intros i j Hij Hj; simpl in Hj; [lia|].
  unfold white_at. destruct j as [|j]; [replace i with O by lia; simpl; lia|].
  destruct i as [|i]; simpl.
  - rewrite Forall_forall in Ha. apply Ha, nth_In. lia.
  - apply (IH i j); lia.
Qed.

(** [init_whites] hands [white_hash_merge] an array sorted by [x]. *)
Lemma merged_whites_sorted (lines : list linerec) : sorted_x (marr (merged_whites lines)).
Proof.
  apply sorted_by_index. unfold merged_whites, merge_pass.
  apply merge_for_sorted. cbn [marr]. apply sort_whites_sorted.
Qed.

(** C4 (amended): after [init_walls], a piece with its [hasj] flag set has
    height 6 and [8 < x < worldwidth - 8], no other piece lies less than 3
    pixels from it on both axes, and its [(x, y)] is that of a junction
    that was still in the junction array when the loop of
    [white_hash_merge] reached the piece; the rows that turn of the loop
    gave it are [(back & (~row | hash)) ^ hash], [back] rotated by one bit
    from row to row. *)
Theorem hashed_pieces (ext : externs) (lines : list linerec) (k : nat) :
  Int.in_int16 (worldwidth ext - 8) -> worldwidth ext - 8 <= 20000 ->
  let whs := merged_whites lines in
  let js := sort_junctions (JunctionFinder.find_junctions lines) in
  let start := mkhstate whs js (Z.of_nat (List.length js)) 0 in
  let w := white_at (marr whs) k in
  white_ok w ->
  hasj (white_at (marr (hwhites (pstate (init_walls ext lines)))) k) = true ->
  let reached := hash_for ext k 0 start in
  let turned := hash_piece ext k reached in
  ht w = 6 /\ 8 < wx w < worldwidth ext - 8 /\
  (forall i, i <> k -> (i < List.length (marr whs))%nat ->
     ~ close_to w (white_at (marr whs) i)) /\
  In (junction_of w) (junctions reached) /\
  white_at (marr (hwhites reached)) k = w /\
  (forall t, (t < 6)%nat ->
     row (mstore (hwhites turned)) (data (white_at (marr (hwhites turned)) k)) t
     = Z.lxor (Z.land (Nat.iter t rol16 (hash_back ext w))
                 (Z.lor (Z.lnot (row (mstore (hwhites reached)) (data w) t))
                        (nth t hash_figure 0)))
              (nth t hash_figure 0)).
Proof.
  intros Hww Hww' whs js start w Hok Hfinal.
  apply (hash_merge_overlaid ext whs js (Z.of_nat (List.length js)) k Hww Hww'
           (merged_whites_sorted lines) Hok (merged_whites_hasj lines k) Hfinal).
Qed.

Lemma hashed_pieces_witness :
  let whs := merged_whites lone_south in
  ht (white_at (marr whs) 0) = 6 /\
  8 < wx (white_at (marr whs) 0) < worldwidth small_world - 8.
Proof.
  pose proof (hashed_pieces small_world lone_south 0) as H.
  destruct H as [H1 [H2 _]].
  - by_computation.
  - by_computation.
  - by_computation.
  - by_computation.
  - split; [exact H1|exact H2].
Defined.

(** * More of the file *)

(** ** The two insertion sorts *)

Section InsertionSort.
Context {A : Type}.
Variable before : A -> A -> bool.
Variable le : A -> A -> Prop.
Hypothesis le_trans : forall a b c, le a b -> le b c -> le a c.
Hypothesis before_le : forall a p, before a p = true -> le a p.
Hypothesis not_before_le : forall a p, before a p = false -> le p a.

Lemma sink_descending (a : A) (left : list A) :
  StronglySorted (fun p q => le q p) left ->
  StronglySorted (fun p q => le q p) (sink before a left).
Proof.
  induction 1 as [|p rest Hrest IH Hp]; simpl; [repeat constructor|].
  destruct (before a p) eqn:E.
  - constructor; [exact IH|].
    apply (Permutation_Forall (Permutation_sym (sink_permutation before a rest))).
    constructor; [apply before_le, E|exact Hp].
  - constructor; [constructor; assumption|].
    constructor; [apply not_before_le, E|].
    apply Forall_forall. intros q Hq. rewrite Forall_forall in Hp.
    apply (le_trans q p a); [apply Hp, Hq|apply not_before_le, E].
Qed.

Lemma rev_ascending (l : list A) :
  StronglySorted (fun p q => le q p) l -> StronglySorted le (rev l).
Proof.
  induction 1 as [|a l Hl IH Ha]; simpl; [constructor|].
  apply sorted_app; [exact IH|repeat constructor|].
  intros p q Hp [<-|[]]. apply in_rev in Hp.
  rewrite Forall_forall in Ha. apply (Ha p Hp).
Qed.

Lemma insertion_sort_ascending (arr : list A) :
  StronglySorted le (insertion_sort before arr).
Proof.
  unfold insertion_sort. apply rev_ascending.
  assert (StronglySorted (fun p q => le q p) (@nil A)) as Hacc by constructor.
  revert Hacc. generalize (@nil A) as acc.
  induction arr as [|a arr IH]; intros acc Hacc; simpl; [exact Hacc|].
  apply IH, sink_descending, Hacc.
Qed.

(** Elements the sort does not tell apart keep their order: [same] picks
    a class of elements no two of which are swapped. *)
Variable same : A -> bool.
Hypothesis before_apart : forall a p, before a p = true -> same a = true -> same p = false.

Lemma sink_keeps_order (a : A) (left : list A) :
  filter same (sink before a left) = filter same (a :: left).
Proof.
  induction left as [|p rest IH]; [reflexivity|].
  simpl sink. destruct (before a p) eqn:E; [|reflexivity].
  simpl. rewrite IH. simpl.
  destruct (same a) eqn:Ea; [|reflexivity].
  rewrite (before_apart a p E Ea). reflexivity.
Qed.

Lemma insertion_sort_stable (arr : list A) :
  filter same (insertion_sort before arr) = filter same arr.
Proof.
  unfold insertion_sort.
  assert (forall acc,
            filter same (rev (fold_left (fun left a => sink before a left) arr acc))
            = filter same (rev acc ++ arr)) as H.
  { induction arr as [|a arr IH]; intros acc; simpl.
    - rewrite app_nil_r. reflexivity.
    - rewrite IH. rewrite !filter_app, !filter_rev, sink_keeps_order.
      simpl. destruct (same a); simpl; rewrite <- ?app_assoc; reflexivity. }
  apply (H []).
Qed.

End InsertionSort.

Lemma sort_junctions_ascending (js : list junctionrec) :
  StronglySorted (fun a b => jx a <= jx b) (sort_junctions js).
Proof.
  apply (insertion_sort_ascending junction_before (fun a b => jx a <= jx b)).
  - intros a b c. lia.
  - unfold junction_before. intros a p H. apply Z.ltb_lt in H. lia.
  - unfold junction_before. intros a p H. apply Z.ltb_ge in H. exact H.
Qed.

(** X1: Step 4 of [init_walls] leaves the junctions it found, each once, in
    ascending [x]; junctions with the same [x] keep the order step 3 found
    them in. *)
Theorem sort_junctions_sorted (js : list junctionrec) :
  StronglySorted (fun a b => jx a <= jx b) (sort_junctions js) /\
  Permutation (sort_junctions js) js /\
  forall x, filter (fun j => jx j =? x) (sort_junctions js)
            = filter (fun j => jx j =? x) js.
Proof.
  split; [apply sort_junctions_ascending|]. split.
  - apply insertion_sort_permutation.
  - intros x. apply insertion_sort_stable.
    unfold junction_before. intros a p H Ha.
    apply Z.ltb_lt in H. apply Z.eqb_eq in Ha. apply Z.eqb_neq. lia.
Qed.

(** The order of the sort of [init_whites]: by [x], then by [y]. *)
Definition place_le (a b : whiterec) : Prop :=
  wx a < wx b \/ (wx a = wx b /\ wy a <= wy b).

(** X2: The sort of [init_whites] leaves the pieces it got, each once, in
    ascending [(x, y)]; pieces at the same place keep the order they were
    added in. *)
Theorem sort_whites_sorted_by_place (ws : list whiterec) :
  StronglySorted place_le (sort_whites ws) /\
  Permutation (sort_whites ws) ws /\
  forall x y, filter (fun w => (wx w =? x) && (wy w =? y)) (sort_whites ws)
              = filter (fun w => (wx w =? x) && (wy w =? y)) ws.
Proof.
  split; [|split].
  - apply (insertion_sort_ascending white_before place_le).
    + unfold place_le. intros a b c. lia.
    + unfold white_before, place_le. intros a p H.
      apply andb_true_iff in H. destruct H as [H1 H2]. apply Z.leb_le in H1.
      apply orb_true_iff in H2. rewrite !Z.ltb_lt in H2. lia.
    + unfold white_before, place_le. intros a p H.
      apply andb_false_iff in H. rewrite orb_false_iff, Z.leb_gt, !Z.ltb_ge in H. lia.
  - apply insertion_sort_permutation.
  - intros x y. apply insertion_sort_stable.
    unfold white_before. intros a p H Ha.
    apply andb_true_iff in H. destruct H as [H1 H2]. apply Z.leb_le in H1.
    apply orb_true_iff in H2. rewrite !Z.ltb_lt in H2.
    apply andb_true_iff in Ha. rewrite !Z.eqb_eq in Ha.
    apply andb_false_iff. rewrite !Z.eqb_neq. lia.
Qed.

(** ** The size of the junction array *)

Lemma add_endpoint_length (js : list junctionrec) (p : Z * Z) :
  (List.length (JunctionFinder.add_endpoint js p) <= S (List.length js))%nat.
Proof.
  unfold JunctionFinder.add_endpoint. destruct (JunctionFinder.scan js p); [lia|].
  rewrite length_app. simpl. lia.
Qed.

Lemma fold_add_endpoint_length (pts : list (Z * Z)) (js : list junctionrec) :
  (List.length (fold_left JunctionFinder.add_endpoint pts js)
   <= List.length js + List.length pts)%nat.
Proof.
  revert js. induction pts as [|p pts IH]; intros js; simpl; [lia|].
  etransitivity; [apply IH|]. pose proof (add_endpoint_length js p). lia.
Qed.

Lemma endpoints_length (lines : list linerec) :
  List.length (endpoints lines) = (2 * List.length (walls lines))%nat.
Proof.
  unfold endpoints. induction (walls lines) as [|l rest IH]; [reflexivity|].
  cbn [flat_map app List.length]. rewrite IH. lia.
Qed.

(** A junction, once found, keeps its slot while the later end points are
    looked at. *)
Lemma fold_add_endpoint_keeps (pts : list (Z * Z)) (js : list junctionrec) (i : nat)
  (j : junctionrec) :
  nth_error js i = Some j ->
  nth_error (fold_left JunctionFinder.add_endpoint pts js) i = Some j.
Proof.
  revert js. induction pts as [|p pts IH]; intros js H; simpl; [exact H|].
  apply IH. unfold JunctionFinder.add_endpoint.
  destruct (JunctionFinder.scan js p); [exact H|].
  rewrite nth_error_app1; [exact H|]. apply nth_error_Some. congruence.
Qed.

(** X3: Step 3 of [init_walls] finds at most two junctions per wall, so the
    array of [NUMLINES*2+20] slots holds them; every junction is an end
    point of a wall; and where there is a wall, the start of the first one
    is the first junction. *)
Theorem find_junctions_bounds (lines : list linerec) :
  let js := JunctionFinder.find_junctions lines in
  (List.length js <= 2 * List.length (walls lines))%nat /\
  (forall j, In j js -> In (JunctionFinder.jpoint j) (endpoints lines)) /\
  (forall l rest, walls lines = l :: rest ->
     nth_error js 0 = Some (mkjunction (startx l) (starty l))).
Proof.
  intros js. subst js. unfold JunctionFinder.find_junctions.
  rewrite JunctionFacts.pass_fold. split; [|split].
  - rewrite <- endpoints_length. apply (fold_add_endpoint_length (endpoints lines) []).
  - intros j Hj. apply JunctionFacts.fold_junction_is_point in Hj.
    destruct Hj as [[]|Hj]. exact Hj.
  - intros l rest Hw. unfold endpoints. rewrite Hw.
    cbn [flat_map app fold_left].
    apply (fold_add_endpoint_keeps _ _ 0%nat).
    apply (fold_add_endpoint_keeps [endpoint l true] _ 0%nat). reflexivity.
Qed.

(** ** The pieces of norm_whites *)

Lemma norm_whites_pieces (lines : list linerec) (ws : list whiterec) :
  norm_whites lines ws
  = ws ++ flat_map (fun l => endpoint_pieces l ++ glitch_pieces l) (walls lines).
Proof.
  revert ws. induction lines as [|l rest IH]; intros ws; simpl.
  - rewrite app_nil_r. reflexivity.
  - destruct (ltype l =? 0); simpl; [rewrite app_nil_r; reflexivity|].
    rewrite IH, norm_whites_line_pieces, <- !app_assoc. reflexivity.
Qed.

(** A piece whose rows are a table of the file, as many as its height. *)
Definition table_piece (w : whiterec) : Prop :=
  exists table, data w = Static table /\ Z.of_nat (List.length table) = ht w.

Lemma whitepict_rows (t : Z) (i : bool) (pic : list Z) :
  whitepict t i = Some pic -> List.length pic = 6%nat.
Proof.
  unfold whitepict. generalize (Z.to_nat t) as n. intros n.
  do 9 (destruct n as [|n];
        [destruct i; simpl; intros H; try discriminate; injection H as <-; reflexivity|]).
  destruct i; simpl; destruct n; discriminate.
Qed.

Ltac table_piece_ok :=
  split; [reflexivity|];
  split; [simpl; lia|];
  eexists; split; [reflexivity|]; cbn [ht];
  first [ reflexivity
        | match goal with
          | H : List.length ?t = _ |- context [List.length ?t] => rewrite H; reflexivity
          end ].

Lemma norm_pieces_of_wall (l : linerec) :
  (List.length (endpoint_pieces l ++ glitch_pieces l) <= 4)%nat /\
  Forall (fun w => hasj w = false /\ 3 <= ht w <= 6 /\ table_piece w)
         (endpoint_pieces l ++ glitch_pieces l).
Proof.
  unfold endpoint_pieces, glitch_pieces, table_piece.
  destruct (whitepict (newtype l) false) as [p0|] eqn:E0;
    destruct (whitepict (newtype l) true) as [p1|] eqn:E1;
    try (pose proof (whitepict_rows _ _ _ E0) as L0);
    try (pose proof (whitepict_rows _ _ _ E1) as L1);
    destruct (newtype l =? NEW_NE), (newtype l =? NEW_ENE), (newtype l =? NEW_ESE);
    (split; [simpl; lia|]);
    cbn [app];
    repeat (apply Forall_cons; [table_piece_ok|]); apply Forall_nil.
Qed.

(** X4: [norm_whites] keeps the pieces it finds and adds at most four per
    wall; each piece it adds has [hasj] clear, a height from 3 to 6 and a
    table of exactly that many rows. *)
Theorem norm_whites_bounds (lines : list linerec) (ws : list whiterec) :
  firstn (List.length ws) (norm_whites lines ws) = ws /\
  (List.length (norm_whites lines ws) <= List.length ws + 4 * List.length (walls lines))%nat /\
  Forall (fun w => hasj w = false /\ 3 <= ht w <= 6 /\ table_piece w)
         (skipn (List.length ws) (norm_whites lines ws)).
Proof.
  rewrite norm_whites_pieces. split; [|split].
  - rewrite firstn_app, Nat.sub_diag, firstn_all. simpl. apply app_nil_r.
  - rewrite length_app. apply Nat.add_le_mono_l.
    induction (walls lines) as [|l rest IH]; simpl; [lia|].
    rewrite length_app. pose proof (proj1 (norm_pieces_of_wall l)). lia.
  - rewrite skipn_app, Nat.sub_diag, skipn_all. simpl.
    induction (walls lines) as [|l rest IH]; simpl; [constructor|].
    apply Forall_app. split; [apply norm_pieces_of_wall|exact IH].
Qed.

(** ** What close_whites keeps *)

Section ClosePreserved.
Variable P : cstate -> Prop.
Hypothesis pair_ok : forall k k2 i j st, P st -> P (close_pair k k2 i j st).

Lemma close_scan_invariant (fuel k : nat) (i : bool) (k2 : nat) (st : cstate) :
  P st -> P (close_scan fuel k i k2 st).
Proof.
  revert k2 st. induction fuel as [|f IH]; intros k2 st H; simpl; [exact H|].
  destruct (nth_error (clines st) k); [|exact H].
  destruct (nth_error (clines st) k2); [|exact H].
  destruct (_ <? _); [|exact H]. apply IH. do 2 apply pair_ok. exact H.
Qed.

Lemma close_line_invariant (k first : nat) (st : cstate) :
  P st -> P (snd (close_line k first st)).
Proof.
  intros H. unfold close_line. destruct (nth_error (clines st) k); [|exact H].
  cbn [snd]. do 2 apply close_scan_invariant. exact H.
Qed.

Lemma close_lines_invariant (fuel k first : nat) (st : cstate) :
  P st -> P (close_lines fuel k first st).
Proof.
  revert k first st. induction fuel as [|f IH]; intros k first st H; simpl; [exact H|].
  destruct (nth_error (clines st) k) as [line|]; [|exact H].
  destruct (ltype line =? 0); [exact H|]. apply IH, close_line_invariant, H.
Qed.

End ClosePreserved.

(** A wall whose bounds have been narrowed, and nothing else. *)
Definition narrowed (l0 l : linerec) : Prop :=
  geometry l = geometry l0 /\ h1 l0 <= h1 l /\ h2 l <= h2 l0.

(** [one_close] moves [h1] up or [h2] down, if it moves them. *)
Lemma one_close_narrows (ws : list whiterec) (line line2 : linerec) (n m : bool) :
  narrowed line (snd (one_close ws line line2 n m)).
Proof.
  unfold narrowed. split; [apply one_close_geometry|].
  unfold one_close.
  repeat first
    [ match goal with
      | |- context [if ?a >? ?b then _ else _] => destruct (Z.gtb_spec a b)
      | |- context [if ?a <? ?b then _ else _] => destruct (Z.ltb_spec a b)
      | |- context [if ?x then _ else _] => destruct x
      end
    | progress cbn [snd h1 h2] ];
    lia.
Qed.

Lemma Forall2_store_at {A B : Type} (R : A -> B -> Prop) (k : nat) (v : B)
  (a : list A) (b : list B) :
  Forall2 R a b ->
  (forall x y, nth_error a k = Some x -> nth_error b k = Some y -> R x v) ->
  Forall2 R a (store_at k v b).
Proof.
  intros H. revert k. induction H as [|x y a b Hxy Hab IH]; intros k Hv;
    [destruct k; constructor|].
  destruct k as [|k]; simpl.
  - constructor; [apply (Hv x y); reflexivity|exact Hab].
  - constructor; [exact Hxy|]. apply IH. intros x' y' Hx' Hy'. apply (Hv x' y'); assumption.
Qed.

Lemma Forall2_nth_error {A B : Type} (R : A -> B -> Prop) (a : list A) (b : list B)
  (k : nat) (x : A) :
  Forall2 R a b -> nth_error a k = Some x -> exists y, nth_error b k = Some y /\ R x y.
Proof.
  intros H. revert k. induction H as [|x0 y0 a b Hxy Hab IH]; intros k Hk;
    [destruct k; discriminate|].
  destruct k as [|k]; simpl in *.
  - injection Hk as <-. exists y0. auto.
  - apply IH, Hk.
Qed.

Lemma close_pair_narrows (base : list linerec) (k k2 : nat) (i j : bool) (st : cstate) :
  Forall2 narrowed base (clines st) ->
  Forall2 narrowed base (clines (close_pair k k2 i j st)).
Proof.
  intros H. unfold close_pair.
  destruct (nth_error (clines st) k) as [line|] eqn:El; [|exact H].
  destruct (nth_error (clines st) k2); [|exact H].
  destruct (in_box _ _); [|exact H]. cbn [clines].
  apply Forall2_store_at; [exact H|].
  intros x y Hx Hy. destruct (Forall2_nth_error _ _ _ _ _ H Hx) as [y' [Hy' [G [B1 B2]]]].
  assert (y' = line) by congruence. subst y'.
  destruct (one_close_narrows (cwhites st) line l i j) as [G' [B1' B2']].
  unfold narrowed. split; [congruence|lia].
Qed.

Lemma default_hs_narrowed (lines : list linerec) :
  Forall2 narrowed (default_hs lines) (default_hs lines).
Proof.
  induction (default_hs lines); constructor; [|assumption].
  unfold narrowed. split; [reflexivity|lia].
Qed.

(** X5: [close_whites] changes of a wall its [h1] and [h2] only, and from the
    defaults of its direction it moves [h1] up and [h2] down, never the
    other way. *)
Theorem close_whites_narrows (st : cstate) :
  map geometry (clines (close_whites st)) = map geometry (clines st) /\
  forall k line, is_wall (clines st) k -> nth_error (clines st) k = Some line ->
    exists line', nth_error (clines (close_whites st)) k = Some line' /\
      geometry line' = geometry line /\
      nth (Z.to_nat (newtype line)) simpleh1 0 <= h1 line' /\
      h2 line' <= length line +i nth (Z.to_nat (newtype line)) simpleh2 0.
Proof.
  assert (Forall2 narrowed (default_hs (clines st)) (clines (close_whites st))) as H.
  { unfold close_whites.
    apply (close_lines_invariant (fun s => Forall2 narrowed (default_hs (clines st)) (clines s))).
    - intros k k2 i j s. apply close_pair_narrows.
    - cbn [clines]. apply default_hs_narrowed. }
  split.
  - rewrite <- (default_hs_geometry (clines st)).
    induction H as [|x y a b [G _] Hab IH]; simpl; [reflexivity|]. rewrite G, IH. reflexivity.
  - intros k line Hwall Hk.
    destruct (Forall2_nth_error _ _ _ _ _ H (default_hs_nth _ _ _ Hwall Hk))
      as [line' [Hk' [G [B1 B2]]]].
    exists line'. split; [exact Hk'|]. split; [exact G|]. split; [exact B1|exact B2].
Qed.

(** What [close_whites] may make of a piece: leave it, or put a higher
    piece of [npatch] in its slot (at another place). *)
Definition patched (w w' : whiterec) : Prop :=
  w' = w \/ (data w' = Static npatch /\ ht w < ht w' /\ hasj w' = hasj w).

(** The pieces [one_close] appends. *)
Definition patch_piece (w : whiterec) : Prop :=
  hasj w = false /\ (data w = Static npatch \/ data w = Static nepatch).

(** The piece list has grown: the old slots hold the old pieces or what
    replaced them, patches follow. *)
Definition grown (ws ws' : list whiterec) : Prop :=
  exists front more, ws' = front ++ more /\ Forall2 patched ws front /\ Forall patch_piece more.

Lemma patched_refl (ws : list whiterec) : Forall2 patched ws ws.
Proof. induction ws; constructor; [left; reflexivity|assumption]. Qed.

Lemma grown_refl (ws : list whiterec) : grown ws ws.
Proof.
  exists ws, []. rewrite app_nil_r. split; [reflexivity|]. split; [apply patched_refl|constructor].
Qed.

Lemma patched_trans (a b c : whiterec) : patched a b -> patched b c -> patched a c.
Proof.
  unfold patched. intros [->|[D1 [H1 J1]]] [->|[D2 [H2 J2]]]; auto.
  right. split; [exact D2|]. split; [lia|congruence].
Qed.

Lemma patched_patch (a b : whiterec) : patch_piece a -> patched a b -> patch_piece b.
Proof.
  unfold patch_piece, patched. intros [Hj Hd] [->|[D [_ J]]]; [auto|].
  split; [congruence|left; exact D].
Qed.

Lemma grown_trans (a b c : list whiterec) : grown a b -> grown b c -> grown a c.
Proof.
  intros [f1 [m1 [-> [F1 M1]]]] [f2 [m2 [-> [F2 M2]]]].
  apply Forall2_app_inv_l in F2. destruct F2 as [g1 [g2 [G1 [G2 ->]]]].
  exists g1, (g2 ++ m2). split; [rewrite app_assoc; reflexivity|]. split.
  - clear - F1 G1. revert g1 G1. induction F1 as [|x y a f1 Hxy _ IH]; intros g1 G1;
      inversion G1; subst; constructor.
    + eapply patched_trans; eassumption.
    + apply IH. assumption.
  - apply Forall_app. split; [|exact M2].
    clear - M1 G2. induction G2 as [|x y m1 g2 Hxy _ IH]; [constructor|].
    inversion M1; subst. constructor; [eapply patched_patch; eassumption|auto].
Qed.

Lemma add_white_grown (ws : list whiterec) (x y h : Z) (d : dataptr) :
  d = Static npatch \/ d = Static nepatch -> grown ws (add_white ws x y h d).
Proof.
  intros Hd. exists ws, [mkwhite x y false h d]. split; [reflexivity|].
  split; [apply patched_refl|]. constructor; [|constructor].
  split; [reflexivity|exact Hd].
Qed.

Lemma replace_white_2_patched (ws : list whiterec) (tx ty x y h : Z) :
  Forall2 patched ws (replace_white_2 ws tx ty x y h (Static npatch)).
Proof.
  induction ws as [|w rest IH]; simpl; [constructor|].
  destruct (negb (wy w =? ty) || negb (wx w =? tx) || (ht w >=? h)) eqn:E.
  - constructor; [left; reflexivity|exact IH].
  - constructor; [|apply patched_refl].
    apply replaceable_test in E. destruct E as [_ [_ Hh]].
    right. simpl. auto.
Qed.

Lemma nepatch_run_grown (count : nat) (j : Z) (line : linerec) (ws : list whiterec) :
  grown ws (nepatch_run count j line ws).
Proof.
  revert j ws. induction count as [|c IH]; intros j ws; simpl; [apply grown_refl|].
  eapply grown_trans; [|apply IH].
  destruct (_ <? _); [apply add_white_grown; right; reflexivity|apply grown_refl].
Qed.

Lemma replace_white_2_grown (ws : list whiterec) (tx ty x y h : Z) :
  grown ws (replace_white_2 ws tx ty x y h (Static npatch)).
Proof.
  exists (replace_white_2 ws tx ty x y h (Static npatch)), [].
  rewrite app_nil_r. split; [reflexivity|].
  split; [apply replace_white_2_patched|constructor].
Qed.

Lemma one_close_grown (ws : list whiterec) (line line2 : linerec) (n m : bool) :
  grown ws (fst (one_close ws line line2 n m)).
Proof.
  unfold one_close, add_white_2.
  repeat first
    [ apply grown_refl
    | apply nepatch_run_grown
    | apply replace_white_2_grown
    | apply add_white_grown; left; reflexivity
    | match goal with |- context [if ?x then _ else _] => destruct x end
    | progress cbn [fst] ].
Qed.

Lemma close_pair_grown (ws0 : list whiterec) (k k2 : nat) (i j : bool) (st : cstate) :
  grown ws0 (cwhites st) -> grown ws0 (cwhites (close_pair k k2 i j st)).
Proof.
  intros H. unfold close_pair.
  destruct (nth_error (clines st) k); [|exact H].
  destruct (nth_error (clines st) k2); [|exact H].
  destruct (in_box _ _); [|exact H]. cbn [cwhites].
  eapply grown_trans; [exact H|apply one_close_grown].
Qed.

(** X6: [close_whites] drops no piece: a piece it found is still in its slot
    afterwards, or a higher piece of [npatch] is; behind the pieces it
    found come the patches it has added. *)
Theorem close_whites_keeps_pieces (st : cstate) :
  let ws := cwhites st in
  let ws' := cwhites (close_whites st) in
  (List.length ws <= List.length ws')%nat /\
  (forall i w, nth_error ws i = Some w ->
     exists w', nth_error ws' i = Some w' /\
       (w' = w \/ (data w' = Static npatch /\ ht w < ht w' /\ hasj w' = hasj w))) /\
  Forall (fun w => hasj w = false /\ (data w = Static npatch \/ data w = Static nepatch))
         (skipn (List.length ws) ws').
Proof.
  intros ws ws'.
  assert (grown ws ws') as [front [more [E [F M]]]].
  { subst ws ws'. unfold close_whites.
    apply (close_lines_invariant (fun s => grown (cwhites st) (cwhites s))).
    - intros k k2 i j s. apply close_pair_grown.
    - apply grown_refl. }
  pose proof (Forall2_length F) as Hlen.
  rewrite E. split; [rewrite length_app; lia|]. split.
  - intros i w Hi. destruct (Forall2_nth_error _ _ _ _ _ F Hi) as [w' [Hi' Hp]].
    exists w'. split; [|exact Hp].
    rewrite nth_error_app1; [exact Hi'|]. apply nth_error_Some. congruence.
  - rewrite Hlen, skipn_app, Nat.sub_diag, skipn_all. exact M.
Qed.

(** ** The splice loop keeps an array sorted *)

Section SpliceSorted.
Context {A : Type}.
Variable x : A -> Z.
Variable dflt : A.
Hypothesis dflt_x : x dflt = 20000.

Let up (p q : A) : Prop := x p <= x q.

Lemma shift_down_from (arr : list A) (e : A) :
  In e (shift_down x dflt arr) ->
  In e arr \/ (e = dflt /\ arr <> [] /\ Forall (fun w => x w < 20000) arr).
Proof.
  induction arr as [|a rest IH]; simpl; [intros []|].
  destruct (x a <? 20000) eqn:Ea; [|intros H; left; exact H].
  apply Z.ltb_lt in Ea. intros [<-|H].
  - destruct rest as [|b rest]; simpl.
    + right. split; [reflexivity|]. split; [discriminate|]. repeat constructor. exact Ea.
    + left. right. left. reflexivity.
  - destruct (IH H) as [Hin|[-> [_ Hlive]]].
    + left. right. exact Hin.
    + right. split; [reflexivity|]. split; [discriminate|]. constructor; assumption.
Qed.

Lemma shift_down_ascending (arr : list A) :
  StronglySorted up arr -> StronglySorted up (shift_down x dflt arr).
Proof.
  induction 1 as [|a rest Hrest IH Ha]; simpl; [constructor|].
  destruct (x a <? 20000) eqn:Ea; [|constructor; assumption].
  constructor; [exact IH|].
  apply Forall_forall. intros e He. apply shift_down_from in He.
  destruct rest as [|b rest]; [destruct He as [[]|[_ [Hne _]]]; congruence|].
  simpl. apply StronglySorted_inv in Hrest. destruct Hrest as [_ Hb].
  destruct He as [[<-|He]|[-> [_ Hlive]]].
  - unfold up. lia.
  - rewrite Forall_forall in Hb. apply Hb, He.
  - inversion Hlive; subst. unfold up. lia.
Qed.

Lemma splice_ascending (p : nat) (arr : list A) :
  StronglySorted up arr -> StronglySorted up (splice x dflt p arr).
Proof.
  intros H. unfold splice. rewrite <- (firstn_skipn p arr) in H.
  apply sorted_app_inv in H. destruct H as [H1 [H2 Hcross]].
  apply sorted_app; [exact H1|apply shift_down_ascending, H2|].
  intros a e Ha He. apply shift_down_from in He.
  destruct He as [He|[-> [Hne Hlive]]]; [apply Hcross; assumption|].
  destruct (skipn p arr) as [|b rest]; [congruence|].
  pose proof (Hcross a b Ha (or_introl eq_refl)) as Hab.
  inversion Hlive; subst. unfold up in *. lia.
Qed.

End SpliceSorted.

Lemma hash_piece_junctions_sorted (ext : externs) (k : nat) (st : hstate) :
  StronglySorted (fun a b => jx a <= jx b) (junctions st) ->
  StronglySorted (fun a b => jx a <= jx b) (junctions (hash_piece ext k st)).
Proof.
  intros H.
  destruct (hash_piece_cases ext k st) as [E|[[_ [_ E]]|[G M]]];
    try (rewrite E; exact H).
  rewrite (hash_piece_match ext k st G M). cbn [junctions].
  apply (splice_ascending jx sentinel_j eq_refl), H.
Qed.

Lemma hash_for_junctions_sorted (ext : externs) (fuel k : nat) (st : hstate) :
  StronglySorted (fun a b => jx a <= jx b) (junctions st) ->
  StronglySorted (fun a b => jx a <= jx b) (junctions (hash_for ext fuel k st)).
Proof.
  revert k st. induction fuel as [|f IH]; intros k st H; simpl; [exact H|].
  destruct (_ <? _); [|exact H]. apply IH, hash_piece_junctions_sorted, H.
Qed.

Lemma hash_for_junctions_length (ext : externs) (fuel k : nat) (st : hstate) :
  List.length (junctions (hash_for ext fuel k st)) = List.length (junctions st).
Proof.
  revert k st. induction fuel as [|f IH]; intros k st; simpl; [reflexivity|].
  destruct (_ <? _); [|reflexivity]. rewrite IH.
  destruct (hash_piece_cases ext k st) as [E|[[_ [_ E]]|[G M]]];
    try (rewrite E; reflexivity).
  rewrite (hash_piece_match ext k st G M). cbn [junctions].
  apply splice_length.
Qed.

(** X7: [init_walls] leaves both arrays the drawing routines scan sorted by
    [x]: the pieces, and the junctions with the sentinels that have taken
    the place of the consumed ones. *)
Theorem prepared_arrays_sorted (ext : externs) (lines : list linerec) :
  let final := pstate (init_walls ext lines) in
  sorted_x (marr (hwhites final)) /\
  StronglySorted (fun a b => jx a <= jx b) (junctions final) /\
  List.length (junctions final) = List.length (JunctionFinder.find_junctions lines).
Proof.
  unfold init_walls, init_whites. cbn [pstate]. split; [|split].
  - apply (sorted_x_same_place _ (marr (merged_whites lines))).
    + unfold white_hash_merge. apply hash_for_length.
    + intros i. unfold white_hash_merge. apply hash_for_place.
    + apply merged_whites_sorted.
  - unfold white_hash_merge. apply hash_for_junctions_sorted. cbn [junctions].
    apply sort_junctions_ascending.
  - unfold white_hash_merge. rewrite hash_for_junctions_length. cbn [junctions].
    apply Permutation_length, insertion_sort_permutation.
Qed.

(** ** What white_hash_merge leaves alone *)

(** What [no_close_wh] reads of a piece. *)
Definition place (w : whiterec) : Z * Z := (wx w, wy w).

Lemma close_before_places (w1 v1 : whiterec) (l l' : list whiterec) :
  place w1 = place v1 -> map place l = map place l' ->
  close_before w1 l = close_before v1 l'.
Proof.
  unfold place. intros Hw. injection Hw as Hx Hy. revert l'.
  induction l as [|a l IH]; intros [|b l'] H; simpl in H; try discriminate; [reflexivity|].
  injection H as Hax Hay Hl. simpl. rewrite Hx, Hy, Hax, Hay, (IH l' Hl). reflexivity.
Qed.

Lemma close_after_places (w1 v1 : whiterec) (l l' : list whiterec) :
  place w1 = place v1 -> map place l = map place l' ->
  close_after w1 l = close_after v1 l'.
Proof.
  unfold place. intros Hw. injection Hw as Hx Hy. revert l'.
  induction l as [|a l IH]; intros [|b l'] H; simpl in H; try discriminate; [reflexivity|].
  injection H as Hax Hay Hl. simpl. rewrite Hx, Hy, Hax, Hay, (IH l' Hl). reflexivity.
Qed.

Lemma white_at_places (a b : list whiterec) (k : nat) :
  map place a = map place b -> place (white_at a k) = place (white_at b k).
Proof.
  intros H. unfold white_at.
  rewrite <- (map_nth place a sentinel_wh k), <- (map_nth place b sentinel_wh k), H.
  reflexivity.
Qed.

(** [no_close_wh] depends on the places of the pieces only. *)
Lemma no_close_wh_places (a b : list whiterec) (k : nat) :
  map place a = map place b -> no_close_wh a k = no_close_wh b k.
Proof.
  intros H. unfold no_close_wh.
  rewrite (close_before_places (white_at a k) (white_at b k)
             (rev (firstn k a)) (rev (firstn k b))),
          (close_after_places (white_at a k) (white_at b k)
             (skipn (S k) a) (skipn (S k) b)); try reflexivity;
    try apply white_at_places, H.
  - rewrite <- !skipn_map, H. reflexivity.
  - rewrite !map_rev, <- !firstn_map, H. reflexivity.
Qed.

Lemma hash_piece_places (ext : externs) (k : nat) (st : hstate) :
  map place (marr (hwhites (hash_piece ext k st))) = map place (marr (hwhites st)).
Proof.
  destruct (hash_piece_cases ext k st) as [E|[[_ [_ E]]|[G M]]];
    try (rewrite E; reflexivity).
  rewrite (hash_piece_match ext k st G M). cbn [hwhites marr].
  apply map_store_at. intros a Ha. unfold white_at.
  rewrite (nth_error_nth _ _ _ Ha). reflexivity.
Qed.

(** A turn of the loop sets [hasj] or leaves it. *)
Lemma hash_piece_hasj (ext : externs) (k i : nat) (st : hstate) :
  hasj (white_at (marr (hwhites st)) i) = true ->
  hasj (white_at (marr (hwhites (hash_piece ext k st))) i) = true.
Proof.
  intros H. destruct (Nat.eq_dec i k) as [->|Hne];
    [|rewrite hash_piece_other by exact Hne; exact H].
  destruct (hash_piece_cases ext k st) as [E|[[_ [_ E]]|[G M]]];
    try (rewrite E; exact H).
  rewrite (hash_piece_match ext k st G M). cbn [hwhites marr].
  rewrite white_at_store_at_eq by (apply hash_guard_in_array, G). reflexivity.
Qed.

Lemma hash_for_frame (ext : externs) (fuel k0 k : nat) (st : hstate) :
  (hasj (white_at (marr (hwhites st)) k) = true ->
   hasj (white_at (marr (hwhites (hash_for ext fuel k0 st))) k) = true) /\
  (ht (white_at (marr (hwhites st)) k) <> 6 \/ no_close_wh (marr (hwhites st)) k = false ->
   white_at (marr (hwhites (hash_for ext fuel k0 st))) k = white_at (marr (hwhites st)) k).
Proof.
  revert k0 st. induction fuel as [|f IH]; intros k0 st; simpl; [split; auto|].
  destruct (_ <? _); [|split; auto].
  destruct (IH (S k0) (hash_piece ext k0 st)) as [IH1 IH2]. split.
  - intros H. apply IH1, hash_piece_hasj, H.
  - intros H.
    assert (white_at (marr (hwhites (hash_piece ext k0 st))) k
            = white_at (marr (hwhites st)) k) as E.
    { destruct (Nat.eq_dec k k0) as [->|Hne]; [|apply hash_piece_other, Hne].
      rewrite hash_piece_skip; [reflexivity|]. unfold hash_guard.
      destruct H as [H|H].
      - destruct (Z.eqb_spec (ht (white_at (marr (hwhites st)) k0)) 6); [contradiction|].
        reflexivity.
      - rewrite H. apply andb_false_iff. left. apply andb_false_r. }
    rewrite <- E. apply IH2. rewrite E.
    rewrite (no_close_wh_places _ _ k (hash_piece_places ext k0 st)). exact H.
Qed.

(** X8: [white_hash_merge] moves no piece and changes no height or number of
    slots, clears no [hasj], and leaves a piece as it is that is not 6 rows
    high or has another piece close by. *)
Theorem white_hash_merge_frame (ext : externs) (whs : mstate) (js : list junctionrec)
  (numj : Z) :
  let final := hwhites (white_hash_merge ext whs js numj) in
  List.length (marr final) = List.length (marr whs) /\
  (forall i, wx (white_at (marr final) i) = wx (white_at (marr whs) i) /\
             wy (white_at (marr final) i) = wy (white_at (marr whs) i) /\
             ht (white_at (marr final) i) = ht (white_at (marr whs) i)) /\
  (forall i, hasj (white_at (marr whs) i) = true -> hasj (white_at (marr final) i) = true) /\
  (forall i, ht (white_at (marr whs) i) <> 6 \/ no_close_wh (marr whs) i = false ->
             white_at (marr final) i = white_at (marr whs) i).
Proof.
  unfold white_hash_merge. split; [apply hash_for_length|]. split; [|split].
  - intros i. apply hash_for_place.
  - intros i. apply (hash_for_frame ext _ 0 i (mkhstate whs js numj 0)).
  - intros i. apply (hash_for_frame ext _ 0 i (mkhstate whs js numj 0)).
Qed.

(** ** numwhites and the sentinel *)

Lemma lead_app_live (l1 l2 : list whiterec) :
  Forall (fun w => wx w < 20000) l1 ->
  lead wx (l1 ++ l2) = (List.length l1 + lead wx l2)%nat.
Proof.
  induction 1 as [|a l1 Ha _ IH]; simpl; [reflexivity|].
  destruct (Z.ltb_spec (wx a) 20000); [|lia]. rewrite IH. reflexivity.
Qed.

Lemma lead_split (arr : list whiterec) (n : nat) :
  (n <= lead wx arr)%nat ->
  Forall (fun w => wx w < 20000) (firstn n arr) /\ List.length (firstn n arr) = n /\
  lead wx arr = (n + lead wx (skipn n arr))%nat.
Proof.
  revert n. induction arr as [|a arr IH]; intros n Hn; simpl in Hn.
  - replace n with O by lia. simpl. auto.
  - destruct n as [|n]; [simpl; auto|].
    simpl. destruct (Z.ltb_spec (wx a) 20000); [|lia].
    destruct (IH n ltac:(lia)) as [H1 [H2 H3]].
    split; [constructor; assumption|]. split; lia.
Qed.

Lemma lead_next (arr : list whiterec) (k : nat) :
  (k <= lead wx arr)%nat -> wx (white_at arr k) < 20000 -> (S k <= lead wx arr)%nat.
Proof.
  intros Hk Hx. destruct (lead_split arr k Hk) as [_ [_ E]].
  rewrite white_at_skipn in Hx. rewrite E.
  destruct (skipn k arr) as [|a rest]; simpl in *; [lia|].
  destruct (Z.ltb_spec (wx a) 20000); lia.
Qed.

Lemma lead_same_x (a b : list whiterec) : map wx a = map wx b -> lead wx a = lead wx b.
Proof.
  revert b. induction a as [|w a IH]; intros [|v b] H; simpl in H; try discriminate;
    [reflexivity|].
  injection H as Hx Hrest. simpl. rewrite Hx, (IH b Hrest). reflexivity.
Qed.

(** A turn of the [while] takes one slot from in front of the sentinel. *)
Lemma merge_at_lead (k : nat) (st : mstate) :
  (S (S k) <= lead wx (marr st))%nat ->
  lead wx (marr (merge_at k st)) = pred (lead wx (marr st)).
Proof.
  intros Hk. unfold merge_at. cbn [marr].
  set (arr1 := store_at k (set_data (white_at (marr st) k)
                             (Storage (List.length (mstore st)))) (marr st)).
  assert (lead wx arr1 = lead wx (marr st)) as E1.
  { apply lead_same_x. apply map_store_at. intros a Ha. unfold white_at.
    rewrite (nth_error_nth _ _ _ Ha). reflexivity. }
  rewrite <- E1 in Hk |- *.
  destruct (lead_split arr1 (S k) ltac:(lia)) as [Hlive [Hlen E]].
  unfold splice. rewrite lead_app_live by exact Hlive.
  rewrite (lead_shift_down wx sentinel_wh sentinel_wh_x). lia.
Qed.

Lemma merge_while_numwhites (fuel k : nat) (st : mstate) :
  (S k <= lead wx (marr st))%nat ->
  mnum st = Z.of_nat (lead wx (marr st)) -> mnum st <= 32767 ->
  let st' := merge_while fuel k st in
  (S k <= lead wx (marr st'))%nat /\
  mnum st' = Z.of_nat (lead wx (marr st')) /\ mnum st' <= mnum st.
Proof.
  revert st. induction fuel as [|f IH]; intros st Hk Hn Hmax; simpl; [lia|].
  destruct (mergeable (white_at (marr st) k) (white_at (marr st) (S k))) eqn:E; [|lia].
  assert (S (S k) <= lead wx (marr st))%nat as Hk2.
  { apply lead_next; [exact Hk|].
    destruct (lead_split (marr st) (S k) Hk) as [Hlive _].
    rewrite (firstn_snoc k sentinel_wh) in Hlive
      by (pose proof (lead_le_length wx (marr st)); lia).
    apply Forall_app in Hlive. destruct Hlive as [_ Hlive]. inversion Hlive; subst.
    unfold mergeable in E. rewrite !andb_true_iff, !Z.eqb_eq in E.
    fold (white_at (marr st) k) in *. lia. }
  pose proof (merge_at_lead k st Hk2) as El.
  destruct (IH (merge_at k st)) as [H1 [H2 H3]].
  - lia.
  - unfold merge_at at 1. cbn [mnum]. rewrite El, sub_small; [lia|].
    unfold Int.in_int16. lia.
  - unfold merge_at. cbn [mnum]. rewrite sub_small; unfold Int.in_int16; lia.
  - split; [exact H1|]. split; [exact H2|].
    etransitivity; [exact H3|]. unfold merge_at. cbn [mnum].
    rewrite sub_small; unfold Int.in_int16; lia.
Qed.

Lemma merge_for_numwhites (fuel k : nat) (st : mstate) :
  (k <= lead wx (marr st))%nat ->
  mnum st = Z.of_nat (lead wx (marr st)) -> mnum st <= 32767 ->
  let st' := merge_for fuel k st in
  mnum st' = Z.of_nat (lead wx (marr st')) /\ mnum st' <= mnum st.
Proof.
  revert k st. induction fuel as [|f IH]; intros k st Hk Hn Hmax; simpl; [lia|].
  destruct (Z.ltb_spec (wx (white_at (marr st) k)) 20000) as [Hx|Hx]; [|lia].
  pose proof (lead_next _ _ Hk Hx) as Hk1.
  destruct (merge_while_numwhites (List.length (marr st)) k st Hk1 Hn Hmax) as [H1 [H2 H3]].
  destruct (IH (S k) _ H1 H2 ltac:(lia)) as [H4 H5].
  split; [exact H4|lia].
Qed.

(** X9: Where [numwhites] is the number of slots in front of the sentinel
    before the merge loop, it is after it: every merge takes one piece out
    of the array and one off [numwhites]; and the loop keeps the array
    sorted by [x] and as long as it was. *)
Theorem merge_pass_numwhites (st : mstate) :
  mnum st = Z.of_nat (lead wx (marr st)) -> mnum st <= 32767 ->
  mnum (merge_pass st) = Z.of_nat (lead wx (marr (merge_pass st))) /\
  mnum (merge_pass st) <= mnum st /\
  List.length (marr (merge_pass st)) = List.length (marr st) /\
  (StronglySorted x_up (marr st) -> StronglySorted x_up (marr (merge_pass st))).
Proof.
  intros Hn Hmax. unfold merge_pass.
  destruct (merge_for_numwhites (List.length (marr st)) 0 st (Nat.le_0_l _) Hn Hmax)
    as [H1 H2].
  split; [exact H1|]. split; [exact H2|]. split; [|apply merge_for_sorted].
  generalize (List.length (marr st)) at 1 as fuel. generalize 0%nat as k. clear.
  intros k fuel. revert k st. induction fuel as [|f IH]; intros k st; simpl; [reflexivity|].
  destruct (_ <? 20000); [|reflexivity]. rewrite IH. apply merge_while_length.
Qed.

Lemma merge_pass_numwhites_witness :
  mnum two_sbot_at_100_50 = Z.of_nat (lead wx (marr two_sbot_at_100_50)) /\
  mnum (merge_pass two_sbot_at_100_50)
  = Z.of_nat (lead wx (marr (merge_pass two_sbot_at_100_50))).
Proof.
  assert (mnum two_sbot_at_100_50 = Z.of_nat (lead wx (marr two_sbot_at_100_50))) as H
    by reflexivity.
  split; [exact H|].
  apply (merge_pass_numwhites two_sbot_at_100_50 H). simpl. lia.
Defined.

(** ** What the drawing routines write *)

(** X10: What [white_wall_piece] and [eor_wall_piece] hand to their loops lies
    in the view and in the piece: the lines drawn are lines of the view,
    the rows read are rows of the piece, row [r] of the piece goes to line
    [y + r], and [x] leaves at least one of the 16 columns on the screen.
    A piece all above or all below the view is not drawn. *)
Theorem wall_piece_inside (scr : screen) (left right center x y height : Z) :
  0 < height <= VIEWHT scr -> VIEWHT scr + SBARHT scr <= 32767 -> 0 <= SBARHT scr ->
  0 <= SCRWTH scr -> -32767 <= y <= 32767 - height ->
  (wall_piece scr left right center x y height = None <->
   (y + height <= 0 \/ VIEWHT scr <= y \/ x <= -16 \/ SCRWTH scr <= x)) /\
  (forall b, wall_piece scr left right center x y height = Some b ->
     0 < bheight b /\ 0 <= brow b /\ brow b + bheight b <= height /\
     by_ b = y + brow b + SBARHT scr /\
     SBARHT scr <= by_ b /\ by_ b + bheight b <= SBARHT scr + VIEWHT scr /\
     bx b = x /\ -16 < x < SCRWTH scr).
Proof.
  intros Hh Hv Hs Hw Hy. unfold wall_piece, clip_rows, clip_columns.
  rewrite !Z.geb_leb.
  destruct (Z.ltb_spec y 0) as [Hy0|Hy0].
  - rewrite (add_small height y) by (unfold Int.in_int16; lia).
    destruct (Z.leb_spec (height + y) 0) as [Hn|Hn].
    + split; [split; [lia|reflexivity]|intros b Hb; discriminate].
    + rewrite sub_small by (unfold Int.in_int16; lia).
      destruct (Z.ltb_spec x 0); [destruct (Z.leb_spec x (-16))|
        destruct (Z.leb_spec (SCRWTH scr - 16) x); [destruct (Z.leb_spec (SCRWTH scr) x)|]];
        (split; [split; [try discriminate; lia|intros; try reflexivity; lia]|]);
        intros b Hb; try discriminate; injection Hb as <-; cbn [bheight brow by_ bx];
        rewrite add_small by (unfold Int.in_int16; lia); lia.
  - rewrite (add_small y height) by (unfold Int.in_int16; lia).
    destruct (Z.gtb_spec (y + height) (VIEWHT scr)) as [Hb|Hb].
    + destruct (Z.leb_spec (VIEWHT scr) y) as [Ho|Ho].
      * split; [split; [lia|reflexivity]|intros b Hb'; discriminate].
      * rewrite sub_small by (unfold Int.in_int16; lia).
        destruct (Z.ltb_spec x 0); [destruct (Z.leb_spec x (-16))|
          destruct (Z.leb_spec (SCRWTH scr - 16) x); [destruct (Z.leb_spec (SCRWTH scr) x)|]];
          (split; [split; [try discriminate; lia|intros; try reflexivity; lia]|]);
          intros b Hb'; try discriminate; injection Hb' as <-; cbn [bheight brow by_ bx];
          rewrite add_small by (unfold Int.in_int16; lia); lia.
    + destruct (Z.ltb_spec x 0); [destruct (Z.leb_spec x (-16))|
        destruct (Z.leb_spec (SCRWTH scr - 16) x); [destruct (Z.leb_spec (SCRWTH scr) x)|]];
        (split; [split; [try discriminate; lia|intros; try reflexivity; lia]|]);
        intros b Hb'; try discriminate; injection Hb' as <-; cbn [bheight brow by_ bx];
        rewrite add_small by (unfold Int.in_int16; lia); lia.
Qed.

Lemma wall_piece_inside_witness :
  0 < 6 <= VIEWHT mac_screen /\
  exists b, white_wall_piece mac_screen 100 (-2) 6 = Some b /\
            brow b = 2 /\ bheight b = 4 /\ by_ b = 24.
Proof.
  split; [simpl; lia|]. eexists. split; [reflexivity|].
  destruct (proj2 (wall_piece_inside mac_screen (lnot32 LEFT_CLIP) (lnot32 RIGHT_CLIP)
                     (lnot32 CENTER_CLIP) 100 (-2) 6
                     ltac:(simpl; lia) ltac:(simpl; lia) ltac:(simpl; lia)
                     ltac:(simpl; lia) ltac:(simpl; lia))
                  _ eq_refl) as [_ _].
  repeat split.
Defined.

(** X11: The rows of the three loops: a row of [white_wall_piece] clears bits
    and sets none, and writing it again changes nothing; a row of
    [eor_wall_piece] written twice leaves the long as it was; a row of
    [draw_hash] sets bits and clears none, and writing it again changes
    nothing. *)
Theorem row_writes (b : blit) (pattern dest : Z) :
  eor_row b pattern (eor_row b pattern dest) = dest /\
  white_row b pattern (white_row b pattern dest) = white_row b pattern dest /\
  (forall n, Z.testbit (white_row b pattern dest) n = true -> Z.testbit dest n = true) /\
  hash_row b pattern (hash_row b pattern dest) = hash_row b pattern dest /\
  (forall n, Z.testbit dest n = true -> Z.testbit (hash_row b pattern dest) n = true).
Proof.
  unfold eor_row, white_row, hash_row. split; [|split; [|split; [|split]]].
  - rewrite Z.lxor_assoc, Z.lxor_nilpotent, Z.lxor_0_r. reflexivity.
  - rewrite <- Z.land_assoc, Z.land_diag. reflexivity.
  - intros n H. rewrite Z.land_spec in H. apply andb_true_iff in H. apply H.
  - rewrite <- Z.lor_assoc, Z.lor_diag. reflexivity.
  - intros n H. rewrite Z.lor_spec, H. reflexivity.
Qed.

(** ** draw_hash and the inline drawing of fast_hashes *)

(** X12: [draw_hash] draws nothing when the six lines are all above or all
    below the view; otherwise the lines it writes are lines of the view,
    the ints it reads are ints of [hash_figure], and int [r] goes to line
    [y + r].  Unlike the wall routines it never tests [x] against the
    edges of the screen. *)
Theorem draw_hash_inside (scr : screen) (x y : Z) :
  6 <= VIEWHT scr -> VIEWHT scr + SBARHT scr <= 32767 -> 0 <= SBARHT scr ->
  Int.in_int16 y ->
  let b := draw_hash scr x y in
  (hash_turns b = O <-> (y <= -6 \/ VIEWHT scr <= y)) /\
  ((0 < hash_turns b)%nat ->
     0 <= brow b /\ brow b + Z.of_nat (hash_turns b) <= 6 /\
     by_ b = y + brow b + SBARHT scr /\
     SBARHT scr <= by_ b /\
     by_ b + Z.of_nat (hash_turns b) <= SBARHT scr + VIEWHT scr) /\
  bx b = x.
Proof.
  intros Hv Hs Hb Hy b. subst b. unfold Int.in_int16 in Hy.
  unfold draw_hash, hash_turns. rewrite Z.geb_leb.
  destruct (Z.ltb_spec y 0) as [Hy0|Hy0]; cbn [bheight brow by_ bx].
  - rewrite (add_small 6 y) by (unfold Int.in_int16; lia).
    rewrite (add_small 0 (SBARHT scr)) by (unfold Int.in_int16; lia).
    destruct (Z.ltb_spec (6 + y - 1) 0) as [Hn|Hn].
    + split; [split; [lia|reflexivity]|]. split; [intros H; exfalso; lia|reflexivity].
    + split; [split; lia|].
      * split; [|reflexivity]. intros _.
        rewrite Z.shiftl_mul_pow2 by lia. change (2 ^ 1) with 2.
        rewrite int16_small by (unfold Int.in_int16; lia).
        replace (0 - y * 2) with ((- y) * 2) by lia. rewrite Z.div_mul by lia.
        lia.
  - destruct (Z.leb_spec (VIEWHT scr - 6) y) as [Hl|Hl]; cbn [bheight brow by_ bx].
    + rewrite sub_small by (unfold Int.in_int16; lia).
      destruct (Z.ltb_spec (VIEWHT scr - y - 1) 0) as [Hn|Hn].
      * split; [split; [lia|reflexivity]|]. split; [intros H; exfalso; lia|reflexivity].
      * rewrite add_small by (unfold Int.in_int16; lia).
        split; [split; lia|].
        split; [|reflexivity]. intros _. lia.
    + rewrite add_small by (unfold Int.in_int16; lia).
      change (6 - 1 <? 0) with false. cbv iota.
      split; [split; lia|].
      split; [|reflexivity]. intros _. change (Z.of_nat (Z.to_nat 6)) with 6. lia.
Qed.

Lemma draw_hash_inside_witness :
  6 <= VIEWHT mac_screen /\
  hash_turns (draw_hash mac_screen 100 (-2)) = 4%nat /\
  brow (draw_hash mac_screen 100 (-2)) = 2 /\
  by_ (draw_hash mac_screen 100 (-2)) = 24.
Proof.
  split; [simpl; lia|].
  destruct (draw_hash_inside mac_screen 100 (-2)
              ltac:(simpl; lia) ltac:(simpl; lia) ltac:(simpl; lia)
              ltac:(unfold Int.in_int16; lia)) as [_ [H _]].
  specialize (H ltac:(vm_compute; lia)). destruct H as [_ [_ [H _]]].
  split; [reflexivity|]. split; [reflexivity|exact H].
Defined.

Lemma do_quick_rows (s : Z) :
  0 <= s < 16 ->
  do_quick s =
  map (fun p => Z.land (rol32 (p mod 65536) (16 - s)) CENTER_CLIP) hash_figure.
Proof.
  intros H.
  assert (s = 0 \/ s = 1 \/ s = 2 \/ s = 3 \/ s = 4 \/ s = 5 \/ s = 6 \/ s = 7 \/
          s = 8 \/ s = 9 \/ s = 10 \/ s = 11 \/ s = 12 \/ s = 13 \/ s = 14 \/ s = 15)
    as Hs by lia.
  repeat (destruct Hs as [->|Hs]; [vm_compute; reflexivity|]).
  subst s. vm_compute. reflexivity.
Qed.

Lemma do_quick_low_bits (x : Z) : do_quick x = do_quick (Z.land x 15).
Proof.
  unfold do_quick. rewrite <- Z.land_assoc. reflexivity.
Qed.

(** X13: Where [fast_hashes] takes its inline path ([0 <= y < VIEWHT-5] and
    [0 <= x < SCRWTH-9]), the six longs it ors in, and the place it ors
    them to, are those of the call [draw_hash(x, y)] it stands for. *)
Theorem quick_hash_is_draw_hash (scr : screen) (x y : Z) :
  0 <= y < VIEWHT scr - 5 -> 0 <= x < SCRWTH scr - 9 ->
  do_quick x = draw_hash_bits scr x y /\
  bx (draw_hash scr x y) = x /\
  by_ (draw_hash scr x y) = y +i SBARHT scr.
Proof.
  intros Hy Hx.
  assert (draw_hash scr x y = mkblit x (y +i SBARHT scr) 0 6 CENTER_CLIP) as Hb.
  { unfold draw_hash. rewrite !Z.geb_leb.
    destruct (Z.ltb_spec y 0); [lia|].
    destruct (Z.ltb_spec x 0); [lia|].
    destruct (Z.leb_spec (SCRWTH scr - 9) x); [lia|].
    destruct (Z.leb_spec (VIEWHT scr - 6) y) as [Hl|Hl]; [|reflexivity].
    assert (y = VIEWHT scr - 6) as -> by lia.
    replace (VIEWHT scr -i (VIEWHT scr - 6)) with 6; [reflexivity|].
    unfold Int.sub. replace (VIEWHT scr - (VIEWHT scr - 6)) with 6 by lia. reflexivity. }
  unfold draw_hash_bits. rewrite Hb. cbn [bx by_ brow].
  split; [|split; reflexivity].
  rewrite do_quick_low_bits, do_quick_rows.
  - unfold hash_turns, hash_bits, rotation. cbn [bheight bx bclip].
    reflexivity.
  - change 15 with (Z.ones 4). rewrite Z.land_ones by lia.
    apply Z.mod_pos_bound. reflexivity.
Qed.

Lemma quick_hash_is_draw_hash_witness :
  0 <= 17 < SCRWTH mac_screen - 9 /\
  do_quick 17 = draw_hash_bits mac_screen 17 100.
Proof.
  split; [simpl; lia|].
  apply (quick_hash_is_draw_hash mac_screen 17 100); simpl; lia.
Defined.

(** ** The searches of fast_whites and fast_hashes *)

Section SearchFacts.

Context {A : Type} (x : A -> Z) (sentinel : A).
Hypothesis sentinel_x : x sentinel = 20000.

Lemma sorted_split (arr : list A) (left : Z) :
  StronglySorted (fun a b => x a <= x b) arr ->
  exists lo hi, arr = lo ++ hi /\
    Forall (fun a => x a < left) lo /\ Forall (fun a => left <= x a) hi.
Proof.
  intros H. induction H as [|a l Hl IH Ha].
  - exists [], []. repeat split; constructor.
  - destruct (Z.lt_ge_cases (x a) left) as [Hlt|Hge].
    + destruct IH as [lo [hi [-> [Hlo Hhi]]]].
      exists (a :: lo), hi. split; [reflexivity|]. split; [|exact Hhi].
      constructor; assumption.
    + exists [], (a :: l). split; [reflexivity|]. split; [constructor|].
      constructor; [exact Hge|].
      eapply Forall_impl; [|exact Ha]. cbv beta. intros b Hb. lia.
Qed.

Lemma left_of (lo hi : list A) (left : Z) (i : nat) :
  Forall (fun a => x a < left) lo -> Forall (fun a => left <= x a) hi ->
  left <= 20000 ->
  (left >? x (nth i (lo ++ hi) sentinel)) = (i <? List.length lo)%nat.
Proof.
  intros Hlo Hhi Hleft. rewrite Z.gtb_ltb.
  destruct (Nat.ltb_spec i (List.length lo)) as [Hi|Hi].
  - rewrite app_nth1 by exact Hi. apply Z.ltb_lt.
    rewrite Forall_forall in Hlo. apply Hlo. apply nth_In. exact Hi.
  - rewrite app_nth2 by exact Hi. apply Z.ltb_ge.
    destruct (Nat.lt_ge_cases (i - List.length lo) (List.length hi)) as [Hh|Hh].
    + rewrite Forall_forall in Hhi. apply Hhi. apply nth_In. exact Hh.
    + rewrite nth_overflow by exact Hh. rewrite sentinel_x. exact Hleft.
Qed.

Lemma find16_spec (arr : list A) (left : Z) (n : nat) :
  (forall i, (left >? x (nth i arr sentinel)) = (i <? n)%nat) ->
  forall fuel i, (n <= i + 16 * S fuel)%nat ->
    (n <= find16 x sentinel fuel arr left i)%nat /\
    (i + 16 <= find16 x sentinel fuel arr left i)%nat /\
    (find16 x sentinel fuel arr left i = i + 16 \/
     find16 x sentinel fuel arr left i - 16 < n)%nat.
Proof.
  intros Hn fuel. induction fuel as [|fuel IH]; intros i Hi.
  - simpl. lia.
  - cbn [find16]. rewrite Hn.
    destruct (Nat.ltb_spec (i + 16) n) as [Hlt|Hge]; [|lia].
    destruct (IH (i + 16)%nat ltac:(lia)) as [H1 [H2 H3]]. lia.
Qed.

Lemma find_spec (arr : list A) (left : Z) (n : nat) :
  (forall i, (left >? x (nth i arr sentinel)) = (i <? n)%nat) ->
  forall fuel i, (i <= n)%nat -> (n - i <= fuel)%nat ->
    find x sentinel fuel arr left i = n.
Proof.
  intros Hn fuel. induction fuel as [|fuel IH]; intros i Hi Hf.
  - simpl. lia.
  - cbn [find]. rewrite Hn.
    destruct (Nat.ltb_spec i n) as [Hlt|Hge]; [|lia].
    apply IH; lia.
Qed.

(** The search in steps of 16 and the search in steps of one end on the
    first record whose [x] is not below [left], and read no record that is
    more than 16 past it: 18 sentinels are enough. *)
Lemma first_visible_spec (lo hi : list A) (left : Z) :
  Forall (fun a => x a < left) lo -> Forall (fun a => left <= x a) hi ->
  left <= 20000 ->
  first_visible x sentinel (lo ++ hi) left = List.length lo /\
  (find16 x sentinel (List.length (lo ++ hi)) (lo ++ hi) left 0 <= List.length lo + 16)%nat.
Proof.
  intros Hlo Hhi Hleft. unfold first_visible.
  pose proof (fun i => left_of lo hi left i Hlo Hhi Hleft) as Hn.
  destruct (find16_spec (lo ++ hi) left (List.length lo) Hn (List.length (lo ++ hi)) 0)
    as [H1 [H2 H3]].
  { rewrite length_app. lia. }
  pose proof (length_app lo hi) as Hlen.
  split; [|lia].
  apply find_spec; [exact Hn|lia|lia].
Qed.

Lemma filter_none (f : A -> bool) (l : list A) :
  Forall (fun a => f a = false) l -> filter f l = [].
Proof.
  intros H. induction H as [|a l Ha Hl IH]; simpl; [reflexivity|].
  rewrite Ha. exact IH.
Qed.

End SearchFacts.

Lemma sorted_x_strongly (arr : list whiterec) :
  sorted_x arr -> StronglySorted x_up arr.
Proof.
  induction arr as [|a l IH]; intros H; constructor.
  - apply IH. intros i j Hij Hj.
    apply (H (S i) (S j)); simpl; lia.
  - apply Forall_forall. intros b Hb.
    destruct (In_nth l b sentinel_wh Hb) as [k [Hk <-]].
    apply (H O (S k)); simpl; lia.
Qed.

(** ** fast_whites draws the pieces of the window *)

(** The test a piece passes to be drawn, for [left] before 15 is added. *)
Definition in_window (top left bot right : Z) (w : whiterec) : bool :=
  (left <=? wx w) && (wx w <? right) && (wy w <=? bot) && (top <? wy w + ht w).

(** The call for a piece, in screen coordinates. *)
Definition drawn_at (top left : Z) (w : whiterec) : white_call :=
  if hasj w then call_eor_wall_piece (wx w - left) (wy w - top) (data w) (ht w)
  else call_white_wall_piece (wx w - left) (wy w - top) (data w) (ht w).

(** The differences the loop forms for a piece do not wrap. *)
Definition fits (top left : Z) (w : whiterec) : Prop :=
  Int.in_int16 (wy w - top) /\ Int.in_int16 (wx w - left) /\ -32767 <= ht w <= 32767.

(** The main loop as a walk down the rest of the array. *)
Fixpoint whites_scan (top left bot right : Z) (rest : list whiterec) : list white_call :=
  match rest with
  | [] => []
  | w :: rest' =>
      let next := whites_scan top left bot right rest' in
      if right <=? wx w then []
      else if bot <? wy w then next
      else if wy w -i top <=? 0 -i ht w then next
      else (if hasj w
            then call_eor_wall_piece (wx w -i left) (wy w -i top) (data w) (0 -i (0 -i ht w))
            else call_white_wall_piece (wx w -i left) (wy w -i top) (data w) (0 -i (0 -i ht w)))
           :: next
  end.

Lemma whites_loop_scan (arr : list whiterec) (top left bot right : Z) :
  right <= 20000 ->
  forall fuel wh, (List.length arr - wh < fuel)%nat ->
    whites_loop fuel arr top left bot right wh =
    whites_scan top left bot right (skipn wh arr).
Proof.
  intros Hr fuel. induction fuel as [|fuel IH]; intros wh Hf; [lia|].
  cbn [whites_loop].
  destruct (Nat.lt_ge_cases wh (List.length arr)) as [Hwh|Hwh].
  - rewrite (skipn_cons wh sentinel_wh arr Hwh). cbn [whites_scan].
    fold (white_at arr wh). rewrite IH by lia. reflexivity.
  - rewrite skipn_all2 by exact Hwh. unfold white_at.
    rewrite nth_overflow by exact Hwh. cbn [whites_scan wx sentinel_wh].
    destruct (Z.leb_spec right 20000); [reflexivity|lia].
Qed.

Lemma whites_scan_window (top left bot right : Z) (rest : list whiterec) :
  StronglySorted x_up rest ->
  Forall (fun w => left <= wx w) rest ->
  (forall w, In w rest -> wx w < right -> fits top (left + 15) w) ->
  whites_scan top (left + 15) bot right rest =
  map (drawn_at top (left + 15)) (filter (in_window top left bot right) rest).
Proof.
  intros Hs. induction Hs as [|a l Hl IH Ha]; intros Hleft Hfit; [reflexivity|].
  apply Forall_cons_iff in Hleft. destruct Hleft as [Hla Hll].
  cbn [whites_scan filter].
  destruct (Z.leb_spec right (wx a)) as [Hra|Hra].
  - unfold in_window at 1.
    replace (wx a <? right) with false by (symmetry; apply Z.ltb_ge; exact Hra).
    rewrite andb_false_r. cbn [andb].
    rewrite filter_none; [reflexivity|].
    eapply Forall_impl; [|exact Ha]. cbv beta. unfold x_up, in_window. intros b Hb.
    replace (wx b <? right) with false by (symmetry; apply Z.ltb_ge; lia).
    rewrite andb_false_r. reflexivity.
  - destruct (Hfit a (or_introl eq_refl) Hra) as [Hy [Hx Hh]].
    unfold Int.in_int16 in Hy, Hx.
    rewrite IH; [|exact Hll|intros w Hw; apply Hfit; right; exact Hw].
    rewrite (sub_small (wy a) top) by exact Hy.
    rewrite (sub_small 0 (ht a)) by (unfold Int.in_int16; lia).
    rewrite (sub_small 0 (0 - ht a)) by (unfold Int.in_int16; lia).
    rewrite (sub_small (wx a) (left + 15)) by exact Hx.
    replace (0 - (0 - ht a)) with (ht a) by lia.
    assert (in_window top left bot right a =
            negb (bot <? wy a) && negb (wy a - top <=? 0 - ht a)) as ->.
    { unfold in_window.
      destruct (Z.leb_spec left (wx a)); [|lia].
      destruct (Z.ltb_spec (wx a) right); [|lia].
      lia. }
    destruct (bot <? wy a); [reflexivity|].
    destruct (wy a - top <=? 0 - ht a); [reflexivity|].
    cbn [negb andb map]. unfold drawn_at at 1. reflexivity.
Qed.

Lemma fast_whites_pass_window (arr : list whiterec) (top left bot right : Z) :
  sorted_x arr -> left <= 20000 -> right <= 20000 -> Int.in_int16 (left + 15) ->
  (forall w, In w arr -> wx w < right -> fits top (left + 15) w) ->
  fast_whites_pass arr top left bot right =
  map (drawn_at top (left + 15)) (filter (in_window top left bot right) arr).
Proof.
  intros Hs Hl Hr Hl15 Hfit. apply sorted_x_strongly in Hs.
  destruct (sorted_split wx arr left Hs) as [lo [hi [-> [Hlo Hhi]]]].
  unfold fast_whites_pass.
  destruct (first_visible_spec wx sentinel_wh eq_refl lo hi left Hlo Hhi Hl) as [-> _].
  rewrite whites_loop_scan by (exact Hr || lia).
  rewrite skipn_app, skipn_all, Nat.sub_diag. cbn [skipn app].
  rewrite add_small by exact Hl15.
  apply sorted_app_inv in Hs. destruct Hs as [_ [Hhs _]].
  rewrite whites_scan_window;
    [|exact Hhs|exact Hhi|intros w Hw; apply Hfit; apply in_or_app; right; exact Hw].
  rewrite filter_app.
  rewrite (filter_none (in_window top left bot right) lo); [reflexivity|].
  eapply Forall_impl; [|exact Hlo]. cbv beta. unfold in_window. intros w Hw.
  replace (left <=? wx w) with false by (symmetry; apply Z.leb_gt; exact Hw).
  reflexivity.
Qed.

(** X14: On an array sorted by [x], as [init_walls] leaves it,
    [fast_whites] calls a drawing routine for exactly the pieces with
    [screenx - 15 <= x < screenr], [y <= screenb] and [screeny < y + ht],
    in the order of the array, at
    [(x - screenx, y - screeny)] and with the piece's own height and
    pattern, [eor_wall_piece] where [hasj] is set and [white_wall_piece]
    where it is not; then once more for the window moved left by
    [worldwidth].  The search in steps of 16 skips no such piece. *)
Theorem fast_whites_draws_the_window (ext : externs) (v : view) (arr : list whiterec) :
  sorted_x arr ->
  0 <= worldwidth ext ->
  -32768 <= screenx v - 15 - worldwidth ext -> screenx v <= 20015 ->
  -32768 <= screenr v - worldwidth ext -> screenr v <= 20000 ->
  (forall w, In w arr -> wx w < screenr v ->
     fits (screeny v) (screenx v) w /\
     fits (screeny v) (screenx v - worldwidth ext) w) ->
  fast_whites ext v arr =
  map (drawn_at (screeny v) (screenx v))
      (filter (in_window (screeny v) (screenx v - 15) (screenb v) (screenr v)) arr) ++
  map (drawn_at (screeny v) (screenx v - worldwidth ext))
      (filter (in_window (screeny v) (screenx v - 15 - worldwidth ext) (screenb v)
                         (screenr v - worldwidth ext)) arr).
Proof.
  intros Hs Hw Hx1 Hx2 Hr1 Hr2 Hfit. unfold fast_whites.
  rewrite (sub_small (screenx v) 15) by (unfold Int.in_int16; lia).
  rewrite (sub_small (screenx v - 15)) by (unfold Int.in_int16; lia).
  rewrite (sub_small (screenr v)) by (unfold Int.in_int16; lia).
  rewrite !fast_whites_pass_window; try exact Hs; try lia; try (unfold Int.in_int16; lia).
  - replace (screenx v - 15 + 15) with (screenx v) by lia.
    replace (screenx v - 15 - worldwidth ext + 15) with (screenx v - worldwidth ext) by lia.
    reflexivity.
  - intros w Hin Hlt.
    replace (screenx v - 15 - worldwidth ext + 15) with (screenx v - worldwidth ext) by lia.
    apply Hfit; [exact Hin|lia].
  - intros w Hin Hlt.
    replace (screenx v - 15 + 15) with (screenx v) by lia.
    apply Hfit; [exact Hin|lia].
Qed.

Definition three_pieces : list whiterec :=
  [ mkwhite 100 50 false 6 (Static generictop);
    mkwhite 500 10 false 6 (Static generictop);
    mkwhite 950 60 true 6 (Static sbot) ].

Definition view_at_900 : view := mkview 900 0 318 1412.

Lemma fast_whites_draws_the_window_witness :
  0 <= worldwidth small_world /\
  fast_whites small_world view_at_900 three_pieces =
  [ call_eor_wall_piece 50 60 (Static sbot) 6;
    call_white_wall_piece 200 50 (Static generictop) 6 ].
Proof.
  split; [simpl; lia|].
  rewrite (fast_whites_draws_the_window small_world view_at_900 three_pieces).
  - reflexivity.
  - apply sorted_by_index. unfold three_pieces.
    repeat (constructor; [|repeat (constructor; [unfold x_up; simpl; lia|])]);
      constructor.
  - simpl; lia.
  - simpl; lia.
  - simpl; lia.
  - simpl; lia.
  - simpl; lia.
  - intros w [<-|[<-|[<-|[]]]] _; unfold fits, Int.in_int16; simpl; lia.
Defined.

(** ** fast_hashes draws the junctions of the window *)

(** The test a junction passes to be drawn, for [left] before 8 is added
    and [top] 5 above the view. *)
Definition in_hash_window (top left bot right : Z) (j : junctionrec) : bool :=
  (left <=? jx j) && (jx j <? right) && (top <=? jy j) && (jy j <? bot).

(** What is done for a junction, in screen coordinates: the inline drawing
    where all of the figure is on the screen, the call elsewhere. *)
Definition hash_drawn_at (scr : screen) (top left : Z) (j : junctionrec) : hash_call :=
  let x := jx j - left in
  let y := jy j - top in
  if (0 <=? y) && (y <? VIEWHT scr - 5) && (0 <=? x) && (x <? SCRWTH scr - 9)
  then quick_hash x (y +i SBARHT scr)
  else call_draw_hash x y.

Definition junction_fits (top left : Z) (j : junctionrec) : Prop :=
  Int.in_int16 (jy j - top) /\ Int.in_int16 (jx j - left).

(** The main loop as a walk down the rest of the array. *)
Fixpoint hashes_scan (scr : screen) (top left bot right screeny : Z)
    (rest : list junctionrec) : list hash_call :=
  match rest with
  | [] => []
  | jn :: rest' =>
      let next := hashes_scan scr top left bot right screeny rest' in
      if right >? jx jn then
        if jy jn <? top then next
        else if jy jn >=? bot then next
        else
          (if jy jn - screeny <? 0 then call_draw_hash (jx jn -i left) (jy jn -i screeny)
           else if jy jn -i screeny >=? VIEWHT scr - 5
                then call_draw_hash (jx jn -i left) (jy jn -i screeny)
           else if jx jn -i left <? 0
                then call_draw_hash (jx jn -i left) (jy jn -i screeny)
           else if jx jn -i left <? SCRWTH scr - 9
                then quick_hash (jx jn -i left) (jy jn -i screeny +i SBARHT scr)
           else call_draw_hash (jx jn -i left) (jy jn -i screeny)) :: next
      else []
  end.

Lemma hashes_loop_scan (scr : screen) (js : list junctionrec)
    (top left bot right screeny : Z) :
  right <= 20000 ->
  forall fuel j, (List.length js - j < fuel)%nat ->
    hashes_loop fuel scr js top left bot right screeny j =
    hashes_scan scr top left bot right screeny (skipn j js).
Proof.
  intros Hr fuel. induction fuel as [|fuel IH]; intros j Hf; [lia|].
  cbn [hashes_loop].
  destruct (Nat.lt_ge_cases j (List.length js)) as [Hj|Hj].
  - rewrite (skipn_cons j sentinel_j js Hj). cbn [hashes_scan].
    fold (junction_at js j). rewrite IH by lia.
    destruct (right >? jx (junction_at js j)); [|reflexivity].
    destruct (jy (junction_at js j) <? top); [reflexivity|].
    destruct (jy (junction_at js j) >=? bot); [reflexivity|].
    destruct (jy (junction_at js j) - screeny <? 0); [reflexivity|].
    destruct (jy (junction_at js j) -i screeny >=? VIEWHT scr - 5); [reflexivity|].
    destruct (jx (junction_at js j) -i left <? 0); [reflexivity|].
    destruct (jx (junction_at js j) -i left <? SCRWTH scr - 9); reflexivity.
  - rewrite skipn_all2 by exact Hj. unfold junction_at.
    rewrite nth_overflow by exact Hj. cbn [hashes_scan jx sentinel_j].
    destruct (Z.gtb_spec right 20000); [lia|reflexivity].
Qed.

Lemma hashes_scan_window (scr : screen) (top left bot right screeny : Z)
    (rest : list junctionrec) :
  StronglySorted (fun a b => jx a <= jx b) rest ->
  Forall (fun j => left <= jx j) rest ->
  (forall j, In j rest -> jx j < right -> junction_fits screeny (left + 8) j) ->
  hashes_scan scr top (left + 8) bot right screeny rest =
  map (hash_drawn_at scr screeny (left + 8)) (filter (in_hash_window top left bot right) rest).
Proof.
  intros Hs. induction Hs as [|a l Hl IH Ha]; intros Hleft Hfit; [reflexivity|].
  apply Forall_cons_iff in Hleft. destruct Hleft as [Hla Hll].
  cbn [hashes_scan filter].
  destruct (Z.gtb_spec right (jx a)) as [Hra|Hra].
  - destruct (Hfit a (or_introl eq_refl) Hra) as [Hy Hx].
    unfold Int.in_int16 in Hy, Hx.
    rewrite IH; [|exact Hll|intros w Hw; apply Hfit; right; exact Hw].
    rewrite (sub_small (jy a) screeny) by exact Hy.
    rewrite (sub_small (jx a) (left + 8)) by exact Hx.
    assert (in_hash_window top left bot right a =
            negb (jy a <? top) && negb (jy a >=? bot)) as ->.
    { unfold in_hash_window. lia. }
    destruct (jy a <? top); [reflexivity|].
    destruct (jy a >=? bot); [reflexivity|].
    cbn [negb andb map]. f_equal.
    unfold hash_drawn_at.
    assert ((0 <=? jy a - screeny) = negb (jy a - screeny <? 0)) as -> by lia.
    assert ((jy a - screeny <? VIEWHT scr - 5) = negb (jy a - screeny >=? VIEWHT scr - 5))
      as -> by lia.
    assert ((0 <=? jx a - (left + 8)) = negb (jx a - (left + 8) <? 0)) as -> by lia.
    destruct (jy a - screeny <? 0); [reflexivity|].
    destruct (jy a - screeny >=? VIEWHT scr - 5); [reflexivity|].
    destruct (jx a - (left + 8) <? 0); [reflexivity|].
    destruct (jx a - (left + 8) <? SCRWTH scr - 9); reflexivity.
  - rewrite filter_none; [unfold in_hash_window;
                          replace (jx a <? right) with false by lia;
                          rewrite andb_false_r; reflexivity|].
    eapply Forall_impl; [|exact Ha]. cbv beta. unfold in_hash_window. intros b Hb.
    replace (jx b <? right) with false by lia.
    rewrite andb_false_r. reflexivity.
Qed.

Lemma fast_hashes_pass_window (scr : screen) (js : list junctionrec)
    (top left bot right screeny : Z) :
  StronglySorted (fun a b => jx a <= jx b) js ->
  left <= 20000 -> right <= 20000 -> Int.in_int16 (left + 8) ->
  (forall j, In j js -> jx j < right -> junction_fits screeny (left + 8) j) ->
  fast_hashes_pass scr js top left bot right screeny =
  map (hash_drawn_at scr screeny (left + 8)) (filter (in_hash_window top left bot right) js).
Proof.
  intros Hs Hl Hr Hl8 Hfit.
  destruct (sorted_split jx js left Hs) as [lo [hi [-> [Hlo Hhi]]]].
  unfold fast_hashes_pass.
  destruct (first_visible_spec jx sentinel_j eq_refl lo hi left Hlo Hhi Hl) as [-> _].
  rewrite hashes_loop_scan by (exact Hr || lia).
  rewrite skipn_app, skipn_all, Nat.sub_diag. cbn [skipn app].
  rewrite add_small by exact Hl8.
  apply sorted_app_inv in Hs. destruct Hs as [_ [Hhs _]].
  rewrite hashes_scan_window;
    [|exact Hhs|exact Hhi|intros w Hw; apply Hfit; apply in_or_app; right; exact Hw].
  rewrite filter_app.
  rewrite (filter_none (in_hash_window top left bot right) lo); [reflexivity|].
  eapply Forall_impl; [|exact Hlo]. cbv beta. unfold in_hash_window. intros w Hw.
  replace (left <=? jx w) with false by lia.
  reflexivity.
Qed.

(** X15: On a junction array sorted by [x], [fast_hashes] draws exactly the
    junctions with [screenx - 8 <= x < screenr] and
    [screeny - 5 <= y < screenb], in the order of the array, at
    [(x - screenx, y - screeny)]: inline where the six lines and ten
    columns of the figure are all on the screen, by a call of [draw_hash]
    elsewhere; then once more for the window moved left by [worldwidth]. *)
Theorem fast_hashes_draws_the_window (scr : screen) (ext : externs) (v : view)
    (js : list junctionrec) :
  StronglySorted (fun a b => jx a <= jx b) js ->
  0 <= worldwidth ext ->
  -32768 <= screenx v - 8 - worldwidth ext -> screenx v <= 20008 ->
  -32768 <= screenr v - worldwidth ext -> screenr v <= 20000 ->
  Int.in_int16 (screeny v - 5) ->
  (forall j, In j js -> jx j < screenr v ->
     junction_fits (screeny v) (screenx v) j /\
     junction_fits (screeny v) (screenx v - worldwidth ext) j) ->
  fast_hashes scr ext v js =
  map (hash_drawn_at scr (screeny v) (screenx v))
      (filter (in_hash_window (screeny v - 5) (screenx v - 8) (screenb v) (screenr v)) js) ++
  map (hash_drawn_at scr (screeny v) (screenx v - worldwidth ext))
      (filter (in_hash_window (screeny v - 5) (screenx v - 8 - worldwidth ext) (screenb v)
                              (screenr v - worldwidth ext)) js).
Proof.
  intros Hs Hw Hx1 Hx2 Hr1 Hr2 Hy Hfit. unfold fast_hashes.
  rewrite (sub_small (screeny v) 5) by exact Hy.
  rewrite (sub_small (screenx v) 8) by (unfold Int.in_int16; lia).
  rewrite (sub_small (screenx v - 8)) by (unfold Int.in_int16; lia).
  rewrite (sub_small (screenr v)) by (unfold Int.in_int16; lia).
  rewrite !fast_hashes_pass_window; try exact Hs; try lia; try (unfold Int.in_int16; lia).
  - replace (screenx v - 8 + 8) with (screenx v) by lia.
    replace (screenx v - 8 - worldwidth ext + 8) with (screenx v - worldwidth ext) by lia.
    reflexivity.
  - intros w Hin Hlt.
    replace (screenx v - 8 - worldwidth ext + 8) with (screenx v - worldwidth ext) by lia.
    apply Hfit; [exact Hin|lia].
  - intros w Hin Hlt.
    replace (screenx v - 8 + 8) with (screenx v) by lia.
    apply Hfit; [exact Hin|lia].
Qed.

Definition three_junctions : list junctionrec :=
  [ mkjunction 100 50; mkjunction 500 10; mkjunction 950 (-3) ].

Lemma fast_hashes_draws_the_window_witness :
  0 <= worldwidth small_world /\
  fast_hashes mac_screen small_world view_at_900 three_junctions =
  [ call_draw_hash 50 (-3); quick_hash 200 74 ].
Proof.
  split; [simpl; lia|].
  rewrite (fast_hashes_draws_the_window mac_screen small_world view_at_900 three_junctions).
  - reflexivity.
  - unfold three_junctions.
    repeat (constructor; [|repeat (constructor; [simpl; lia|])]); constructor.
  - simpl; lia.
  - simpl; lia.
  - simpl; lia.
  - simpl; lia.
  - simpl; lia.
  - unfold Int.in_int16; simpl; lia.
  - intros w [<-|[<-|[<-|[]]]] _; unfold junction_fits, Int.in_int16; simpl; lia.
Defined.

(** ** The rows white_hash_merge writes *)

Lemma overlay_bits (back d h : Z) :
  Z.lxor back (Z.lxor (Z.land back (Z.lor (Z.lnot d) h)) h) = Z.lor (Z.land back d) h.
Proof.
  apply Z.bits_inj'. intros n Hn.
  rewrite !Z.lxor_spec, !Z.lor_spec, !Z.land_spec, Z.lor_spec, Z.lnot_spec by exact Hn.
  destruct (Z.testbit back n), (Z.testbit d n), (Z.testbit h n); reflexivity.
Qed.

Lemma hash_rows_nth (st : list Z) (d : dataptr) (count : nat) :
  forall back i k, (k < count)%nat ->
    nth k (hash_rows st d back i count) 0 =
    Z.lxor (Z.land (Nat.iter k rol16 back)
                   (Z.lor (Z.lnot (row st d (i + k))) (nth (i + k) hash_figure 0)))
           (nth (i + k) hash_figure 0).
Proof.
  induction count as [|count IH]; intros back i k Hk; [lia|].
  cbn [hash_rows]. destruct k as [|k].
  - rewrite Nat.add_0_r. reflexivity.
  - cbn [nth]. rewrite IH by lia.
    rewrite Nat.iter_succ_r. replace (S i + k)%nat with (i + S k)%nat by lia.
    reflexivity.
Qed.

(** X16: The six rows [white_hash_merge] stores for a piece on a junction: row
    [k] xor-ed onto [back], as the loop has rotated it by then, gives
    [back] and-ed with row [k] of the piece, with the pixels of row [k] of
    [hash_figure] set. *)
Theorem overlay_rows (st : list Z) (d : dataptr) (back : Z) (k : nat) :
  (k < 6)%nat ->
  let line := Nat.iter k rol16 back in
  Z.lxor line (nth k (hash_rows st d back 0 6) 0) =
  Z.lor (Z.land line (row st d k)) (nth k hash_figure 0).
Proof.
  intros Hk line. subst line.
  rewrite hash_rows_nth by exact Hk. cbn [Nat.add].
  apply overlay_bits.
Qed.

Lemma overlay_rows_witness :
  (2 < 6)%nat /\
  Z.lxor (Nat.iter 2 rol16 0x5555) (nth 2 (hash_rows [] (Static generictop) 0x5555 0 6) 0) =
  Z.lor (Z.land (Nat.iter 2 rol16 0x5555) (row [] (Static generictop) 2))
        (nth 2 hash_figure 0).
Proof.
  split; [lia|].
  apply (overlay_rows [] (Static generictop) 0x5555 2). lia.
Defined.

(** * The pieces of a wall after close_whites *)

(** ** Where replace_white_2 can strike *)

(** The pieces [norm_whites] makes for a wall, in the order it adds
    them. *)
Definition wall_pieces (line : linerec) : list whiterec :=
  endpoint_pieces line ++ glitch_pieces line.

(** The slot of the first of them: [numwhites] when the loop of
    [norm_whites] comes to the wall of index [k]. *)
Definition first_slot (lines : list linerec) (k : nat) : nat :=
  List.length (norm_whites (firstn k lines) []).

(** The places [one_close] can hand to [replace_white_2] as its target:
    [(line->startx, line->starty + line->h2)] for a record of [base] seen
    heading South from one of its ends, with [h2] below [length]; [h2] is
    what the record has in [base], or [length] less the 6, 10 or 21 of an
    earlier patch. *)
Definition replace_target (base : list linerec) (p : Z * Z) : Prop :=
  exists k2 l2 n j,
    nth_error base k2 = Some l2 /\ direction l2 n = 0 /\
    (j = h2 l2 \/ j = length l2 -i 6 \/ j = length l2 -i 10 \/ j = length l2 -i 21) /\
    j < length l2 /\
    p = (startx l2, starty l2 +i j).

(** A record of [close_whites] under way: the wall of [base] with the [h2]
    it had or the [h2] of a patch. *)
Definition tracked (b l : linerec) : Prop :=
  geometry l = geometry b /\
  (h2 l = h2 b \/ h2 l = length b -i 6 \/ h2 l = length b -i 10 \/ h2 l = length b -i 21).

Lemma geometry_fields (a b : linerec) :
  geometry a = geometry b ->
  startx a = startx b /\ starty a = starty b /\ length a = length b /\
  newtype a = newtype b.
Proof.
  unfold geometry. intros H. injection H as _ Hx Hy _ _ Hl Ht. auto.
Qed.

Lemma replace_white_2_slot (ws : list whiterec) (tx ty x y h : Z) (d : dataptr)
    (s : nat) (w0 : whiterec) :
  nth_error ws s = Some w0 ->
  nth_error (replace_white_2 ws tx ty x y h d) s = Some w0 \/
  (wx w0 = tx /\ wy w0 = ty /\ ht w0 < h /\
   nth_error (replace_white_2 ws tx ty x y h d) s = Some (mkwhite x y (hasj w0) h d)).
Proof.
  revert s. induction ws as [|wh rest IH]; intros s Hs; [destruct s; discriminate|].
  cbn [replace_white_2].
  destruct (negb (wy wh =? ty) || negb (wx wh =? tx) || (ht wh >=? h)) eqn:E.
  - destruct s as [|s]; [left; exact Hs|]. cbn [nth_error] in *. apply IH, Hs.
  - destruct s as [|s]; [|left; exact Hs].
    cbn [nth_error] in *. injection Hs as ->.
    apply replaceable_test in E. destruct E as [Ex [Ey Eh]].
    right. auto.
Qed.

Lemma add_white_slot (ws : list whiterec) (x y h : Z) (d : dataptr) (s : nat)
    (w0 : whiterec) :
  nth_error ws s = Some w0 -> nth_error (add_white ws x y h d) s = Some w0.
Proof.
  intros Hs. unfold add_white. rewrite nth_error_app1; [exact Hs|].
  apply nth_error_Some. congruence.
Qed.

Lemma nepatch_run_slot (count : nat) (j : Z) (line : linerec) (ws : list whiterec)
    (s : nat) (w0 : whiterec) :
  nth_error ws s = Some w0 -> nth_error (nepatch_run count j line ws) s = Some w0.
Proof.
  revert j ws. induction count as [|c IH]; intros j ws Hs; simpl; [exact Hs|].
  apply IH. destruct (_ <? _); [apply add_white_slot|]; exact Hs.
Qed.

(** [one_close] leaves a slot as it is, unless it is the first with a
    smaller piece at the target of its [replace_white_2]. *)
Lemma one_close_slot (ws : list whiterec) (line line2 : linerec) (n m : bool)
    (s : nat) (w0 : whiterec) :
  nth_error ws s = Some w0 ->
  nth_error (fst (one_close ws line line2 n m)) s = Some w0 \/
  (direction line n = 0 /\ h2 line < length line /\
   wx w0 = startx line /\ wy w0 = starty line +i h2 line /\
   exists w1, nth_error (fst (one_close ws line line2 n m)) s = Some w1 /\
              data w1 = Static npatch /\ ht w0 < ht w1 /\ hasj w1 = hasj w0).
Proof.
  intros Hs. unfold one_close, add_white_2. cbv zeta.
  destruct (direction line n =? direction line2 m); [left; exact Hs|].
  destruct (Z.eqb_spec (direction line n) 0) as [Hd|Hd].
  - assert (forall i,
      nth_error
        (fst (if length line -i i >? h2 line then (ws, line)
              else
                (if h2 line <? length line
                 then replace_white_2 ws (startx line) (starty line +i h2 line)
                        (endx line) (endy line -i i) i (Static npatch)
                 else add_white ws (endx line) (endy line -i i) i (Static npatch),
                 mkline (ltype line) (startx line) (starty line) (endx line) (endy line)
                   (length line) (newtype line) (h1 line) (length line -i i)))) s
      = Some w0 \/
      (direction line n = 0 /\ h2 line < length line /\
       wx w0 = startx line /\ wy w0 = starty line +i h2 line /\
       exists w1,
         nth_error
           (fst (if length line -i i >? h2 line then (ws, line)
                 else
                   (if h2 line <? length line
                    then replace_white_2 ws (startx line) (starty line +i h2 line)
                           (endx line) (endy line -i i) i (Static npatch)
                    else add_white ws (endx line) (endy line -i i) i (Static npatch),
                    mkline (ltype line) (startx line) (starty line) (endx line)
                      (endy line) (length line) (newtype line) (h1 line)
                      (length line -i i)))) s = Some w1 /\
         data w1 = Static npatch /\ ht w0 < ht w1 /\ hasj w1 = hasj w0)) as Hpatch.
    { intros i. destruct (length line -i i >? h2 line); [left; exact Hs|]. cbn [fst].
      destruct (Z.ltb_spec (h2 line) (length line)) as [Hlt|Hge].
      - destruct (replace_white_2_slot ws (startx line) (starty line +i h2 line)
                    (endx line) (endy line -i i) i (Static npatch) s w0 Hs)
          as [Hk|[Hx [Hy [Hh Hn]]]]; [left; exact Hk|].
        right. repeat (split; [assumption|]).
        eexists. split; [exact Hn|]. cbn [data ht hasj]. auto.
      - left. apply add_white_slot, Hs. }
    destruct ((direction line2 m =? 15) || (direction line2 m =? 1)); [apply Hpatch|].
    destruct (direction line2 m =? 2); [apply Hpatch|].
    destruct ((direction line2 m =? 3) || (direction line2 m =? 14)); [apply Hpatch|].
    left. exact Hs.
  - left.
    destruct (direction line n =? 2); [|exact Hs].
    repeat match goal with
           | |- context [if ?c then _ else _] =>
               match c with
               | direction line2 m =? _ => destruct c
               end
           end;
      cbn [fst]; try apply nepatch_run_slot; exact Hs.
Qed.

Lemma one_close_tracked (ws : list whiterec) (line line2 : linerec) (n m : bool) :
  h2 (snd (one_close ws line line2 n m)) = h2 line \/
  h2 (snd (one_close ws line line2 n m)) = length line -i 6 \/
  h2 (snd (one_close ws line line2 n m)) = length line -i 10 \/
  h2 (snd (one_close ws line line2 n m)) = length line -i 21.
Proof.
  unfold one_close.
  repeat first
    [ match goal with |- context [if ?x then _ else _] => destruct x end
    | progress cbn [snd h2] ];
    auto.
Qed.

Lemma Forall2_nth_error_r {A B : Type} (R : A -> B -> Prop) (a : list A) (b : list B)
  (k : nat) (y : B) :
  Forall2 R a b -> nth_error b k = Some y -> exists x, nth_error a k = Some x /\ R x y.
Proof.
  intros H. revert k. induction H as [|x0 y0 a b Hxy Hab IH]; intros k Hk;
    [destruct k; discriminate|].
  destruct k as [|k]; simpl in *.
  - injection Hk as <-. exists x0. auto.
  - apply IH, Hk.
Qed.

Lemma tracked_refl (base : list linerec) : Forall2 tracked base base.
Proof.
  induction base; constructor; [|assumption]. split; [reflexivity|left; reflexivity].
Qed.

Section Slot.

Variable base : list linerec.
Variable s : nat.
Variable w : whiterec.

(** What slot [s] holds while [close_whites] runs, for the piece [w] it
    held at first: [w], or the piece of [npatch] that a [replace_white_2]
    aimed at the place of [w] has put there. *)
Definition slot_kept (ws : list whiterec) : Prop :=
  exists w', nth_error ws s = Some w' /\
    (w' = w \/
     (replace_target base (wx w, wy w) /\
      data w' = Static npatch /\ ht w < ht w' /\ hasj w' = hasj w)).

Definition slot_state (st : cstate) : Prop :=
  Forall2 tracked base (clines st) /\ slot_kept (cwhites st).

Lemma close_pair_slot (k1 k2 : nat) (i j : bool) (st : cstate) :
  slot_state st -> slot_state (close_pair k1 k2 i j st).
Proof.
  intros [Ht [w' [Hs Hw']]]. unfold close_pair.
  destruct (nth_error (clines st) k1) as [line|] eqn:El; [|split; [exact Ht|exists w'; auto]].
  destruct (nth_error (clines st) k2) as [line2|]; [|split; [exact Ht|exists w'; auto]].
  destruct (in_box _ _); [|split; [exact Ht|exists w'; auto]].
  destruct (Forall2_nth_error_r _ _ _ _ _ Ht El) as [b [Hb [Gb Hh2]]].
  destruct (geometry_fields _ _ Gb) as [Gx [Gy [Gl Gt]]].
  split; cbn [clines cwhites].
  - apply Forall2_store_at; [exact Ht|].
    intros x y Hx Hy. assert (x = b) by congruence. subst x.
    split; [rewrite one_close_geometry; exact Gb|].
    destruct (one_close_tracked (cwhites st) line line2 i j) as [E|[E|[E|E]]];
      rewrite E; [exact Hh2| | |]; rewrite Gl; auto.
  - destruct (one_close_slot (cwhites st) line line2 i j s w' Hs)
      as [Hk|[Hd [Hlt [Hx [Hy [w1 [Hs1 [Hd1 [Hh1 Hj1]]]]]]]]].
    + exists w'. auto.
    + exists w1. split; [exact Hs1|]. right.
      destruct Hw' as [->|[Hrt [_ [Hhw Hjw]]]].
      * split; [|auto].
        exists k1, b, i, (h2 line). split; [exact Hb|].
        split; [unfold direction in *; rewrite <- Gt; exact Hd|].
        split; [exact Hh2|].
        split; [rewrite <- Gl; exact Hlt|].
        rewrite Hx, Hy, Gx, Gy. reflexivity.
      * split; [exact Hrt|]. split; [exact Hd1|]. split; [lia|congruence].
Qed.

End Slot.

(** A piece [close_whites] finds in slot [s] is still there afterwards,
    unless it lay at the target of a [replace_white_2]. *)
Lemma close_whites_slot (lines : list linerec) (ws : list whiterec) (s : nat)
    (w : whiterec) :
  nth_error ws s = Some w ->
  slot_kept (default_hs lines) s w (cwhites (close_whites (mkcstate lines ws))).
Proof.
  intros Hs. unfold close_whites. cbn [clines cwhites].
  apply (close_lines_invariant (slot_state (default_hs lines) s w)
           (close_pair_slot (default_hs lines) s w)).
  split; cbn [clines cwhites]; [apply tracked_refl|].
  exists w. auto.
Qed.

Lemma walls_of_prefix (lines : list linerec) (k : nat) (line : linerec) :
  is_wall lines k -> nth_error lines k = Some line ->
  walls (firstn k lines) = firstn k lines /\
  walls lines = firstn k lines ++ line :: walls (skipn (S k) lines).
Proof.
  revert k. induction lines as [|l rest IH]; intros k Hw Hk; [destruct k; discriminate|].
  assert (ltype l <> 0) as Hl by (apply (Hw O l); [lia|reflexivity]).
  apply Z.eqb_neq in Hl.
  destruct k as [|k].
  - injection Hk as ->. cbn [firstn skipn walls app]. rewrite Hl. auto.
  - cbn [firstn skipn walls app]. rewrite Hl.
    destruct (IH k) as [H1 H2].
    + intros i l' Hi Hl'. apply (Hw (S i) l'); [lia|exact Hl'].
    + exact Hk.
    + rewrite H1. rewrite H2 at 1. auto.
Qed.

(** The pieces of the wall of index [k] lie in a row from [first_slot]
    on. *)
Lemma norm_whites_slots (lines : list linerec) (k : nat) (line : linerec) (i : nat)
    (w : whiterec) :
  is_wall lines k -> nth_error lines k = Some line ->
  nth_error (wall_pieces line) i = Some w ->
  nth_error (norm_whites lines []) (first_slot lines k + i) = Some w.
Proof.
  intros Hw Hk Hi. unfold first_slot.
  destruct (walls_of_prefix lines k line Hw Hk) as [H1 H2].
  rewrite !norm_whites_pieces, H1, H2. cbn [app].
  rewrite flat_map_app. cbn [flat_map].
  rewrite nth_error_app2 by lia.
  replace (_ + i - _)%nat with i by lia.
  rewrite nth_error_app1; [exact Hi|].
  apply nth_error_Some. unfold wall_pieces in Hi. congruence.
Qed.

(** ** A wall that stands alone *)

(** C8 (amended): a wall with no end point of another wall in the 6 by 6
    box around either of its end points (at most 2 pixels away on both
    axes; so with none within 6 pixels) gets from [norm_whites] the pieces
    of its ends that [whitepicts] has for its direction, two of 6 rows
    except for ESE, and the glitch pieces of its direction, none except for
    NE, ENE and ESE; its turn of the loop of [close_whites] adds and
    replaces no piece and changes no bounds; after [close_whites] its [h1]
    is [simpleh1[newtype]] and its [h2] is [length + simpleh2[newtype]];
    and each of its pieces is in its slot of the list [close_whites]
    leaves, unless the piece lay at the place
    [(startx, starty + h2)] of a wall heading South whose [h2] was below
    its [length]: there the [replace_white_2] of that wall's next patch
    may have put a higher piece of [npatch] into the slot. *)
Theorem wall_alone (lines : list linerec) (ws : list whiterec) (k : nat) (line : linerec) :
  nth_error lines k = Some line -> is_wall lines k -> 1 <= newtype line <= 8 ->
  (forall k2 line2 j, nth_error lines k2 = Some line2 ->
     JunctionFinder.coord_ok (endpoint line2 j)) ->
  (forall k2 line2 i j, k2 <> k -> nth_error lines k2 = Some line2 ->
     ~ boxed (endpoint line i) (endpoint line2 j)) ->
  norm_whites_line ws line = ws ++ endpoint_pieces line ++ glitch_pieces line /\
  (newtype line <> NEW_ESE ->
   exists top bottom,
     endpoint_pieces line
     = [mkwhite (startx line) (starty line) false 6 (Static top);
        mkwhite (endx line) (endy line) false 6 (Static bottom)]) /\
  (newtype line <> NEW_NE -> newtype line <> NEW_ENE -> newtype line <> NEW_ESE ->
   glitch_pieces line = []) /\
  (forall first st, map geometry (clines st) = map geometry lines ->
     snd (close_line k first st) = st) /\
  nth_error (clines (close_whites (mkcstate lines ws))) k = Some (default_h line) /\
  h1 (default_h line) = nth (Z.to_nat (newtype line)) simpleh1 0 /\
  h2 (default_h line) = length line +i nth (Z.to_nat (newtype line)) simpleh2 0 /\
  (forall i w, nth_error (wall_pieces line) i = Some w ->
     nth_error (norm_whites lines []) (first_slot lines k + i) = Some w /\
     exists w',
       nth_error (cwhites (patched_whites lines)) (first_slot lines k + i) = Some w' /\
       (w' = w \/
        (replace_target (default_hs lines) (wx w, wy w) /\
         data w' = Static npatch /\ ht w < ht w' /\ hasj w' = hasj w))).
Proof.
  intros Hk Hwall Ht Hok Halone.
  split; [apply norm_whites_line_pieces|].
  split; [apply endpoint_pieces_two, Ht|].
  split.
  { intros H1 H2 H3. unfold glitch_pieces.
    destruct (Z.eqb_spec (newtype line) NEW_NE); [contradiction|].
    destruct (Z.eqb_spec (newtype line) NEW_ENE); [contradiction|].
    destruct (Z.eqb_spec (newtype line) NEW_ESE); [contradiction|reflexivity]. }
  split.
  { intros first st Hs. apply (close_line_alone lines k line Hk Ht Hok Halone first st Hs). }
  split.
  { unfold close_whites.
    rewrite (close_lines_keeps lines k line Hk Ht Hok Halone).
    - cbn [clines]. apply default_hs_nth; assumption.
    - unfold same_walls. cbn [clines]. apply default_hs_geometry. }
  split; [reflexivity|]. split; [reflexivity|].
  intros i w Hi.
  pose proof (norm_whites_slots lines k line i w Hwall Hk Hi) as Hslot.
  split; [exact Hslot|].
  apply (close_whites_slot lines (norm_whites lines []) _ w Hslot).
Qed.

Lemma wall_alone_witness :
  norm_whites_line [] (wall 100 50 100 80 30 NEW_S)
  = [mkwhite 100 50 false 6 (Static generictop); mkwhite 100 80 false 6 (Static sbot)] /\
  nth_error (clines (close_whites (mkcstate lone_south []))) 0
  = Some (mkline 1 100 50 100 80 30 NEW_S 6 30) /\
  nth_error (norm_whites lone_south []) 1 = Some (mkwhite 100 80 false 6 (Static sbot)).
Proof.
  assert (is_wall lone_south 0) as Hwall.
  { intros i l Hi Hl. destruct i; [|lia]. injection Hl as <-. discriminate. }
  assert (forall k2 line2 j, nth_error lone_south k2 = Some line2 ->
            JunctionFinder.coord_ok (endpoint line2 j)) as Hok.
  { intros k2 line2 j Hk2.
    destruct k2 as [|[|k2]]; simpl in Hk2; [| |destruct k2; discriminate];
      injection Hk2 as <-; destruct j; unfold JunctionFinder.coord_ok; simpl; lia. }
  assert (forall k2 line2 i j, k2 <> 0%nat -> nth_error lone_south k2 = Some line2 ->
            ~ boxed (endpoint (wall 100 50 100 80 30 NEW_S) i) (endpoint line2 j)) as Halone.
  { intros k2 line2 i j Hne Hk2 [Hx _].
    destruct k2 as [|[|k2]]; simpl in Hk2; [congruence| |destruct k2; discriminate].
    injection Hk2 as <-. destruct i, j; simpl in Hx; lia. }
  destruct (wall_alone lone_south [] 0 (wall 100 50 100 80 30 NEW_S) eq_refl Hwall
              ltac:(unfold wall, NEW_S; simpl; lia) Hok Halone)
    as [Hpieces [_ [_ [_ [Hbounds [_ [_ Hfinal]]]]]]].
  split; [exact Hpieces|]. split; [exact Hbounds|].
  exact (proj1 (Hfinal 1%nat (mkwhite 100 80 false 6 (Static sbot)) eq_refl)).
Defined.

(** An East wall that ends on a South wall, 10 pixels above the end point
    of the South wall, where a Northeast wall and a North-Northeast wall
    start. *)
Definition east_on_south : list linerec :=
  [ wall 60 40 100 40 40 NEW_E;
    wall 100 20 100 50 30 NEW_S;
    wall 100 50 120 30 20 NEW_NE;
    wall 100 50 110 30 20 NEW_NNE;
    end_of_lines ].

(** C8 as the specification states it, for the pieces preparation
    produces: those of a wall with no end point of another wall within 6
    pixels are among them. *)
Definition pieces_survive (lines : list linerec) (k : nat) : Prop :=
  forall line, nth_error lines k = Some line ->
    (forall k2 line2 i j, k2 <> k -> nth_error lines k2 = Some line2 ->
       ~ within6 (endpoint line i) (endpoint line2 j)) ->
    forall w, In w (norm_whites_line [] line) -> In w (cwhites (patched_whites lines)).

(** The exception of C8 (amended) occurs: the East wall of [east_on_south]
    has no end point of another wall within 6 pixels, and loses the piece
    of its end.  The Northeast wall makes the South wall add 10 rows of
    [npatch] at [(100, 40)] and sets its [h2] to 20; the patch for the
    North-Northeast wall then calls [replace_white_2] with the target
    [(100, 40)], and the first piece there that is lower than 21 rows is
    the end piece of the East wall, in slot 1. *)
Lemma east_wall_loses_end_piece :
  ~ pieces_survive east_on_south 0 /\
  nth_error (norm_whites east_on_south []) 1
  = Some (mkwhite 100 40 false 6 (Static generictop)) /\
  nth_error (cwhites (patched_whites east_on_south)) 1
  = Some (mkwhite 100 29 false 21 (Static npatch)).
Proof.
  split; [|split; reflexivity].
  intros H.
  specialize (H (wall 60 40 100 40 40 NEW_E) eq_refl).
  assert (In (mkwhite 100 40 false 6 (Static generictop))
             (cwhites (patched_whites east_on_south))) as Hin.
  { apply H.
    - intros k2 line2 i j Hne Hk2 [Hx Hy].
      destruct k2 as [|[|[|[|[|k2]]]]]; simpl in Hk2; try congruence;
        try (destruct k2; discriminate);
        injection Hk2 as <-; destruct i, j; simpl in Hx, Hy; lia.
    - right. left. reflexivity. }
  vm_compute in Hin.
  repeat (destruct Hin as [Hin|Hin]; [discriminate Hin|]).
  exact Hin.
Qed.
